(** * Grey Wolf Optimizer family (mealpy/swarm_based/GWO.py)

    A shallow embedding of the four [evolve] methods of GWO.py
    (BaseGWO, RW_GWO, GWO_WOA_M, GWO_WOA_O) and the properties of the
    per-epoch update stated in the specification.

    Modelling conventions.
    - numpy float arrays are lists of rationals ([ndarray := list Q]);
      arithmetic is exact, elementwise operations are [zip_with] / [map]
      (all the positions of a run have [n_dims] coordinates, and on arrays
      of equal length numpy's elementwise arithmetic is [zip_with]).
    - [self] is split into its immutable part (record [Optimizer]: the
      configuration and the methods inherited from [mealpy.optimizer]) and
      its mutable part (record [State]: [self.pop], [self.g_best] and the
      state of numpy's global random generator).
    - A method body is a computation [M A := State -> result A * State]:
      a Python exception is [Raise e], and the state reached when the
      exception is raised is kept (in-place writes to [self.pop] made
      before the exception persist).
    - A population member always carries a fitness; the unevaluated
      candidates [[pos_new, None]] of the source only ever live in the
      local list [pop_new], which is modelled as a list of bare positions. *)

From stdpp Require Import base list sorting strings.
From Stdlib Require Import ZArith QArith Qabs Lia Lqa.

Open Scope Q_scope.

(** ** Values *)

Definition ndarray := list Q.

(** A solution [[position, target]]; [ID_POS] and [ID_TAR] are the two
    indices the source uses to read it. *)
Record solution := Solution { ID_POS : ndarray; ID_TAR : Q }.

Inductive exn := ZeroDivisionError | IndexError | ValueError.

Inductive result (A : Type) :=
| Ok (a : A)
| Raise (e : exn).
Arguments Ok {A} a.
Arguments Raise {A} e.

(** ** numpy arithmetic on arrays *)

Module np.
Definition add (u v : ndarray) : ndarray := zip_with Qplus u v.
Definition sub (u v : ndarray) : ndarray := zip_with Qminus u v.
Definition scale (c : Q) (v : ndarray) : ndarray := map (Qmult c) v.
Definition abs (v : ndarray) : ndarray := map Qabs v.
Definition div_scalar (v : ndarray) (c : Q) : ndarray := map (fun x => x / c) v.
End np.

Definition Qlt_bool (x y : Q) : bool := negb (Qle_bool y x).

(** Python's true division of two ints. *)
Definition py_truediv (x y : Z) : result Q :=
  if (y =? 0)%Z then Raise ZeroDivisionError else Ok (inject_Z x / inject_Z y).

(** ** The random generator

    numpy's generator is a deterministic function of its state.  A uniform
    double is 53 random bits divided by 2^53, hence lies in [0, 1); the
    heavy-tailed Cauchy samples are given by a second, unconstrained
    sequence.  Every draw advances the cursor by one. *)
Record RandomState := mkRandomState {
  bits : nat -> Z;
  heavy : nat -> Q;
  cursor : nat
}.

Definition advance (r : RandomState) : RandomState :=
  mkRandomState (bits r) (heavy r) (S (cursor r)).

Definition two53 : Z := 9007199254740992.

Definition random_sample (r : RandomState) : Q * RandomState :=
  (inject_Z (bits r (cursor r) mod two53) / inject_Z two53, advance r).

Definition cauchy_sample (r : RandomState) : Q * RandomState :=
  (heavy r (cursor r), advance r).

Fixpoint cauchy_samples (n : nat) (r : RandomState) : ndarray * RandomState :=
  match n with
  | O => ([], r)
  | S n' => let (x, r1) := cauchy_sample r in
            let (xs, r2) := cauchy_samples n' r1 in
            (x :: xs, r2)
  end.

(** ** The optimizer object *)

(** The immutable part of [self]: configuration fixed by [__init__] and the
    methods of the base class [mealpy.optimizer.Optimizer], which the
    strategies only call.  The base class is not part of GWO.py; its
    methods are taken as fields and constrained by the contracts below. *)
Record Optimizer := mkOptimizer {
  epoch : Z;                         (* self.epoch: total number of epochs *)
  pop_size : nat;                    (* self.pop_size *)
  lb : ndarray;                      (* self.problem.lb *)
  ub : ndarray;                      (* self.problem.ub *)
  n_dims : nat;                      (* self.problem.n_dims *)
  mode_in_AVAILABLE_MODES : bool;    (* self.mode in self.AVAILABLE_MODES *)
  minimize : bool;                   (* self.problem.minmax == "min" *)
  np_exp : Q -> Q;
  np_cos : Q -> Q;
  np_pi : Q;
  get_special_solutions : list solution -> list solution;   (* the [best=3] component *)
  amend_position : ndarray -> ndarray -> ndarray -> RandomState -> ndarray * RandomState;
  create_solution : ndarray -> ndarray -> RandomState -> solution * RandomState;
  get_target_wrapper : ndarray -> Q;
  update_target_wrapper_population : list ndarray -> list solution;
  greedy_selection_population : list solution -> list solution -> result (list solution);
  get_sorted_strim_population : list solution -> nat -> list solution;
  get_better_solution : solution -> solution -> solution
}.

(** The mutable part of [self]. *)
Record State := mkState {
  pop : list solution;
  g_best : solution;
  rng : RandomState
}.

(** ** Computations *)

Definition M (A : Type) : Type := State -> result A * State.

Definition ret {A} (a : A) : M A := fun s => (Ok a, s).

Definition bind {A B} (k : A -> M B) (m : M A) : M B :=
  fun s => match m s with
           | (Ok a, s') => k a s'
           | (Raise e, s') => (Raise e, s')
           end.

Definition raise {A} (e : exn) : M A := fun s => (Raise e, s).

#[global] Instance M_ret : MRet M := @ret.
#[global] Instance M_bind : MBind M := @bind.

Definition lift_result {A} (r : result A) : M A := fun s => (r, s).

(** Run a generator action on the generator held in the state. *)
Definition with_rng {A} (f : RandomState -> A * RandomState) : M A :=
  fun s => let (a, r) := f (rng s) in (Ok a, mkState (pop s) (g_best s) r).

Definition np_random_uniform : M Q := with_rng random_sample.
Definition np_random_rand : M Q := with_rng random_sample.
(** [np.random.uniform(low, high)] *)
Definition np_random_uniform_in (low high : Q) : M Q :=
  u ← with_rng random_sample; mret (low + (high - low) * u).
Definition np_random_standard_cauchy (n : nat) : M ndarray :=
  with_rng (cauchy_samples n).

(** [l[i]] on a Python list. *)
Definition getitem {A} (l : list A) (i : nat) : M A :=
  match l !! i with
  | Some x => mret x
  | None => raise IndexError
  end.

(** [self.pop[idx]] *)
Definition get_pop (idx : nat) : M solution := fun s => getitem (pop s) idx s.
(** [self.g_best] *)
Definition get_g_best : M solution := fun s => (Ok (g_best s), s).
(** [self.pop[idx] = x] *)
Definition set_pop (idx : nat) (x : solution) : M unit :=
  fun s => if decide (idx < length (pop s))%nat
           then (Ok tt, mkState (<[idx := x]> (pop s)) (g_best s) (rng s))
           else (Raise IndexError, s).
(** [self.pop = l] *)
Definition assign_pop (l : list solution) : M unit :=
  fun s => (Ok tt, mkState l (g_best s) (rng s)).
Definition read_pop : M (list solution) := fun s => (Ok (pop s), s).

(** [for i in range(0, n): acc = body i acc] *)
Fixpoint for_range {B} (idxs : list nat) (body : nat -> B -> M B) (acc : B) : M B :=
  match idxs with
  | [] => mret acc
  | i :: rest => acc' ← body i acc; for_range rest body acc'
  end.

Definition range (n : nat) : list nat := seq 0 n.

(** ** Code shared verbatim by the four strategies *)

(** [2 - 2 * epoch / (self.epoch - 1)], the argument [t] being the current
    epoch. *)
Definition linear_decay (self : Optimizer) (t : Z) : M Q :=
  q ← lift_result (py_truediv (2 * t) (epoch self - 1));
  mret (2 - q).

(** [pos_new = self.amend_position(pos_new, self.problem.lb, self.problem.ub)] *)
Definition amend (self : Optimizer) (pos_new : ndarray) : M ndarray :=
  with_rng (amend_position self pos_new (lb self) (ub self)).

(** The body of [if self.mode not in self.AVAILABLE_MODES:] in a
    population loop:
      [target = self.get_target_wrapper(pos_new)]
      [self.pop[idx] = self.get_better_solution([pos_new, target], self.pop[idx])] *)
Definition evaluate_and_replace (self : Optimizer) (idx : nat) (pos_new : ndarray) : M unit :=
  let target := get_target_wrapper self pos_new in
  old ← get_pop idx;
  set_pop idx (get_better_solution self (Solution pos_new target) old).

(** The body of [if self.mode in self.AVAILABLE_MODES:] after (or, in the
    hybrids, inside) a population loop:
      [pop_new = self.update_target_wrapper_population(pop_new)]
      [self.pop = self.greedy_selection_population(self.pop, pop_new)]
    The evaluated [pop_new] is returned. *)
Definition evaluate_and_merge (self : Optimizer) (pop_new : list ndarray) : M (list solution) :=
  let pop_new' := update_target_wrapper_population self pop_new in
  old ← read_pop;
  merged ← lift_result (greedy_selection_population self old pop_new');
  assign_pop merged;;
  mret pop_new'.

(** ** BaseGWO *)
Module BaseGWO.

(** One iteration of [for idx in range(0, self.pop_size)]. *)
Definition step (self : Optimizer) (a : Q) (list_best : list solution)
    (idx : nat) (pop_new : list ndarray) : M (list ndarray) :=
  u1 ← np_random_uniform; u2 ← np_random_uniform; u3 ← np_random_uniform;
  let A1 := a * (2 * u1 - 1) in
  let A2 := a * (2 * u2 - 1) in
  let A3 := a * (2 * u3 - 1) in
  v1 ← np_random_uniform; v2 ← np_random_uniform; v3 ← np_random_uniform;
  let C1 := 2 * v1 in
  let C2 := 2 * v2 in
  let C3 := 2 * v3 in
  L0 ← getitem list_best 0; x ← get_pop idx;
  let X1 := np.sub (ID_POS L0) (np.scale A1 (np.abs (np.sub (np.scale C1 (ID_POS L0)) (ID_POS x)))) in
  L1 ← getitem list_best 1;
  let X2 := np.sub (ID_POS L1) (np.scale A2 (np.abs (np.sub (np.scale C2 (ID_POS L1)) (ID_POS x)))) in
  L2 ← getitem list_best 2;
  let X3 := np.sub (ID_POS L2) (np.scale A3 (np.abs (np.sub (np.scale C3 (ID_POS L2)) (ID_POS x)))) in
  let pos_new := np.div_scalar (np.add (np.add X1 X2) X3) 3 in
  pos_new ← amend self pos_new;
  let pop_new := pop_new ++ [pos_new] in
  (if mode_in_AVAILABLE_MODES self then mret tt
   else evaluate_and_replace self idx pos_new);;
  mret pop_new.

Definition evolve (self : Optimizer) (t : Z) : M unit :=
  a ← linear_decay self t;
  p ← read_pop;
  let list_best := get_special_solutions self p in
  pop_new ← for_range (range (pop_size self)) (step self a list_best) [];
  if mode_in_AVAILABLE_MODES self
  then evaluate_and_merge self pop_new;; mret tt
  else mret tt.

End BaseGWO.

(** ** RW_GWO *)
Module RW_GWO.

(** One iteration of [for i in range(0, len(leaders))]; the accumulator
    is the pair of the local lists [leaders] and [leaders_new]. *)
Definition walk (self : Optimizer) (a : Q) (i : nat)
    (acc : list solution * list ndarray) : M (list solution * list ndarray) :=
  let (leaders, leaders_new) := acc in
  Li ← getitem leaders i;
  z ← np_random_standard_cauchy (n_dims self);
  let pos_new := np.add (ID_POS Li) (np.scale a z) in
  pos_new ← amend self pos_new;
  let leaders_new := leaders_new ++ [pos_new] in
  if mode_in_AVAILABLE_MODES self then mret (leaders, leaders_new)
  else
    let target := get_target_wrapper self pos_new in
    Li ← getitem leaders i;
    mret (<[i := get_better_solution self (Solution pos_new target) Li]> leaders,
          leaders_new).

(** One iteration of [for idx in range(0, self.pop_size)]. *)
Definition step (self : Optimizer) (b : Q) (leaders : list solution)
    (idx : nat) (pop_new : list ndarray) : M (list ndarray) :=
  u1 ← np_random_uniform; u2 ← np_random_uniform; u3 ← np_random_uniform;
  let miu1 := b * (2 * u1 - 1) in
  let miu2 := b * (2 * u2 - 1) in
  let miu3 := b * (2 * u3 - 1) in
  v1 ← np_random_uniform; v2 ← np_random_uniform; v3 ← np_random_uniform;
  let c1 := 2 * v1 in
  let c2 := 2 * v2 in
  let c3 := 2 * v3 in
  L0 ← getitem leaders 0; g ← get_g_best; x ← get_pop idx;
  let X1 := np.sub (ID_POS L0) (np.scale miu1 (np.abs (np.sub (np.scale c1 (ID_POS g)) (ID_POS x)))) in
  L1 ← getitem leaders 1;
  let X2 := np.sub (ID_POS L1) (np.scale miu2 (np.abs (np.sub (np.scale c2 (ID_POS g)) (ID_POS x)))) in
  L2 ← getitem leaders 2;
  let X3 := np.sub (ID_POS L2) (np.scale miu3 (np.abs (np.sub (np.scale c3 (ID_POS g)) (ID_POS x)))) in
  let pos_new := np.div_scalar (np.add (np.add X1 X2) X3) 3 in
  pos_new ← amend self pos_new;
  let pop_new := pop_new ++ [pos_new] in
  (if mode_in_AVAILABLE_MODES self then mret tt
   else evaluate_and_replace self idx pos_new);;
  mret pop_new.

(** The last line:
    [self.pop = self.get_sorted_strim_population(self.pop + leaders, self.pop_size)] *)
Definition sort_and_trim (self : Optimizer) (leaders : list solution) : M unit :=
  p ← read_pop;
  assign_pop (get_sorted_strim_population self (p ++ leaders) (pop_size self)).

Definition evolve (self : Optimizer) (t : Z) : M unit :=
  b ← linear_decay self t;
  a ← linear_decay self t;
  p ← read_pop;
  let leaders := get_special_solutions self p in
  '(leaders, leaders_new) ←
      for_range (range (length leaders)) (walk self a) (leaders, []);
  leaders ← (if mode_in_AVAILABLE_MODES self
             then lift_result (greedy_selection_population self leaders
                                 (update_target_wrapper_population self leaders_new))
             else mret leaders);
  pop_new ← for_range (range (pop_size self)) (step self b leaders) [];
  (if mode_in_AVAILABLE_MODES self
   then evaluate_and_merge self pop_new;; mret tt
   else mret tt);;
  sort_and_trim self leaders.

End RW_GWO.

(** The coefficients drawn at the top of one loop iteration of the two
    hybrids ([r3] and [w] are only drawn by GWO_WOA_O). *)
Record coefficients := mkCoefficients {
  c_A : Q; c_C : Q; c_r3 : Q; c_w : Q; c_l : Q; c_p : Q;
  c_A1 : Q; c_C1 : Q; c_A2 : Q; c_C2 : Q; c_A3 : Q; c_C3 : Q
}.

(** ** GWO_WOA_M *)
Module GWO_WOA_M.

(** Lines 235-247: the draws of one iteration, in source order. *)
Definition draw (a a2 : Q) : M coefficients :=
  r1 ← np_random_rand;
  r2 ← np_random_rand;
  let A := 2 * a * r1 - a in
  let C := 2 * r2 in
  u ← np_random_rand;
  let l := (a2 - 1) + u + 1 in
  p ← np_random_rand;
  u1 ← np_random_uniform; let A1 := a * (2 * u1 - 1) in
  v1 ← np_random_uniform; let C1 := 2 * v1 in
  u2 ← np_random_uniform; let A2 := a * (2 * u2 - 1) in
  v2 ← np_random_uniform; let C2 := 2 * v2 in
  u3 ← np_random_uniform; let A3 := a * (2 * u3 - 1) in
  v3 ← np_random_uniform; let C3 := 2 * v3 in
  mret (mkCoefficients A C 0 0 l p A1 C1 A2 C2 A3 C3).

(** Lines 250-257: [pos_new] of the branch [p < 0.5]. *)
Definition whale (self : Optimizer) (k : coefficients) (idx : nat) : M ndarray :=
  if Qlt_bool (Qabs (c_A k)) 1 then
    g ← get_g_best; x ← get_pop idx;
    let D := np.abs (np.sub (np.scale (c_C k) (ID_POS g)) (ID_POS x)) in
    mret (np.sub (ID_POS g) (np.scale (c_A k) D))
  else
    x_rand ← with_rng (create_solution self (lb self) (ub self));
    x ← get_pop idx;
    let D := np.abs (np.sub (np.scale (c_C k) (ID_POS x_rand)) (ID_POS x)) in
    mret (np.sub (ID_POS x_rand) (np.scale (c_A k) D)).

(** Lines 259-270: [pos_new = (X1 + X2 + X3) / 3.0] of the branch
    [p >= 0.5], before it is amended. *)
Definition wolves (list_best : list solution) (k : coefficients) (idx : nat) : M ndarray :=
  L0 ← getitem list_best 0; x ← get_pop idx;
  let D1 := np.abs (np.sub (np.scale (c_C2 k) (ID_POS L0)) (ID_POS x)) in
  let X1 := np.sub (ID_POS L0) (np.scale (c_A1 k) D1) in
  L1 ← getitem list_best 1;
  let D2 := np.abs (np.sub (np.scale (c_C1 k) (ID_POS L1)) (ID_POS x)) in
  let X2 := np.sub (ID_POS L1) (np.scale (c_A2 k) D2) in
  L2 ← getitem list_best 2;
  let D3 := np.abs (np.sub (np.scale (c_C3 k) (ID_POS L2)) (ID_POS x)) in
  let X3 := np.sub (ID_POS L2) (np.scale (c_A3 k) D3) in
  mret (np.div_scalar (np.add (np.add X1 X2) X3) 3).

(** Lines 249-279 once the coefficients are drawn.  The batch block
    [if self.mode in self.AVAILABLE_MODES:] is indented inside the
    [for] loop, so it runs at the end of every iteration; [pop_new] is
    then rebound to the evaluated list, whose positions are kept here. *)
Definition body (self : Optimizer) (list_best : list solution) (k : coefficients)
    (idx : nat) (pop_new : list ndarray) : M (list ndarray) :=
  pop_new ← (if Qlt_bool (c_p k) (1 # 2) then
               whale self k idx;; mret pop_new
             else
               pos_new ← wolves list_best k idx;
               pos_new ← amend self pos_new;
               let pop_new := pop_new ++ [pos_new] in
               (if mode_in_AVAILABLE_MODES self then mret tt
                else evaluate_and_replace self idx pos_new);;
               mret pop_new);
  if mode_in_AVAILABLE_MODES self
  then evaluated ← evaluate_and_merge self pop_new; mret (map ID_POS evaluated)
  else mret pop_new.

Definition step (self : Optimizer) (a a2 : Q) (list_best : list solution)
    (idx : nat) (pop_new : list ndarray) : M (list ndarray) :=
  k ← draw a a2; body self list_best k idx pop_new.

Definition evolve (self : Optimizer) (t : Z) : M unit :=
  a ← linear_decay self t;
  q ← lift_result (py_truediv (-1) (epoch self));
  let a2 := -1 + inject_Z t * (q - 1) in
  p ← read_pop;
  let list_best := get_special_solutions self p in
  for_range (range (pop_size self)) (step self a a2 list_best) [];; mret tt.

End GWO_WOA_M.

(** ** GWO_WOA_O *)
Module GWO_WOA_O.

(** [a = 2 * (1 - (epoch / (2 * (self.epoch))))] *)
Definition decay (self : Optimizer) (t : Z) : M Q :=
  q ← lift_result (py_truediv t (2 * epoch self));
  mret (2 * (1 - q)).

(** Lines 337-352: the draws of one iteration, in source order. *)
Definition draw (a : Q) : M coefficients :=
  r1 ← np_random_rand;
  r2 ← np_random_rand;
  r3 ← np_random_rand;
  let A := 2 * a * r1 - a in
  let C := 2 * r2 in
  w ← np_random_rand;
  l ← np_random_uniform_in (-1) 1;
  p ← np_random_rand;
  u1 ← np_random_uniform; let A1 := a * (2 * u1 - 1) in
  v1 ← np_random_uniform; let C1 := 2 * v1 in
  u2 ← np_random_uniform; let A2 := a * (2 * u2 - 1) in
  v2 ← np_random_uniform; let C2 := 2 * v2 in
  u3 ← np_random_uniform; let A3 := a * (2 * u3 - 1) in
  v3 ← np_random_uniform; let C3 := 2 * v3 in
  mret (mkCoefficients A C r3 w l p A1 C1 A2 C2 A3 C3).

(** Lines 355-362: [pos_new] of the branch [p < 0.5]; [b = 1]. *)
Definition whale (self : Optimizer) (list_best : list solution)
    (k : coefficients) (idx : nat) : M ndarray :=
  let b := 1 in
  if Qlt_bool (Qabs (c_A k)) 1 then
    g ← get_g_best; x ← get_pop idx;
    let D := np.scale (c_r3 k) (np.abs (np.sub (np.scale (c_C k) (ID_POS g)) (ID_POS x))) in
    mret (np.sub (ID_POS g) (np.scale (c_A k) D))
  else
    x_rand ← with_rng (create_solution self (lb self) (ub self));
    L0 ← getitem list_best 0; x ← get_pop idx;
    let D := np.scale (c_w k * np_exp self (b * c_l k) * np_cos self (2 * np_pi self * c_l k))
               (np.abs (np.sub (np.scale (c_C1 k) (ID_POS L0)) (ID_POS x))) in
    mret (np.sub (ID_POS x_rand) (np.scale (c_A k) D)).

(** Lines 354-384 once the coefficients are drawn; the branch
    [p >= 0.5] and the batch block are those of GWO_WOA_M, character for
    character. *)
Definition body (self : Optimizer) (list_best : list solution) (k : coefficients)
    (idx : nat) (pop_new : list ndarray) : M (list ndarray) :=
  pop_new ← (if Qlt_bool (c_p k) (1 # 2) then
               whale self list_best k idx;; mret pop_new
             else
               pos_new ← GWO_WOA_M.wolves list_best k idx;
               pos_new ← amend self pos_new;
               let pop_new := pop_new ++ [pos_new] in
               (if mode_in_AVAILABLE_MODES self then mret tt
                else evaluate_and_replace self idx pos_new);;
               mret pop_new);
  if mode_in_AVAILABLE_MODES self
  then evaluated ← evaluate_and_merge self pop_new; mret (map ID_POS evaluated)
  else mret pop_new.

Definition step (self : Optimizer) (a : Q) (list_best : list solution)
    (idx : nat) (pop_new : list ndarray) : M (list ndarray) :=
  k ← draw a; body self list_best k idx pop_new.

Definition evolve (self : Optimizer) (t : Z) : M unit :=
  a ← decay self t;
  p ← read_pop;
  let list_best := get_special_solutions self p in
  for_range (range (pop_size self)) (step self a list_best) [];; mret tt.

End GWO_WOA_O.

(** ** Contracts of the inherited methods

    The statements the specification makes about the methods of the base
    class (its sections 4.1 to 4.5 and 6). *)

(** [fitter self x y]: fitness [x] is strictly better than fitness [y] in
    the problem's sense. *)
Definition fitter (self : Optimizer) (x y : Q) : bool :=
  if minimize self then Qlt_bool x y else Qlt_bool y x.

(** Every coordinate [x[i]] satisfies [lb[i] <= x[i] <= ub[i]]. *)
Definition in_bounds (lo hi x : ndarray) : Prop :=
  forall i xi, x !! i = Some xi ->
    exists l u, lo !! i = Some l /\ hi !! i = Some u /\ l <= xi /\ xi <= u.

Definition pop_in_bounds (self : Optimizer) (p : list solution) : Prop :=
  Forall (fun x => in_bounds (lb self) (ub self) (ID_POS x)) p.

Class Contract (self : Optimizer) : Prop := {
  (* 4.1: the leaders are the (at most) three best members of the population *)
  special_length : forall p,
    length (get_special_solutions self p) = Nat.min 3 (length p);
  special_member : forall p x,
    x ∈ get_special_solutions self p -> x ∈ p;
  (* 4.2: the repaired vector lies within the bounds *)
  amend_in_bounds : forall x r,
    in_bounds (lb self) (ub self) (amend_position self x (lb self) (ub self) r).1;
  (* 6: batch evaluation evaluates every candidate and preserves the order *)
  update_target_spec : forall l,
    update_target_wrapper_population self l =
    map (fun x => Solution x (get_target_wrapper self x)) l;
  (* 6: the fitter of the two; 8: the first argument on an exact tie *)
  better_spec : forall x y,
    get_better_solution self x y =
    if fitter self (ID_TAR y) (ID_TAR x) then y else x;
  (* 4.4: positional merge of two populations of the same size *)
  greedy_same_length : forall old new,
    length old = length new ->
    greedy_selection_population self old new =
    Ok (zip_with (get_better_solution self) old new);
  greedy_length : forall old new merged,
    greedy_selection_population self old new = Ok merged ->
    length merged = length old;
  greedy_member : forall old new merged x,
    greedy_selection_population self old new = Ok merged ->
    x ∈ merged -> x ∈ old \/ x ∈ new;
  (* 4.5: the best [size] members of the combined set *)
  strim_length : forall l size,
    length (get_sorted_strim_population self l size) = Nat.min size (length l);
  strim_member : forall l size x,
    x ∈ get_sorted_strim_population self l size -> x ∈ l
}.

(** The positional merge is only defined on two populations of the same
    size; the base class rejects any other call by raising. *)
Definition rejects_mismatch (self : Optimizer) : Prop :=
  forall old new, length old <> length new ->
    exists e, greedy_selection_population self old new = Raise e.

(** ** A reference implementation of the inherited methods *)
Module Reference.

(** Modelled from the spec: [get_better_solution] of the base class
    (6, 8): the fitter of the two, the first argument on an exact tie. *)
Definition get_better_solution (minimize : bool) (x y : solution) : solution :=
  if (if minimize then Qlt_bool (ID_TAR y) (ID_TAR x) else Qlt_bool (ID_TAR x) (ID_TAR y))
  then y else x.

(** Modelled from the spec: [greedy_selection_population] of the base
    class (4.4): slot by slot between the old and the new population,
    the incumbent kept on a tie; populations of different sizes are
    rejected. *)
Definition greedy_selection_population (minimize : bool)
    (old new : list solution) : result (list solution) :=
  if decide (length old = length new)
  then Ok (zip_with (get_better_solution minimize) old new)
  else Raise ValueError.

(** Stable insertion sort by fitness, best first. *)
Fixpoint insert_sorted (minimize : bool) (x : solution) (l : list solution) : list solution :=
  match l with
  | [] => [x]
  | y :: l' =>
      if (if minimize then Qlt_bool (ID_TAR x) (ID_TAR y) else Qlt_bool (ID_TAR y) (ID_TAR x))
      then x :: y :: l'
      else y :: insert_sorted minimize x l'
  end.

Definition sorted (minimize : bool) (l : list solution) : list solution :=
  foldr (fun x acc => insert_sorted minimize x acc) [] (reverse l).

(** Modelled from the spec: [get_special_solutions] (4.1), its
    [best=3] component. *)
Definition get_special_solutions (minimize : bool) (p : list solution) : list solution :=
  take 3 (sorted minimize p).

(** Modelled from the spec: [get_sorted_strim_population] (4.5). *)
Definition get_sorted_strim_population (minimize : bool)
    (l : list solution) (size : nat) : list solution :=
  take size (sorted minimize l).

(** Modelled from the spec: [amend_position] (4.2): a coordinate within
    its bounds is kept, any other is redrawn uniformly from
    [[lb[i], ub[i]]]. *)
Fixpoint amend_position (x lo hi : ndarray) (r : RandomState) : ndarray * RandomState :=
  match x, lo, hi with
  | xi :: x', l :: lo', h :: hi' =>
      if Qle_bool l xi && Qle_bool xi h
      then let (rest, r') := amend_position x' lo' hi' r in (xi :: rest, r')
      else let (u, r1) := random_sample r in
           let (rest, r') := amend_position x' lo' hi' r1 in
           (l + (h - l) * u :: rest, r')
  | _, _, _ => ([], r)
  end.

Fixpoint uniform_position (lo hi : ndarray) (r : RandomState) : ndarray * RandomState :=
  match lo, hi with
  | l :: lo', h :: hi' =>
      let (u, r1) := random_sample r in
      let (rest, r') := uniform_position lo' hi' r1 in
      (l + (h - l) * u :: rest, r')
  | _, _ => ([], r)
  end.

(** Modelled from the spec: [create_solution] (6): a uniform-random
    solution within the bounds. *)
Definition create_solution (fit_func : ndarray -> Q) (lo hi : ndarray)
    (r : RandomState) : solution * RandomState :=
  let (x, r') := uniform_position lo hi r in (Solution x (fit_func x), r').

(** The objective of the examples in the docstrings: [np.sum(solution**2)]. *)
Definition sum_of_squares (x : ndarray) : Q := foldr (fun xi acc => xi * xi + acc) 0 x.

(** Polynomial stand-ins for [np.exp], [np.cos] and [np.pi]. *)
Definition exp_approx (x : Q) : Q := 1 + x + x * x / 2.
Definition cos_approx (x : Q) : Q := 1 - x * x / 2.
Definition pi_approx : Q := 355 # 113.

Definition make (T : Z) (size : nat) (lo hi : ndarray) (batch minimize : bool)
    (fit_func : ndarray -> Q) : Optimizer :=
  mkOptimizer T size lo hi (length lo) batch minimize
    exp_approx cos_approx pi_approx
    (get_special_solutions minimize)
    amend_position
    (create_solution fit_func)
    fit_func
    (map (fun x => Solution x (fit_func x)))
    (greedy_selection_population minimize)
    (get_sorted_strim_population minimize)
    (get_better_solution minimize).

End Reference.

(** ** Reasoning about computations

    [maintains I m Q]: started in a state satisfying the invariant [I],
    the computation [m] ends in a state satisfying [I], whether it returns
    or raises, and a returned value satisfies [Q]. *)
Definition maintains {A} (I : State -> Prop) (m : M A) (Q : A -> Prop) : Prop :=
  forall s, I s ->
    match m s with
    | (Ok a, s') => I s' /\ Q a
    | (Raise _, s') => I s'
    end.

(** The invariant does not read the random generator. *)
Definition rng_blind (I : State -> Prop) : Prop :=
  forall p g r r', I (mkState p g r) -> I (mkState p g r').

(** The invariants of the claims, as predicates on the state. *)
Definition has_size (n : nat) (s : State) : Prop := length (pop s) = n.
Definition g_best_is (g : solution) (s : State) : Prop := g_best s = g.
Definition bounded (self : Optimizer) (x : ndarray) : Prop :=
  in_bounds (lb self) (ub self) x.
Definition bounds_hold (self : Optimizer) (s : State) : Prop :=
  pop_in_bounds self (pop s).

Definition pop_is (p : list solution) (s : State) : Prop := pop s = p.

(** ** The update rules as the specification words them

    Sections 4.6 to 4.9 describe every strategy through one formula,
    [X = L - A * |C * Y - x|] (the position [L] the step starts from, the
    attractor [Y] inside the distance term, the candidate [x]), and its
    mean over three leaders; sections 4.1 to 4.5 give the ranking, the
    repair, the two evaluation modes and the replacement rule.  The
    definitions of this module follow that wording; the theorems compare
    them with the code. *)
Module Spec.

Definition encircle (L : ndarray) (A C : Q) (Y x : ndarray) : ndarray :=
  np.sub L (np.scale A (np.abs (np.sub (np.scale C Y) x))).

Definition mean3 (X1 X2 X3 : ndarray) : ndarray :=
  np.div_scalar (np.add (np.add X1 X2) X3) 3.

(** [a = 2 - 2*t/(T-1)], for [T > 1]. *)
Definition linear_decay (t T : Z) : Q := 2 - 2 * inject_Z t / inject_Z (T - 1).

(** 4.1 and 4.5: the members ranked by fitness, best first in the
    problem's sense; of two members of equal fitness the one that comes
    first in the input stays first. *)
Fixpoint insert_ranked (self : Optimizer) (x : solution) (l : list solution)
    : list solution :=
  match l with
  | [] => [x]
  | y :: l' =>
      if fitter self (ID_TAR x) (ID_TAR y) then x :: y :: l'
      else y :: insert_ranked self x l'
  end.

Definition ranked (self : Optimizer) (l : list solution) : list solution :=
  foldl (fun acc x => insert_ranked self x acc) [] l.

(** The [k] best members of [l]. *)
Definition best (self : Optimizer) (k : nat) (l : list solution) : list solution :=
  take k (ranked self l).

(** 6: a freshly evaluated candidate. *)
Definition evaluate (self : Optimizer) (pos : ndarray) : solution :=
  Solution pos (get_target_wrapper self pos).

(** A replacement rule gives the member left in a slot from its incumbent
    and a candidate. *)
Definition rule := solution -> solution -> solution.

(** 4.4 at one slot: the candidate replaces the incumbent only when it is
    strictly fitter; on an exact tie the incumbent is kept. *)
Definition select (self : Optimizer) : rule :=
  fun old cand => if fitter self (ID_TAR cand) (ID_TAR old) then cand else old.

(** 4.2: the repair of a position against the bounds of the problem. *)
Definition repair (self : Optimizer) (pos : ndarray) (r : RandomState)
    : ndarray * RandomState :=
  amend_position self pos (lb self) (ub self) r.

(** Three independent uniform draws. *)
Definition uniform3 (r : RandomState) : Q * Q * Q * RandomState :=
  let (U1, r1) := random_sample r in
  let (U2, r2) := random_sample r1 in
  let (U3, r3) := random_sample r2 in
  (U1, U2, U3, r3).

(** The repaired position a strategy proposes for a member. *)
Definition generator := solution -> RandomState -> ndarray * RandomState.

(** 4.3, incremental mode: the candidate of a slot is generated from the
    member the slot holds, evaluated at once, and the slot is replaced in
    place before the next candidate is generated. *)
Definition incremental_slot (self : Optimizer) (choose : rule) (candidate : generator)
    (acc : list solution * RandomState) (idx : nat) : list solution * RandomState :=
  match acc.1 !! idx with
  | Some x =>
      let (pos, r') := candidate x acc.2 in
      (<[idx := choose x (evaluate self pos)]> acc.1, r')
  | None => acc
  end.

Definition incremental (self : Optimizer) (choose : rule) (candidate : generator)
    (l : list solution) (r : RandomState) : list solution * RandomState :=
  foldl (incremental_slot self choose candidate) (l, r) (seq 0 (length l)).

(** 4.3, batch mode: all the candidates are generated first, from the
    members as they are before the epoch; they are then evaluated, and
    merged slot by slot (4.4). *)
Fixpoint generate (candidate : generator) (l : list solution) (r : RandomState)
    : list ndarray * RandomState :=
  match l with
  | [] => ([], r)
  | x :: l' =>
      let (pos, r1) := candidate x r in
      let (rest, r2) := generate candidate l' r1 in
      (pos :: rest, r2)
  end.

Definition batch (self : Optimizer) (choose : rule) (candidate : generator)
    (l : list solution) (r : RandomState) : list solution * RandomState :=
  let (cands, r') := generate candidate l r in
  (zip_with choose l (map (evaluate self) cands), r').

Definition per_mode (self : Optimizer) (choose : rule) (candidate : generator)
    (l : list solution) (r : RandomState) : list solution * RandomState :=
  if mode_in_AVAILABLE_MODES self then batch self choose candidate l r
  else incremental self choose candidate l r.

(** 4.6: the candidate for the member [x] is the repaired mean of
    [X_i = L_i - A_i * |C_i * L_i - x|] over the three leaders, with
    [A_i = a*(2*U-1)] and [C_i = 2*U] from independent uniform draws. *)
Definition BaseGWO_candidate (self : Optimizer) (a : Q) (L1 L2 L3 : solution)
    : generator :=
  fun x r =>
    let '(U1, U2, U3, r1) := uniform3 r in
    let '(V1, V2, V3, r2) := uniform3 r1 in
    let X (L : solution) (U V : Q) :=
      encircle (ID_POS L) (a * (2 * U - 1)) (2 * V) (ID_POS L) (ID_POS x) in
    repair self (mean3 (X L1 U1 V1) (X L2 U2 V2) (X L3 U3 V3)) r2.

(** 4.6, one epoch under a replacement rule: [a = 2 - 2*t/(T-1)], the
    leaders are the three best members of the population as it is before
    the epoch, and every member is updated per the evaluation mode. *)
Definition BaseGWO_epoch_under (choose : rule) (self : Optimizer) (t : Z) (s : State)
    : State :=
  let a := linear_decay t (epoch self) in
  match best self 3 (pop s) with
  | [L1; L2; L3] =>
      let (updated, r') :=
        per_mode self choose (BaseGWO_candidate self a L1 L2 L3) (pop s) (rng s) in
      mkState updated (g_best s) r'
  | _ => s
  end.

(** 4.6 with the replacement rule of 4.4. *)
Definition BaseGWO_epoch (self : Optimizer) : Z -> State -> State :=
  BaseGWO_epoch_under (select self) self.

(** 4.7, phase 1: a leader takes the step [a * z], [z] a vector of
    [n_dims] independent standard Cauchy draws; the step is repaired. *)
Definition RW_GWO_walk (self : Optimizer) (a : Q) : generator :=
  fun L r =>
    let (z, r1) := cauchy_samples (n_dims self) r in
    repair self (np.add (ID_POS L) (np.scale a z)) r1.

(** 4.7, phase 2: the candidate for the member [x] is the repaired mean
    of [X_i = leader_i - mu_i * |c_i * g_best - x|] over the refreshed
    leaders. *)
Definition RW_GWO_candidate (self : Optimizer) (b : Q) (R1 R2 R3 g : solution)
    : generator :=
  fun x r =>
    let '(U1, U2, U3, r1) := uniform3 r in
    let '(V1, V2, V3, r2) := uniform3 r1 in
    let X (R : solution) (U V : Q) :=
      encircle (ID_POS R) (b * (2 * U - 1)) (2 * V) (ID_POS g) (ID_POS x) in
    repair self (mean3 (X R1 U1 V1) (X R2 U2 V2) (X R3 U3 V3)) r2.

(** 4.7, one epoch under a replacement rule: (1) the three best members
    are refreshed by a random walk, greedily merged into the leader set;
    (2) every member is updated from the refreshed leaders and the global
    best, per the evaluation mode; (3) the population becomes the best
    [pop_size] members of the updated population together with the
    refreshed leaders. *)
Definition RW_GWO_epoch_under (choose : rule) (self : Optimizer) (t : Z) (s : State)
    : State :=
  let a := linear_decay t (epoch self) in
  let b := linear_decay t (epoch self) in
  let (refreshed, r1) :=
    per_mode self choose (RW_GWO_walk self a) (best self 3 (pop s)) (rng s) in
  match refreshed with
  | [R1; R2; R3] =>
      let (updated, r2) :=
        per_mode self choose (RW_GWO_candidate self b R1 R2 R3 (g_best s)) (pop s) r1 in
      mkState (best self (pop_size self) (updated ++ refreshed)) (g_best s) r2
  | _ => s
  end.

(** 4.7 with the replacement rule of 4.4. *)
Definition RW_GWO_epoch (self : Optimizer) : Z -> State -> State :=
  RW_GWO_epoch_under (select self) self.

(** Equality of two float arrays as values. *)
Definition array_eq (u v : ndarray) : Prop := Forall2 Qeq u v.

Fixpoint array_eqb (u v : ndarray) : bool :=
  match u, v with
  | [], [] => true
  | x :: u', y :: v' => Qeq_bool x y && array_eqb u' v'
  | _, _ => false
  end.

(** 4.8, [p >= 0.5]: "the 3-leader GWO exploitation average of 4.6's
    [X_i] formula", every pair [(A_i, C_i)] with its leader [L_i]. *)
Definition three_leader_average (L1 L2 L3 : solution) (k : coefficients)
    (x : solution) : ndarray :=
  let X (L : solution) (A C : Q) := encircle (ID_POS L) A C (ID_POS L) (ID_POS x) in
  mean3 (X L1 (c_A1 k) (c_C1 k)) (X L2 (c_A2 k) (c_C2 k)) (X L3 (c_A3 k) (c_C3 k)).

(** 4.9: [a = 2*(1 - t/(2T))]. *)
Definition GWO_WOA_O_decay (t T : Z) : Q := 2 * (1 - inject_Z t / (2 * inject_Z T)).

(** 4.9 (a): [g_best - A * r3 * |C * g_best - x|]. *)
Definition GWO_WOA_O_encircle (g : ndarray) (A r3 C : Q) (x : ndarray) : ndarray :=
  np.sub g (np.scale (A * r3) (np.abs (np.sub (np.scale C g) x))).

(** 4.9 (b): [x_rand - A * (w * exp(b*l) * cos(2*pi*l)) * |C1 * L1 - x|]. *)
Definition GWO_WOA_O_spiral (self : Optimizer) (x_rand : ndarray) (A w b l C1 : Q)
    (L1 x : ndarray) : ndarray :=
  np.sub x_rand
    (np.scale (A * (w * np_exp self (b * l) * np_cos self (2 * np_pi self * l)))
       (np.abs (np.sub (np.scale C1 L1) x))).

(** 4.9 with 4.8: the coefficients of one iteration from twelve uniform
    samples [U 0 .. U 11]: [A = 2*a*r1 - a], [C = 2*r2], the factors
    [r3] and [w], the spiral parameter [l] uniform in [[-1, 1)], the
    branch draw [p], and the three pairs [A_i = a*(2*U-1)], [C_i = 2*U]. *)
Definition GWO_WOA_O_coefficients (a : Q) (U : nat -> Q) : coefficients :=
  mkCoefficients
    (2 * a * U 0%nat - a) (2 * U 1%nat) (U 2%nat) (U 3%nat)
    (-1 + (1 - -1) * U 4%nat) (U 5%nat)
    (a * (2 * U 6%nat - 1)) (2 * U 7%nat)
    (a * (2 * U 8%nat - 1)) (2 * U 9%nat)
    (a * (2 * U 10%nat - 1)) (2 * U 11%nat).

(** The claim "a slot is replaced only when its new member is strictly
    better than its old one", between two populations. *)
Definition replaced_only_if_strictly_better (self : Optimizer)
    (before after : list solution) : Prop :=
  forall idx old new,
    before !! idx = Some old -> after !! idx = Some new -> new <> old ->
    fitter self (ID_TAR new) (ID_TAR old) = true.

End Spec.

(** ** Ranking

    The contracts above give the leaders and the truncated population
    their sizes and their members.  The two statements below are the rest
    of 4.1 and 4.5: which members they are, and in which order. *)

(** 4.1: the leaders are the three best-ranked members of the population,
    ties broken by the original index. *)
Definition ranks_leaders (self : Optimizer) : Prop :=
  forall p, get_special_solutions self p = Spec.best self 3 p.

(** 4.5: the truncation keeps the best [size] members, sorted, with the
    tie-break of 4.1. *)
Definition truncates_to_best (self : Optimizer) : Prop :=
  forall l size, get_sorted_strim_population self l size = Spec.best self size l.

(** [best_first self l]: no member of [l] is strictly fitter than a
    member placed before it. *)
Definition best_first (self : Optimizer) (l : list solution) : Prop :=
  StronglySorted (fun x y => fitter self (ID_TAR y) (ID_TAR x) = false) l.

(** ** The call sites of the two modes *)

(** The replacement rule of the incremental call sites,
    [self.get_better_solution([pos_new, target], self.pop[idx])]: the
    candidate is the first argument, the incumbent the second. *)
Definition candidate_first (self : Optimizer) : Spec.rule :=
  fun old cand => get_better_solution self cand old.

(** The member this call leaves in the slot under the contract "the
    fitter of the two, the first argument on a tie": the incumbent when
    it is strictly fitter than the candidate, the candidate otherwise. *)
Definition slot_after (self : Optimizer) (pos_new : ndarray) (incumbent : solution)
    : solution :=
  let candidate := Solution pos_new (get_target_wrapper self pos_new) in
  if fitter self (ID_TAR incumbent) (ID_TAR candidate) then incumbent else candidate.

(** An iteration [step] of a population loop proposes for the member of
    its slot the position [cand] generates: it appends the position to
    [pop_new] and, in incremental mode, leaves in the slot what the call
    site selects between the member and the evaluated position. *)
Definition implements (self : Optimizer) (g : solution)
    (step : nat -> list ndarray -> M (list ndarray)) (cand : Spec.generator) : Prop :=
  forall idx pop_new s x,
    g_best s = g ->
    pop s !! idx = Some x ->
    step idx pop_new s =
    (Ok (pop_new ++ [(cand x (rng s)).1]),
     mkState (if mode_in_AVAILABLE_MODES self then pop s
              else <[idx := candidate_first self x (Spec.evaluate self (cand x (rng s)).1)]> (pop s))
             g (cand x (rng s)).2).

(** The [i]-th uniform sample drawn from the generator [r]. *)
Definition uniform_at (r : RandomState) (i : nat) : Q :=
  (random_sample (Nat.iter i advance r)).1.

(** ** A concrete run

    The problem of the docstrings restricted to its first two dimensions,
    ten wolves, and a generator whose uniform draws cycle through the
    eighths. *)
Module Demo.

Definition lo : ndarray := [-10; -15].
Definition hi : ndarray := [10; 15].

Definition optimizer (T : Z) (batch : bool) : Optimizer :=
  Reference.make T 10 lo hi batch true Reference.sum_of_squares.

Definition wolf (x y : Z) : solution :=
  let pos := [inject_Z x; inject_Z y] in
  Solution pos (Reference.sum_of_squares pos).

Definition wolves : list solution :=
  [wolf 1 2; wolf (-3) 4; wolf 5 (-6); wolf 0 1; wolf 2 2;
   wolf (-1) (-1); wolf 7 3; wolf (-8) 9; wolf 4 0; wolf 6 (-2)].

Definition generator_from (c : nat) : RandomState :=
  mkRandomState
    (fun n => (1125899906842624 * Z.of_nat ((3 * n + 1) mod 8))%Z)
    (fun n => inject_Z (Z.of_nat n) - 2)
    c.

Definition state_from (c : nat) : State :=
  mkState wolves (wolf 0 1) (generator_from c).

Definition state : State := state_from 0.

(** A flat objective: every fitness is 0, every comparison a tie. *)
Definition flat_optimizer : Optimizer :=
  Reference.make 10 10 lo hi false true (fun _ => 0).

Definition flat_state : State :=
  mkState (map (fun w => Solution (ID_POS w) 0) wolves)
          (Solution [0; 1] 0) (generator_from 0).

(** The same objective, to be maximised. *)
Definition flat_max_optimizer (batch : bool) : Optimizer :=
  Reference.make 10 10 lo hi batch false (fun _ => 0).

End Demo.

(** ** Normal termination

    [completes I m Q]: started in a state satisfying [I], the computation
    [m] raises nothing: it returns a value satisfying [Q] in a state
    satisfying [I]. *)
Definition completes {A} (I : State -> Prop) (m : M A) (Q : A -> Prop) : Prop :=
  forall s, I s -> exists a s', m s = (Ok a, s') /\ I s' /\ Q a.

(** ** Predicates on the members of the population *)

(** Every member of the population satisfies [P]. *)
Definition every_member (P : solution -> Prop) (s : State) : Prop :=
  Forall P (pop s).

(** The target stored with a solution is the objective at its position. *)
Definition evaluated_at (self : Optimizer) (x : solution) : Prop :=
  ID_TAR x = get_target_wrapper self (ID_POS x).

(** [x] is a candidate of the epoch: a position within the bounds
    together with the objective evaluated at it. *)
Definition candidate_of (self : Optimizer) (x : solution) : Prop :=
  exists pos, bounded self pos /\ x = Solution pos (get_target_wrapper self pos).
(** ** Non-regression *)

(** [old] is not strictly fitter than [new]. *)
Definition not_worse (self : Optimizer) (old new : solution) : Prop :=
  fitter self (ID_TAR old) (ID_TAR new) = false.

(** Slot by slot, the population [after] is not worse than [before]. *)
Definition slotwise_not_worse (self : Optimizer) (before after : list solution) : Prop :=
  length after = length before /\
  forall idx old new,
    before !! idx = Some old -> after !! idx = Some new -> not_worse self old new.

Definition improves_on (self : Optimizer) (before : list solution) (s : State) : Prop :=
  slotwise_not_worse self before (pop s).
(** The population and the global best are [p] and [g]. *)
Definition frozen (p : list solution) (g : solution) (s : State) : Prop :=
  pop s = p /\ g_best s = g.
(** ** Construction

    The four [__init__] methods: [self.epoch] and [self.pop_size] are what
    [self.validator.check_int] returns for the arguments (defaults 10000
    and 100); [self.nfe_per_epoch] is the announced number of evaluations
    of one epoch.  The validator belongs to the base class and is a
    parameter. *)
Record attributes := mkAttributes {
  attr_epoch : Z;            (* self.epoch *)
  attr_pop_size : Z;         (* self.pop_size *)
  nfe_per_epoch : Z;         (* self.nfe_per_epoch *)
  sort_flag : bool           (* self.sort_flag *)
}.

Definition validator := string -> Z -> Z -> Z -> result Z.

Module Init.

(** The body shared by the four constructors, the announced number of
    evaluations being [pop_size + extra]. *)
Definition construct (check_int : validator) (extra : Z)
    (epoch pop_size : option Z) : result attributes :=
  let epoch := default 10000%Z epoch in
  let pop_size := default 100%Z pop_size in
  match check_int "epoch" epoch 1%Z 100000%Z with
  | Raise e => Raise e
  | Ok epoch =>
      match check_int "pop_size" pop_size 10%Z 10000%Z with
      | Raise e => Raise e
      | Ok pop_size => Ok (mkAttributes epoch pop_size (pop_size + extra)%Z false)
      end
  end.

(** [BaseGWO.__init__], [GWO_WOA_M.__init__], [GWO_WOA_O.__init__]:
    [self.nfe_per_epoch = self.pop_size]. *)
Definition BaseGWO (check_int : validator) := construct check_int 0.
Definition GWO_WOA_M (check_int : validator) := construct check_int 0.
Definition GWO_WOA_O (check_int : validator) := construct check_int 0.
(** [RW_GWO.__init__]: [self.nfe_per_epoch = self.pop_size + 3]. *)
Definition RW_GWO (check_int : validator) := construct check_int 3.

End Init.

(** The validator returns the value it is given when it lies in the
    closed range, and raises otherwise. *)
Definition validates (check_int : validator) : Prop :=
  forall name v lo hi,
    ((lo <= v <= hi)%Z -> check_int name v lo hi = Ok v) /\
    (~ (lo <= v <= hi)%Z -> exists e, check_int name v lo hi = Raise e).

(** The optimizer object carries the attributes set by the constructor. *)
Definition built_with (at_ : attributes) (self : Optimizer) : Prop :=
  epoch self = attr_epoch at_ /\ Z.of_nat (pop_size self) = attr_pop_size at_.

(** A validator as the base class has it: the value when in range,
    [ValueError] otherwise. *)
Definition reference_check_int : validator :=
  fun _ v lo hi => if ((lo <=? v) && (v <=? hi))%Z then Ok v else Raise ValueError.

(** * Properties *)

Section Maintains.
Context (I : State -> Prop).

Lemma maintains_ret {A} (a : A) (Q : A -> Prop) : Q a -> maintains I (mret a) Q.
Proof. intros Ha s Hs. simpl. auto. Qed.

Lemma maintains_raise {A} (e : exn) (Q : A -> Prop) : maintains I (raise e) Q.
Proof. intros s Hs. exact Hs. Qed.

Lemma maintains_bind {A B} (m : M A) (k : A -> M B) (P : A -> Prop) (Q : B -> Prop) :
  maintains I m P ->
  (forall a, P a -> maintains I (k a) Q) ->
  maintains I (m ≫= k) Q.
Proof.
  intros Hm Hk s Hs. unfold mbind, M_bind, bind.
  specialize (Hm s Hs). destruct (m s) as [[a|e] s1].
  - destruct Hm as [H1 Ha]. exact (Hk a Ha s1 H1).
  - exact Hm.
Qed.

Lemma maintains_weaken {A} (m : M A) (P Q : A -> Prop) :
  maintains I m P -> (forall a, P a -> Q a) -> maintains I m Q.
Proof.
  intros Hm HPQ s Hs. specialize (Hm s Hs).
  destruct (m s) as [[a|e] s1]; [destruct Hm; auto | exact Hm].
Qed.

Lemma maintains_lift_result {A} (r : result A) (Q : A -> Prop) :
  (forall a, r = Ok a -> Q a) -> maintains I (lift_result r) Q.
Proof. intros H s Hs. unfold lift_result. destruct r; auto. Qed.

Lemma maintains_with_rng {A} (f : RandomState -> A * RandomState) (Q : A -> Prop) :
  rng_blind I -> (forall r, Q (f r).1) -> maintains I (with_rng f) Q.
Proof.
  intros Hb HQ s Hs. unfold with_rng. specialize (HQ (rng s)).
  destruct (f (rng s)) as [a r']. split; [| exact HQ].
  destruct s as [p g r]. simpl. eapply Hb, Hs.
Qed.

Lemma maintains_getitem {A} (l : list A) (i : nat) (Q : A -> Prop) :
  (forall x, l !! i = Some x -> Q x) -> maintains I (getitem l i) Q.
Proof.
  intros H s Hs. unfold getitem. destruct (l !! i); simpl; auto.
Qed.

Lemma maintains_get_pop (idx : nat) (Q : solution -> Prop) :
  (forall s x, I s -> pop s !! idx = Some x -> Q x) -> maintains I (get_pop idx) Q.
Proof.
  intros H s Hs. unfold get_pop, getitem.
  destruct (pop s !! idx) eqn:E; simpl; eauto.
Qed.

Lemma maintains_read_pop (Q : list solution -> Prop) :
  (forall s, I s -> Q (pop s)) -> maintains I read_pop Q.
Proof. intros H s Hs. simpl. auto. Qed.

Lemma maintains_get_g_best (Q : solution -> Prop) :
  (forall s, I s -> Q (g_best s)) -> maintains I get_g_best Q.
Proof. intros H s Hs. simpl. auto. Qed.

Lemma maintains_set_pop (idx : nat) (x : solution) :
  (forall s, I s -> (idx < length (pop s))%nat ->
     I (mkState (<[idx := x]> (pop s)) (g_best s) (rng s))) ->
  maintains I (set_pop idx x) (fun _ => True).
Proof.
  intros H s Hs. unfold set_pop. destruct (decide _); simpl; auto.
Qed.

Lemma maintains_assign_pop (l : list solution) :
  (forall s, I s -> I (mkState l (g_best s) (rng s))) ->
  maintains I (assign_pop l) (fun _ => True).
Proof. intros H s Hs. simpl. auto. Qed.

Lemma maintains_for_range {B} (idxs : list nat) (body : nat -> B -> M B)
    (P : B -> Prop) (acc : B) :
  (forall i b, P b -> maintains I (body i b) P) ->
  P acc -> maintains I (for_range idxs body acc) P.
Proof.
  intros Hbody. revert acc.
  induction idxs as [|i rest IH]; intros acc Hacc; simpl.
  - apply maintains_ret, Hacc.
  - eapply maintains_bind; [apply Hbody, Hacc | intros b Hb; apply IH, Hb].
Qed.

Lemma maintains_if {A} (c : bool) (m1 m2 : M A) (Q : A -> Prop) :
  maintains I m1 Q -> maintains I m2 Q -> maintains I (if c then m1 else m2) Q.
Proof. destruct c; auto. Qed.

End Maintains.

(** Decompose a computation built from the primitives when nothing is
    asked of the returned values. *)
Ltac frame_with blind writes :=
  repeat first
    [ writes
    | match goal with
      | |- maintains _ (if _ then _ else _) _ => apply maintains_if
      | |- maintains _ (let (_, _) := ?x in _) _ => destruct x
      | |- maintains _ (mbind _ _) _ =>
          apply maintains_bind with (P := fun _ => True); [| intros ? _]
      | |- maintains _ (mret _) _ => apply maintains_ret; exact Logic.I
      | |- maintains _ (raise _) _ => apply maintains_raise
      | |- maintains _ (lift_result _) _ =>
          apply maintains_lift_result; intros; exact Logic.I
      | |- maintains _ (with_rng _) _ =>
          apply maintains_with_rng; [apply blind | intros; exact Logic.I]
      | |- maintains _ (getitem _ _) _ =>
          apply maintains_getitem; intros; exact Logic.I
      | |- maintains _ (get_pop _) _ =>
          apply maintains_get_pop; intros; exact Logic.I
      | |- maintains _ read_pop _ =>
          apply maintains_read_pop; intros; exact Logic.I
      | |- maintains _ get_g_best _ =>
          apply maintains_get_g_best; intros; exact Logic.I
      | |- maintains _ (for_range _ _ _) _ =>
          apply maintains_for_range; [intros ? ? _ | exact Logic.I]
      end ].

(** *** Invariants of the four [evolve] methods

    An invariant that ignores the random generator and is kept by the
    three places where a strategy writes [self.pop] is kept by every
    [evolve], on normal and on exceptional exit. *)
Section WritesToPop.
Context (self : Optimizer) (I : State -> Prop).
Hypothesis blind : rng_blind I.
Hypothesis replace_ok : forall idx pos_new,
  maintains I (evaluate_and_replace self idx pos_new) (fun _ => True).
Hypothesis merge_ok : forall pop_new,
  maintains I (evaluate_and_merge self pop_new) (fun _ => True).
Hypothesis strim_ok : forall leaders,
  maintains I (RW_GWO.sort_and_trim self leaders) (fun _ => True).

Ltac frame :=
  frame_with blind
    ltac:(idtac; match goal with
          | |- maintains _ (evaluate_and_replace _ _ _) _ => apply replace_ok
          | |- maintains _ (evaluate_and_merge _ _) _ => apply merge_ok
          | |- maintains _ (RW_GWO.sort_and_trim _ _) _ => apply strim_ok
          end).

Lemma BaseGWO_maintains t : maintains I (BaseGWO.evolve self t) (fun _ => True).
Proof.
  unfold BaseGWO.evolve, BaseGWO.step, linear_decay, amend, np_random_uniform.
  frame.
Qed.

Lemma RW_GWO_maintains t : maintains I (RW_GWO.evolve self t) (fun _ => True).
Proof.
  unfold RW_GWO.evolve, RW_GWO.step, RW_GWO.walk, linear_decay, amend,
    np_random_uniform, np_random_standard_cauchy.
  frame.
Qed.

Lemma GWO_WOA_M_maintains t : maintains I (GWO_WOA_M.evolve self t) (fun _ => True).
Proof.
  unfold GWO_WOA_M.evolve, GWO_WOA_M.step, GWO_WOA_M.body, GWO_WOA_M.draw,
    GWO_WOA_M.whale, GWO_WOA_M.wolves, linear_decay, amend,
    np_random_uniform, np_random_rand.
  frame.
Qed.

Lemma GWO_WOA_O_maintains t : maintains I (GWO_WOA_O.evolve self t) (fun _ => True).
Proof.
  unfold GWO_WOA_O.evolve, GWO_WOA_O.step, GWO_WOA_O.body, GWO_WOA_O.draw,
    GWO_WOA_O.whale, GWO_WOA_M.wolves, GWO_WOA_O.decay, amend,
    np_random_uniform, np_random_rand, np_random_uniform_in.
  frame.
Qed.

End WritesToPop.

Lemma maintains_final {A} (I : State -> Prop) (m : M A) (Q : A -> Prop) (s : State) :
  maintains I m Q -> I s -> I (m s).2.
Proof.
  intros Hm Hs. specialize (Hm s Hs).
  destruct (m s) as [[a|e] s']; simpl; [exact (proj1 Hm) | exact Hm].
Qed.

(** *** The reference implementation meets the contracts *)

Lemma random_sample_unit_interval r :
  0 <= (random_sample r).1 /\ (random_sample r).1 <= 1.
Proof.
  unfold random_sample; simpl.
  pose proof (Z.mod_pos_bound (bits r (cursor r)) two53 eq_refl) as [H0 H1].
  set (z := (bits r (cursor r) mod two53)%Z) in *.
  unfold Qle, Qdiv, Qmult, Qinv, inject_Z, two53 in *; simpl. lia.
Qed.

Lemma uniform_in_interval (l h u : Q) :
  l <= h -> 0 <= u -> u <= 1 -> l <= l + (h - l) * u /\ l + (h - l) * u <= h.
Proof. intros. split; nra. Qed.

Lemma in_bounds_nil lo hi : in_bounds lo hi [].
Proof. intros [|i] xi H; discriminate. Qed.

Lemma in_bounds_cons l h lo hi xi x :
  l <= xi -> xi <= h -> in_bounds lo hi x -> in_bounds (l :: lo) (h :: hi) (xi :: x).
Proof.
  intros Hl Hh Hx [|i] y Hy; simpl in *.
  - inversion Hy; subst. exists l, h. auto.
  - apply Hx, Hy.
Qed.

Lemma reference_amend_in_bounds lo hi :
  Forall2 Qle lo hi ->
  forall x r, in_bounds lo hi (Reference.amend_position x lo hi r).1.
Proof.
  induction 1 as [|l h lo hi Hlh Hrest IH]; intros x r.
  - destruct x; simpl; apply in_bounds_nil.
  - destruct x as [|xi x]; cbn [Reference.amend_position]; [apply in_bounds_nil |].
    destruct (Qle_bool l xi && Qle_bool xi h) eqn:E.
    + specialize (IH x r).
      destruct (Reference.amend_position x lo hi r) as [rest r']. simpl in *.
      apply andb_prop in E as [E1 E2].
      apply in_bounds_cons; [apply Qle_bool_iff, E1 | apply Qle_bool_iff, E2 | exact IH].
    + pose proof (random_sample_unit_interval r) as [U0 U1].
      destruct (random_sample r) as [u r1]. simpl in *.
      specialize (IH x r1).
      destruct (Reference.amend_position x lo hi r1) as [rest r']. simpl in *.
      destruct (uniform_in_interval l h u Hlh U0 U1).
      apply in_bounds_cons; auto.
Qed.

Lemma insert_sorted_length m x l :
  length (Reference.insert_sorted m x l) = S (length l).
Proof.
  induction l as [|y l IH]; simpl; [reflexivity |].
  destruct (if m then _ else _); simpl; congruence.
Qed.

Lemma insert_sorted_member m x l y :
  y ∈ Reference.insert_sorted m x l -> y = x \/ y ∈ l.
Proof.
  induction l as [|z l IH]; simpl.
  - intros H. apply list_elem_of_singleton in H. auto.
  - destruct (if m then _ else _).
    + intros H. apply elem_of_cons in H. tauto.
    + intros H. apply elem_of_cons in H as [->|H].
      * right. left.
      * destruct (IH H) as [->|H']; [auto | right; right; exact H'].
Qed.

Lemma sorted_length m l : length (Reference.sorted m l) = length l.
Proof.
  unfold Reference.sorted. rewrite <- (length_reverse l).
  induction (reverse l) as [|x l' IH]; simpl; [reflexivity |].
  rewrite insert_sorted_length. congruence.
Qed.

Lemma sorted_member m l y : y ∈ Reference.sorted m l -> y ∈ l.
Proof.
  unfold Reference.sorted. intros H. apply elem_of_reverse.
  induction (reverse l) as [|x l' IH]; simpl in *; [exact H |].
  apply insert_sorted_member in H as [->|H]; [left | right; auto].
Qed.

Lemma zip_with_member {A} (f : A -> A -> A) (old new : list A) x :
  (forall a b, f a b = a \/ f a b = b) ->
  x ∈ zip_with f old new -> x ∈ old \/ x ∈ new.
Proof.
  intros Hf. revert new. induction old as [|a old IH]; intros [|b new] H; simpl in *;
    try (apply elem_of_nil in H; contradiction).
  apply elem_of_cons in H as [->|H].
  - destruct (Hf a b) as [-> | ->]; [left | right]; left.
  - destruct (IH _ H); [left | right]; right; assumption.
Qed.

Lemma reference_contract T size lo hi batch minimize fit_func :
  Forall2 Qle lo hi ->
  Contract (Reference.make T size lo hi batch minimize fit_func).
Proof.
  intros Hb. constructor; simpl.
  - intros p. unfold Reference.get_special_solutions.
    rewrite length_take, sorted_length. reflexivity.
  - intros p x H. unfold Reference.get_special_solutions in H.
    apply elem_of_take in H as (i & H & _).
    eapply sorted_member, list_elem_of_lookup_2, H.
  - apply reference_amend_in_bounds, Hb.
  - reflexivity.
  - intros x y. unfold Reference.get_better_solution, fitter. simpl. reflexivity.
  - intros old new H. unfold Reference.greedy_selection_population.
    destruct (decide _); [reflexivity | contradiction].
  - intros old new merged. unfold Reference.greedy_selection_population.
    destruct (decide _) as [E|]; [| discriminate].
    intros [= <-]. rewrite length_zip_with. lia.
  - intros old new merged x. unfold Reference.greedy_selection_population.
    destruct (decide _) as [E|]; [| discriminate].
    intros [= <-]. apply zip_with_member.
    intros a b. unfold Reference.get_better_solution.
    destruct (if minimize then _ else _); auto.
  - intros l n. unfold Reference.get_sorted_strim_population.
    rewrite length_take, sorted_length. reflexivity.
  - intros l n x H. unfold Reference.get_sorted_strim_population in H.
    apply elem_of_take in H as (i & H & _).
    eapply sorted_member, list_elem_of_lookup_2, H.
Qed.

(** *** The population size *)

Lemma has_size_rng_blind n : rng_blind (has_size n).
Proof. intros p g r r' H. exact H. Qed.

Lemma replace_keeps_size self n idx pos_new :
  maintains (has_size n) (evaluate_and_replace self idx pos_new) (fun _ => True).
Proof.
  unfold evaluate_and_replace.
  apply maintains_bind with (P := fun _ => True).
  - apply maintains_get_pop. auto.
  - intros old _. apply maintains_set_pop.
    intros s Hs _. unfold has_size in *. simpl. rewrite length_insert. exact Hs.
Qed.

Lemma merge_keeps_size self `{!Contract self} n pop_new :
  maintains (has_size n) (evaluate_and_merge self pop_new) (fun _ => True).
Proof.
  unfold evaluate_and_merge.
  apply maintains_bind with (P := fun old => length old = n).
  { apply maintains_read_pop. auto. }
  intros old Hold.
  apply maintains_bind with (P := fun merged => length merged = n).
  { apply maintains_lift_result. intros merged E.
    rewrite (greedy_length _ _ _ E). exact Hold. }
  intros merged Hm.
  apply maintains_bind with (P := fun _ => True).
  { apply maintains_assign_pop. intros s _. exact Hm. }
  intros _ _. apply maintains_ret. exact Logic.I.
Qed.

Lemma sort_and_trim_keeps_size self `{!Contract self} leaders :
  maintains (has_size (pop_size self)) (RW_GWO.sort_and_trim self leaders) (fun _ => True).
Proof.
  unfold RW_GWO.sort_and_trim.
  apply maintains_bind with (P := fun p => length p = pop_size self).
  { apply maintains_read_pop. auto. }
  intros p Hp. apply maintains_assign_pop. intros s _.
  unfold has_size. simpl. rewrite strim_length, length_app. lia.
Qed.

(** C1. Population-size invariant: for each of the four strategies and
    either evaluation mode (the mode is a field of [self]), if the
    population holds [pop_size] members when [evolve] is called, it holds
    [pop_size] members when [evolve] is left, by return or by exception. *)
Theorem population_size_invariant (self : Optimizer) (t : Z) (s : State) :
  Contract self ->
  length (pop s) = pop_size self ->
  length (pop (BaseGWO.evolve self t s).2) = pop_size self /\
  length (pop (RW_GWO.evolve self t s).2) = pop_size self /\
  length (pop (GWO_WOA_M.evolve self t s).2) = pop_size self /\
  length (pop (GWO_WOA_O.evolve self t s).2) = pop_size self.
Proof.
  intros HC Hs.
  pose proof (has_size_rng_blind (pop_size self)) as Hb.
  pose proof (replace_keeps_size self (pop_size self)) as Hr.
  pose proof (merge_keeps_size self (pop_size self)) as Hm.
  pose proof (sort_and_trim_keeps_size self) as Ht.
  repeat split.
  - apply (maintains_final (has_size (pop_size self)) _ (fun _ => True));
      [apply BaseGWO_maintains; assumption | exact Hs].
  - apply (maintains_final (has_size (pop_size self)) _ (fun _ => True));
      [apply RW_GWO_maintains; assumption | exact Hs].
  - apply (maintains_final (has_size (pop_size self)) _ (fun _ => True));
      [apply GWO_WOA_M_maintains; assumption | exact Hs].
  - apply (maintains_final (has_size (pop_size self)) _ (fun _ => True));
      [apply GWO_WOA_O_maintains; assumption | exact Hs].
Qed.

(** *** The global best *)

Lemma g_best_is_rng_blind g : rng_blind (g_best_is g).
Proof. intros p g' r r' H. exact H. Qed.

Lemma replace_keeps_g_best self g idx pos_new :
  maintains (g_best_is g) (evaluate_and_replace self idx pos_new) (fun _ => True).
Proof.
  unfold evaluate_and_replace.
  apply maintains_bind with (P := fun _ => True).
  - apply maintains_get_pop. auto.
  - intros old _. apply maintains_set_pop. intros s Hs _. exact Hs.
Qed.

Lemma merge_keeps_g_best self g pop_new :
  maintains (g_best_is g) (evaluate_and_merge self pop_new) (fun _ => True).
Proof.
  unfold evaluate_and_merge.
  apply maintains_bind with (P := fun _ => True).
  { apply maintains_read_pop. auto. }
  intros old _.
  apply maintains_bind with (P := fun _ => True).
  { apply maintains_lift_result. auto. }
  intros merged _.
  apply maintains_bind with (P := fun _ => True).
  { apply maintains_assign_pop. intros s Hs. exact Hs. }
  intros _ _. apply maintains_ret. exact Logic.I.
Qed.

Lemma sort_and_trim_keeps_g_best self g leaders :
  maintains (g_best_is g) (RW_GWO.sort_and_trim self leaders) (fun _ => True).
Proof.
  unfold RW_GWO.sort_and_trim.
  apply maintains_bind with (P := fun _ => True).
  { apply maintains_read_pop. auto. }
  intros p _. apply maintains_assign_pop. intros s Hs. exact Hs.
Qed.

(** C10. No [evolve] writes the global best: whatever the strategy, the
    evaluation mode, the epoch and the state, [self.g_best] is the same
    after the call as before it, on return and on exception alike. *)
Theorem evolve_never_writes_g_best (self : Optimizer) (t : Z) (s : State) :
  g_best (BaseGWO.evolve self t s).2 = g_best s /\
  g_best (RW_GWO.evolve self t s).2 = g_best s /\
  g_best (GWO_WOA_M.evolve self t s).2 = g_best s /\
  g_best (GWO_WOA_O.evolve self t s).2 = g_best s.
Proof.
  pose proof (g_best_is_rng_blind (g_best s)) as Hb.
  pose proof (replace_keeps_g_best self (g_best s)) as Hr.
  pose proof (merge_keeps_g_best self (g_best s)) as Hm.
  pose proof (sort_and_trim_keeps_g_best self (g_best s)) as Ht.
  repeat split.
  - apply (maintains_final (g_best_is (g_best s)) _ (fun _ => True));
      [apply BaseGWO_maintains; assumption | reflexivity].
  - apply (maintains_final (g_best_is (g_best s)) _ (fun _ => True));
      [apply RW_GWO_maintains; assumption | reflexivity].
  - apply (maintains_final (g_best_is (g_best s)) _ (fun _ => True));
      [apply GWO_WOA_M_maintains; assumption | reflexivity].
  - apply (maintains_final (g_best_is (g_best s)) _ (fun _ => True));
      [apply GWO_WOA_O_maintains; assumption | reflexivity].
Qed.

(** *** The bounds *)

Section Bounds.
Context (self : Optimizer) `{!Contract self}.


Lemma bounds_rng_blind : rng_blind (bounds_hold self).
Proof. intros p g r r' H. exact H. Qed.

Ltac draws := frame_with bounds_rng_blind ltac:(idtac; fail).

(** Peel the statements in front of the call to [amend_position]. *)
Ltac upto_amend :=
  repeat match goal with
    | |- maintains _ (mbind _ (amend _ _)) _ => fail 1
    | |- maintains _ (mbind _ _) _ =>
        apply maintains_bind with (P := fun _ => True); [draws | intros ? _]
    end.

Lemma amend_bounded x : maintains (bounds_hold self) (amend self x) (bounded self).
Proof.
  unfold amend. apply maintains_with_rng; [apply bounds_rng_blind |].
  intros r. apply amend_in_bounds.
Qed.

Lemma replace_bounded idx pos_new :
  (bounded self) pos_new -> maintains (bounds_hold self) (evaluate_and_replace self idx pos_new) (fun _ => True).
Proof.
  intros Hpos. unfold evaluate_and_replace.
  apply maintains_bind with (P := fun old => (bounded self) (ID_POS old)).
  - apply maintains_get_pop. intros s x Hs Hx.
    exact (proj1 (Forall_lookup _ _) Hs idx x Hx).
  - intros old Hold. apply maintains_set_pop. intros s Hs _.
    unfold bounds_hold, bounded, pop_in_bounds in *. simpl. apply Forall_insert; [exact Hs |].
    rewrite better_spec. destruct (fitter _ _ _); simpl; assumption.
Qed.

Lemma merge_bounded pop_new :
  Forall (bounded self) pop_new ->
  maintains (bounds_hold self) (evaluate_and_merge self pop_new)
    (fun evaluated => map ID_POS evaluated = pop_new).
Proof.
  intros Hnew. unfold evaluate_and_merge.
  apply maintains_bind with (P := fun old => pop_in_bounds self old).
  { apply maintains_read_pop. auto. }
  intros old Hold.
  apply maintains_bind with (P := fun merged => pop_in_bounds self merged).
  { apply maintains_lift_result. intros merged E.
    apply Forall_forall. intros x Hx.
    destruct (greedy_member _ _ _ _ E Hx) as [H|H].
    - exact (proj1 (Forall_forall _ _) Hold x H).
    - rewrite update_target_spec in H.
      apply list_elem_of_fmap in H as (y & -> & Hy). simpl.
      exact (proj1 (Forall_forall _ _) Hnew y Hy). }
  intros merged Hm.
  apply maintains_bind with (P := fun _ => True).
  { apply maintains_assign_pop. intros s _. exact Hm. }
  intros _ _. apply maintains_ret.
  rewrite update_target_spec, map_map. simpl. apply map_id.
Qed.

(** The statements that follow the computation of the raw [pos_new] in
    every population loop: amend, append, evaluate and replace. *)
Lemma amend_append_replace idx raw pop_new :
  Forall (bounded self) pop_new ->
  maintains (bounds_hold self)
    (pos_new ← amend self raw;
     (if mode_in_AVAILABLE_MODES self then mret tt
      else evaluate_and_replace self idx pos_new);;
     mret (pop_new ++ [pos_new]))
    (Forall (bounded self)).
Proof.
  intros Hnew.
  apply maintains_bind with (P := (bounded self)); [apply amend_bounded |].
  intros pos Hpos.
  apply maintains_bind with (P := fun _ => True).
  - apply maintains_if; [apply maintains_ret; exact Logic.I | apply replace_bounded, Hpos].
  - intros _ _. apply maintains_ret. apply Forall_app. split; [exact Hnew |].
    constructor; [exact Hpos | constructor].
Qed.

Lemma BaseGWO_step_bounded a list_best idx pop_new :
  Forall (bounded self) pop_new ->
  maintains (bounds_hold self) (BaseGWO.step self a list_best idx pop_new) (Forall (bounded self)).
Proof.
  intros Hnew. unfold BaseGWO.step, np_random_uniform.
  upto_amend. apply amend_append_replace, Hnew.
Qed.

Lemma batch_tail_bounded pop_new :
  Forall (bounded self) pop_new ->
  maintains (bounds_hold self)
    (if mode_in_AVAILABLE_MODES self
     then evaluate_and_merge self pop_new;; mret tt
     else mret tt)
    (fun _ => True).
Proof.
  intros Hnew. apply maintains_if; [| apply maintains_ret; exact Logic.I].
  apply maintains_bind with (P := fun _ => True).
  - eapply maintains_weaken; [apply merge_bounded, Hnew | auto].
  - intros _ _. apply maintains_ret. exact Logic.I.
Qed.

Lemma BaseGWO_bounded t : maintains (bounds_hold self) (BaseGWO.evolve self t) (fun _ => True).
Proof.
  unfold BaseGWO.evolve, linear_decay.
  apply maintains_bind with (P := fun _ => True); [draws | intros a _].
  apply maintains_bind with (P := fun _ => True); [draws | intros p _].
  apply maintains_bind with (P := Forall (bounded self)).
  - apply maintains_for_range; [| constructor].
    intros i b Hb. apply BaseGWO_step_bounded, Hb.
  - intros pop_new Hnew. apply batch_tail_bounded, Hnew.
Qed.

Lemma lookup_bounded (l : list solution) i x :
  pop_in_bounds self l -> l !! i = Some x -> (bounded self) (ID_POS x).
Proof. intros Hl Hx. exact (proj1 (Forall_lookup _ _) Hl i x Hx). Qed.

Lemma better_bounded x y :
  (bounded self) (ID_POS x) -> (bounded self) (ID_POS y) -> (bounded self) (ID_POS (get_better_solution self x y)).
Proof. intros Hx Hy. rewrite better_spec. destruct (fitter _ _ _); assumption. Qed.

Lemma RW_GWO_walk_bounded a i acc :
  pop_in_bounds self acc.1 /\ Forall (bounded self) acc.2 ->
  maintains (bounds_hold self) (RW_GWO.walk self a i acc)
    (fun acc' => pop_in_bounds self acc'.1 /\ Forall (bounded self) acc'.2).
Proof.
  destruct acc as [leaders leaders_new]. simpl. intros [Hl Hn].
  unfold RW_GWO.walk, np_random_standard_cauchy.
  apply maintains_bind with (P := fun _ => True); [draws | intros Li _].
  apply maintains_bind with (P := fun _ => True); [draws | intros z _].
  apply maintains_bind with (P := (bounded self)); [apply amend_bounded | intros pos Hpos].
  assert (Forall (bounded self) (leaders_new ++ [pos])) as Hn'.
  { apply Forall_app. split; [exact Hn | constructor; [exact Hpos | constructor]]. }
  apply maintains_if.
  - apply maintains_ret. simpl. auto.
  - apply maintains_bind with (P := fun Li' => (bounded self) (ID_POS Li')).
    + apply maintains_getitem. intros x Hx. eapply lookup_bounded; eassumption.
    + intros Li' HLi'. apply maintains_ret. simpl. split; [| exact Hn'].
      apply Forall_insert; [exact Hl |]. apply better_bounded; assumption.
Qed.

Lemma RW_GWO_step_bounded b leaders idx pop_new :
  Forall (bounded self) pop_new ->
  maintains (bounds_hold self) (RW_GWO.step self b leaders idx pop_new) (Forall (bounded self)).
Proof.
  intros Hnew. unfold RW_GWO.step, np_random_uniform.
  upto_amend. apply amend_append_replace, Hnew.
Qed.

Lemma sort_and_trim_bounded leaders :
  pop_in_bounds self leaders ->
  maintains (bounds_hold self) (RW_GWO.sort_and_trim self leaders) (fun _ => True).
Proof.
  intros Hl. unfold RW_GWO.sort_and_trim.
  apply maintains_bind with (P := pop_in_bounds self).
  { apply maintains_read_pop. auto. }
  intros p Hp. apply maintains_assign_pop. intros s _.
  unfold bounds_hold. simpl. apply Forall_forall. intros x Hx.
  apply strim_member, elem_of_app in Hx as [Hx|Hx].
  - exact (proj1 (Forall_forall _ _) Hp x Hx).
  - exact (proj1 (Forall_forall _ _) Hl x Hx).
Qed.

Lemma RW_GWO_bounded t : maintains (bounds_hold self) (RW_GWO.evolve self t) (fun _ => True).
Proof.
  unfold RW_GWO.evolve, linear_decay.
  apply maintains_bind with (P := fun _ => True); [draws | intros b _].
  apply maintains_bind with (P := fun _ => True); [draws | intros a _].
  apply maintains_bind with (P := pop_in_bounds self).
  { apply maintains_read_pop. auto. }
  intros p Hp.
  assert (pop_in_bounds self (get_special_solutions self p)) as Hl.
  { apply Forall_forall. intros x Hx. apply special_member in Hx.
    exact (proj1 (Forall_forall _ _) Hp x Hx). }
  apply maintains_bind
    with (P := fun acc => pop_in_bounds self acc.1 /\ Forall (bounded self) acc.2).
  { apply maintains_for_range; [| simpl; split; [exact Hl | constructor]].
    intros i acc Hacc. apply RW_GWO_walk_bounded, Hacc. }
  intros [leaders leaders_new] [Hl' Hn']. simpl in Hl', Hn'.
  apply maintains_bind with (P := pop_in_bounds self).
  { apply maintains_if; [| apply maintains_ret, Hl'].
    apply maintains_lift_result. intros merged E.
    apply Forall_forall. intros x Hx.
    destruct (greedy_member _ _ _ _ E Hx) as [H|H].
    - exact (proj1 (Forall_forall _ _) Hl' x H).
    - rewrite update_target_spec in H.
      apply list_elem_of_fmap in H as (y & -> & Hy). simpl.
      exact (proj1 (Forall_forall _ _) Hn' y Hy). }
  intros leaders' Hl''.
  apply maintains_bind with (P := Forall (bounded self)).
  { apply maintains_for_range; [| constructor].
    intros i b0 Hb0. apply RW_GWO_step_bounded, Hb0. }
  intros pop_new Hnew.
  apply maintains_bind with (P := fun _ => True).
  { apply batch_tail_bounded, Hnew. }
  intros _ _. apply sort_and_trim_bounded, Hl''.
Qed.

(** The part of a hybrid's loop body that both hybrids share: the
    branch [p >= 0.5] and the batch block. *)
Lemma hybrid_body_bounded (whale : M ndarray) list_best k idx pop_new :
  maintains (bounds_hold self) whale (fun _ => True) ->
  Forall (bounded self) pop_new ->
  maintains (bounds_hold self)
    (pop_new ← (if Qlt_bool (c_p k) (1 # 2) then
                  whale;; mret pop_new
                else
                  pos_new ← GWO_WOA_M.wolves list_best k idx;
                  pos_new ← amend self pos_new;
                  let pop_new := pop_new ++ [pos_new] in
                  (if mode_in_AVAILABLE_MODES self then mret tt
                   else evaluate_and_replace self idx pos_new);;
                  mret pop_new);
     if mode_in_AVAILABLE_MODES self
     then evaluated ← evaluate_and_merge self pop_new; mret (map ID_POS evaluated)
     else mret pop_new)
    (Forall (bounded self)).
Proof.
  intros Hw Hnew.
  apply maintains_bind with (P := Forall (bounded self)).
  - apply maintains_if.
    + apply maintains_bind with (P := fun _ => True); [exact Hw |].
      intros _ _. apply maintains_ret, Hnew.
    + apply maintains_bind with (P := fun _ => True).
      { unfold GWO_WOA_M.wolves. draws. }
      intros raw _. apply amend_append_replace, Hnew.
  - intros pop_new' Hnew'. apply maintains_if; [| apply maintains_ret, Hnew'].
    apply maintains_bind with (P := fun ev => map ID_POS ev = pop_new').
    { apply merge_bounded, Hnew'. }
    intros ev ->. apply maintains_ret, Hnew'.
Qed.

Lemma GWO_WOA_M_bounded t : maintains (bounds_hold self) (GWO_WOA_M.evolve self t) (fun _ => True).
Proof.
  unfold GWO_WOA_M.evolve, linear_decay.
  apply maintains_bind with (P := fun _ => True); [draws | intros a _].
  apply maintains_bind with (P := fun _ => True); [draws | intros q _].
  apply maintains_bind with (P := fun _ => True); [draws | intros p _].
  apply maintains_bind with (P := Forall (bounded self));
    [| intros ? _; apply maintains_ret; exact Logic.I].
  apply maintains_for_range; [| constructor].
  intros i b Hb. unfold GWO_WOA_M.step.
  apply maintains_bind with (P := fun _ => True).
  { unfold GWO_WOA_M.draw, np_random_rand, np_random_uniform. draws. }
  intros k _. apply hybrid_body_bounded; [| exact Hb].
  unfold GWO_WOA_M.whale. draws.
Qed.

Lemma GWO_WOA_O_bounded t : maintains (bounds_hold self) (GWO_WOA_O.evolve self t) (fun _ => True).
Proof.
  unfold GWO_WOA_O.evolve, GWO_WOA_O.decay.
  apply maintains_bind with (P := fun _ => True); [draws | intros a _].
  apply maintains_bind with (P := fun _ => True); [draws | intros p _].
  apply maintains_bind with (P := Forall (bounded self));
    [| intros ? _; apply maintains_ret; exact Logic.I].
  apply maintains_for_range; [| constructor].
  intros i b Hb. unfold GWO_WOA_O.step.
  apply maintains_bind with (P := fun _ => True).
  { unfold GWO_WOA_O.draw, np_random_rand, np_random_uniform, np_random_uniform_in.
    draws. }
  intros k _. apply hybrid_body_bounded; [| exact Hb].
  unfold GWO_WOA_O.whale. draws.
Qed.

End Bounds.

(** C4. Boundary invariant: under the contract of [amend_position] (and
    of the other inherited methods), for each of the four strategies, any
    epoch and either mode, if every member of the population lies within
    the bounds before [evolve], every member lies within the bounds after
    it; the positions that enter the population are repaired ones. *)
Theorem boundary_invariant (self : Optimizer) (t : Z) (s : State) :
  Contract self ->
  pop_in_bounds self (pop s) ->
  pop_in_bounds self (pop (BaseGWO.evolve self t s).2) /\
  pop_in_bounds self (pop (RW_GWO.evolve self t s).2) /\
  pop_in_bounds self (pop (GWO_WOA_M.evolve self t s).2) /\
  pop_in_bounds self (pop (GWO_WOA_O.evolve self t s).2).
Proof.
  intros HC Hs. repeat split.
  - exact (maintains_final _ _ _ s (BaseGWO_bounded self t) Hs).
  - exact (maintains_final _ _ _ s (RW_GWO_bounded self t) Hs).
  - exact (maintains_final _ _ _ s (GWO_WOA_M_bounded self t) Hs).
  - exact (maintains_final _ _ _ s (GWO_WOA_O_bounded self t) Hs).
Qed.

Lemma demo_bounds_ordered : Forall2 Qle Demo.lo Demo.hi.
Proof. repeat constructor; unfold Qle; simpl; lia. Qed.

Lemma demo_contract T batch : Contract (Demo.optimizer T batch).
Proof. apply reference_contract, demo_bounds_ordered. Qed.

Lemma in_bounds_pair l1 h1 l2 h2 x y :
  l1 <= x -> x <= h1 -> l2 <= y -> y <= h2 -> in_bounds [l1; l2] [h1; h2] [x; y].
Proof.
  intros. apply in_bounds_cons; auto. apply in_bounds_cons; auto. apply in_bounds_nil.
Qed.

Lemma demo_wolves_in_bounds T batch :
  pop_in_bounds (Demo.optimizer T batch) Demo.wolves.
Proof.
  unfold pop_in_bounds, Demo.wolves. simpl.
  repeat (constructor; [apply in_bounds_pair; unfold Qle; simpl; lia |]).
  constructor.
Qed.

Lemma population_size_invariant_witness :
  length (pop (BaseGWO.evolve (Demo.optimizer 10 true) 3 Demo.state).2) = 10%nat /\
  length (pop (RW_GWO.evolve (Demo.optimizer 10 true) 3 Demo.state).2) = 10%nat /\
  length (pop (GWO_WOA_M.evolve (Demo.optimizer 10 true) 3 Demo.state).2) = 10%nat /\
  length (pop (GWO_WOA_O.evolve (Demo.optimizer 10 true) 3 Demo.state).2) = 10%nat.
Proof.
  apply (population_size_invariant (Demo.optimizer 10 true) 3 Demo.state).
  - apply demo_contract.
  - reflexivity.
Defined.

Lemma boundary_invariant_witness :
  pop_in_bounds (Demo.optimizer 10 false)
    (pop (BaseGWO.evolve (Demo.optimizer 10 false) 3 Demo.state).2) /\
  pop_in_bounds (Demo.optimizer 10 false)
    (pop (RW_GWO.evolve (Demo.optimizer 10 false) 3 Demo.state).2) /\
  pop_in_bounds (Demo.optimizer 10 false)
    (pop (GWO_WOA_M.evolve (Demo.optimizer 10 false) 3 Demo.state).2) /\
  pop_in_bounds (Demo.optimizer 10 false)
    (pop (GWO_WOA_O.evolve (Demo.optimizer 10 false) 3 Demo.state).2).
Proof.
  apply (boundary_invariant (Demo.optimizer 10 false) 3 Demo.state).
  - apply demo_contract.
  - apply demo_wolves_in_bounds.
Defined.

(** The runs of the concrete example return normally in incremental mode,
    so the invariants above are not about exceptional exits only. *)
Example demo_runs_return :
  (BaseGWO.evolve (Demo.optimizer 10 false) 3 Demo.state).1 = Ok tt /\
  (RW_GWO.evolve (Demo.optimizer 10 false) 3 Demo.state).1 = Ok tt /\
  (GWO_WOA_M.evolve (Demo.optimizer 10 false) 3 Demo.state).1 = Ok tt /\
  (GWO_WOA_O.evolve (Demo.optimizer 10 false) 3 Demo.state).1 = Ok tt /\
  (BaseGWO.evolve (Demo.optimizer 10 true) 3 Demo.state).1 = Ok tt /\
  (RW_GWO.evolve (Demo.optimizer 10 true) 3 Demo.state).1 = Ok tt.
Proof. vm_compute. repeat split. Qed.

(** *** The decay with a single epoch *)

(** C2. With [self.epoch = 1] the first statement of [BaseGWO.evolve],
    [RW_GWO.evolve] and [GWO_WOA_M.evolve] divides by [self.epoch - 1 = 0]:
    each call raises [ZeroDivisionError] before anything else happens, so
    the division is not guarded. *)
Theorem single_epoch_raises_ZeroDivisionError (self : Optimizer) (t : Z) (s : State) :
  epoch self = 1%Z ->
  BaseGWO.evolve self t s = (Raise ZeroDivisionError, s) /\
  RW_GWO.evolve self t s = (Raise ZeroDivisionError, s) /\
  GWO_WOA_M.evolve self t s = (Raise ZeroDivisionError, s).
Proof.
  intros HT.
  unfold BaseGWO.evolve, RW_GWO.evolve, GWO_WOA_M.evolve, linear_decay, py_truediv.
  rewrite HT. simpl. auto.
Qed.

Lemma single_epoch_raises_ZeroDivisionError_witness :
  BaseGWO.evolve (Demo.optimizer 1 false) 0 Demo.state = (Raise ZeroDivisionError, Demo.state) /\
  RW_GWO.evolve (Demo.optimizer 1 false) 0 Demo.state = (Raise ZeroDivisionError, Demo.state) /\
  GWO_WOA_M.evolve (Demo.optimizer 1 false) 0 Demo.state = (Raise ZeroDivisionError, Demo.state).
Proof.
  apply (single_epoch_raises_ZeroDivisionError (Demo.optimizer 1 false) 0 Demo.state).
  reflexivity.
Defined.

(** *** The branch [p < 0.5] of the hybrids *)

Lemma pop_is_rng_blind p : rng_blind (pop_is p).
Proof. intros p' g r r' H. exact H. Qed.

Ltac reads p := frame_with (pop_is_rng_blind p) ltac:(idtac; fail).

Lemma GWO_WOA_M_whale_reads self k idx p :
  maintains (pop_is p) (GWO_WOA_M.whale self k idx) (fun _ => True).
Proof. unfold GWO_WOA_M.whale. reads p. Qed.

Lemma GWO_WOA_O_whale_reads self list_best k idx p :
  maintains (pop_is p) (GWO_WOA_O.whale self list_best k idx) (fun _ => True).
Proof. unfold GWO_WOA_O.whale. reads p. Qed.

Lemma GWO_WOA_M_draw_reads a a2 p :
  maintains (pop_is p) (GWO_WOA_M.draw a a2) (fun _ => True).
Proof. unfold GWO_WOA_M.draw, np_random_rand, np_random_uniform. reads p. Qed.

Lemma GWO_WOA_O_draw_reads a p :
  maintains (pop_is p) (GWO_WOA_O.draw a) (fun _ => True).
Proof.
  unfold GWO_WOA_O.draw, np_random_rand, np_random_uniform, np_random_uniform_in.
  reads p.
Qed.

(** Drawing never raises. *)
Lemma with_rng_returns {A} (f : RandomState -> A * RandomState) s :
  exists a s', with_rng f s = (Ok a, s').
Proof. unfold with_rng. destruct (f (rng s)); eauto. Qed.

Lemma bind_returns {A B} (m : M A) (k : A -> M B) s :
  (exists a s', m s = (Ok a, s')) ->
  (forall a s', exists b s'', k a s' = (Ok b, s'')) ->
  exists b s'', (m ≫= k) s = (Ok b, s'').
Proof.
  intros (a & s' & E) Hk. unfold mbind, M_bind, bind. rewrite E. apply Hk.
Qed.

Ltac returns :=
  repeat first
    [ apply with_rng_returns
    | apply bind_returns; [| intros ? ?]
    | solve [do 2 eexists; reflexivity] ].

Lemma GWO_WOA_M_draw_returns a a2 s :
  exists k s', GWO_WOA_M.draw a a2 s = (Ok k, s').
Proof. unfold GWO_WOA_M.draw, np_random_rand, np_random_uniform. returns. Qed.

Lemma GWO_WOA_O_draw_returns a s :
  exists k s', GWO_WOA_O.draw a s = (Ok k, s').
Proof.
  unfold GWO_WOA_O.draw, np_random_rand, np_random_uniform, np_random_uniform_in.
  returns.
Qed.

Lemma bind_ret_right {A} (m : M A) s : (m ≫= mret) s = m s.
Proof.
  unfold mbind, M_bind, bind, mret, M_ret, ret.
  destruct (m s) as [[a|e] s']; reflexivity.
Qed.

(** What an iteration that computes and drops a position does. *)
Lemma dropped_position (whale : M ndarray) (pop_new : list ndarray) s :
  maintains (pop_is (pop s)) whale (fun _ => True) ->
  pop ((whale;; mret pop_new) s).2 = pop s /\
  (forall r, ((whale;; mret pop_new) s).1 = Ok r -> r = pop_new).
Proof.
  intros Hw. specialize (Hw s eq_refl).
  unfold mbind, M_bind, bind, mret, M_ret, ret.
  destruct (whale s) as [[x|e] s']; simpl.
  - split; [exact (proj1 Hw) | congruence].
  - split; [exact Hw | discriminate].
Qed.

Lemma hybrid_body_whale_branch self (whale wolves : M ndarray) k idx pop_new s :
  mode_in_AVAILABLE_MODES self = false ->
  Qlt_bool (c_p k) (1 # 2) = true ->
  (pop_new ← (if Qlt_bool (c_p k) (1 # 2) then
                 whale;; mret pop_new
               else
                 pos_new ← wolves;
                 pos_new ← amend self pos_new;
                 let pop_new := pop_new ++ [pos_new] in
                 (if mode_in_AVAILABLE_MODES self then mret tt
                  else evaluate_and_replace self idx pos_new);;
                 mret pop_new);
   if mode_in_AVAILABLE_MODES self
   then evaluated ← evaluate_and_merge self pop_new; mret (map ID_POS evaluated)
   else mret pop_new) s
  = (whale;; mret pop_new) s.
Proof.
  intros Hmode Hp. rewrite Hp, Hmode. apply bind_ret_right.
Qed.

(** C9. In incremental mode, an iteration of the loop of [GWO_WOA_M.evolve]
    or [GWO_WOA_O.evolve] first draws its coefficients, which never fails
    and leaves the population alone; when the drawn [p] is below 0.5 the
    rest of the iteration is exactly "compute [pos_new] and drop it": no
    call to [amend_position], no evaluation, nothing appended to
    [pop_new], no merge, and the population is the one the iteration
    started from.  Hence an iteration that changes the population has
    [p >= 0.5]. *)
Theorem whale_branch_leaves_population
    (self : Optimizer) (a a2 : Q) (list_best : list solution)
    (idx : nat) (pop_new : list ndarray) (s : State) :
  mode_in_AVAILABLE_MODES self = false ->
  (exists k s1,
      GWO_WOA_M.draw a a2 s = (Ok k, s1) /\ pop s1 = pop s /\
      GWO_WOA_M.step self a a2 list_best idx pop_new s
        = GWO_WOA_M.body self list_best k idx pop_new s1 /\
      (Qlt_bool (c_p k) (1 # 2) = true ->
         GWO_WOA_M.body self list_best k idx pop_new s1
           = (GWO_WOA_M.whale self k idx;; mret pop_new) s1 /\
         pop (GWO_WOA_M.step self a a2 list_best idx pop_new s).2 = pop s /\
         (forall r, (GWO_WOA_M.step self a a2 list_best idx pop_new s).1 = Ok r ->
                    r = pop_new)) /\
      (pop (GWO_WOA_M.step self a a2 list_best idx pop_new s).2 <> pop s ->
         Qlt_bool (c_p k) (1 # 2) = false)) /\
  (exists k s1,
      GWO_WOA_O.draw a s = (Ok k, s1) /\ pop s1 = pop s /\
      GWO_WOA_O.step self a list_best idx pop_new s
        = GWO_WOA_O.body self list_best k idx pop_new s1 /\
      (Qlt_bool (c_p k) (1 # 2) = true ->
         GWO_WOA_O.body self list_best k idx pop_new s1
           = (GWO_WOA_O.whale self list_best k idx;; mret pop_new) s1 /\
         pop (GWO_WOA_O.step self a list_best idx pop_new s).2 = pop s /\
         (forall r, (GWO_WOA_O.step self a list_best idx pop_new s).1 = Ok r ->
                    r = pop_new)) /\
      (pop (GWO_WOA_O.step self a list_best idx pop_new s).2 <> pop s ->
         Qlt_bool (c_p k) (1 # 2) = false)).
Proof.
  intros Hmode. split.
  - destruct (GWO_WOA_M_draw_returns a a2 s) as (k & s1 & E).
    pose proof (GWO_WOA_M_draw_reads a a2 (pop s) s eq_refl) as Hd.
    rewrite E in Hd. destruct Hd as [Hpop _]. unfold pop_is in Hpop.
    assert (GWO_WOA_M.step self a a2 list_best idx pop_new s
            = GWO_WOA_M.body self list_best k idx pop_new s1) as Hstep.
    { unfold GWO_WOA_M.step, mbind, M_bind, bind. rewrite E. reflexivity. }
    assert (Qlt_bool (c_p k) (1 # 2) = true ->
            GWO_WOA_M.body self list_best k idx pop_new s1
              = (GWO_WOA_M.whale self k idx;; mret pop_new) s1 /\
            pop (GWO_WOA_M.step self a a2 list_best idx pop_new s).2 = pop s /\
            (forall r, (GWO_WOA_M.step self a a2 list_best idx pop_new s).1 = Ok r ->
                       r = pop_new)) as Hlow.
    { intros Hp.
      assert (GWO_WOA_M.body self list_best k idx pop_new s1
              = (GWO_WOA_M.whale self k idx;; mret pop_new) s1) as Hbody.
      { unfold GWO_WOA_M.body. apply hybrid_body_whale_branch; assumption. }
      split; [exact Hbody |]. rewrite Hstep, Hbody, <- Hpop.
      apply dropped_position. apply GWO_WOA_M_whale_reads. }
    exists k, s1. split; [exact E |]. split; [exact Hpop |].
    split; [exact Hstep |]. split; [exact Hlow |].
    intros Hne. destruct (Qlt_bool (c_p k) (1 # 2)) eqn:Hp; [| reflexivity].
    exfalso. apply Hne. apply Hlow. reflexivity.
  - destruct (GWO_WOA_O_draw_returns a s) as (k & s1 & E).
    pose proof (GWO_WOA_O_draw_reads a (pop s) s eq_refl) as Hd.
    rewrite E in Hd. destruct Hd as [Hpop _]. unfold pop_is in Hpop.
    assert (GWO_WOA_O.step self a list_best idx pop_new s
            = GWO_WOA_O.body self list_best k idx pop_new s1) as Hstep.
    { unfold GWO_WOA_O.step, mbind, M_bind, bind. rewrite E. reflexivity. }
    assert (Qlt_bool (c_p k) (1 # 2) = true ->
            GWO_WOA_O.body self list_best k idx pop_new s1
              = (GWO_WOA_O.whale self list_best k idx;; mret pop_new) s1 /\
            pop (GWO_WOA_O.step self a list_best idx pop_new s).2 = pop s /\
            (forall r, (GWO_WOA_O.step self a list_best idx pop_new s).1 = Ok r ->
                       r = pop_new)) as Hlow.
    { intros Hp.
      assert (GWO_WOA_O.body self list_best k idx pop_new s1
              = (GWO_WOA_O.whale self list_best k idx;; mret pop_new) s1) as Hbody.
      { unfold GWO_WOA_O.body. apply hybrid_body_whale_branch; assumption. }
      split; [exact Hbody |]. rewrite Hstep, Hbody, <- Hpop.
      apply dropped_position. apply GWO_WOA_O_whale_reads. }
    exists k, s1. split; [exact E |]. split; [exact Hpop |].
    split; [exact Hstep |]. split; [exact Hlow |].
    intros Hne. destruct (Qlt_bool (c_p k) (1 # 2)) eqn:Hp; [| reflexivity].
    exfalso. apply Hne. apply Hlow. reflexivity.
Qed.

(** *** Equations between runs *)

Lemma for_range_ext {B} (idxs : list nat) (f g : nat -> B -> M B) (acc : B) (s : State) :
  (forall i b s', f i b s' = g i b s') ->
  for_range idxs f acc s = for_range idxs g acc s.
Proof.
  intros H. revert acc s. induction idxs as [|i rest IH]; intros acc s; simpl.
  - reflexivity.
  - unfold mbind, M_bind, bind. rewrite H.
    destruct (g i acc s) as [[b|e] s1]; [apply IH | reflexivity].
Qed.

Lemma three_leaders self `{!Contract self} (p : list solution) :
  (3 <= length p)%nat ->
  exists L1 L2 L3, get_special_solutions self p = [L1; L2; L3].
Proof.
  intros H. pose proof (special_length p) as Hl.
  rewrite Nat.min_l in Hl by exact H.
  destruct (get_special_solutions self p) as [|L1 [|L2 [|L3 [|L4 l]]]];
    simpl in Hl; try discriminate. eauto.
Qed.

Lemma linear_decay_defined self t s :
  (1 < epoch self)%Z ->
  linear_decay self t s = (Ok (Spec.linear_decay t (epoch self)), s).
Proof.
  intros HT. unfold linear_decay, py_truediv.
  destruct (Z.eqb_spec (epoch self - 1) 0) as [E|_]; [lia |]. reflexivity.
Qed.

Lemma bind_run {A B} (m : M A) (k : A -> M B) s a s1 :
  m s = (Ok a, s1) -> (m ≫= k) s = k a s1.
Proof. intros E. unfold mbind, M_bind, bind. rewrite E. reflexivity. Qed.

Lemma bind_read_pop {B} (k : list solution -> M B) s :
  (read_pop ≫= k) s = k (pop s) s.
Proof. reflexivity. Qed.

Lemma bind_ext_run {A B} (m m' : M A) (k k' : A -> M B) s :
  m s = m' s -> (forall a s1, k a s1 = k' a s1) -> (m ≫= k) s = (m' ≫= k') s.
Proof.
  intros Em Ek. unfold mbind, M_bind, bind. rewrite Em.
  destruct (m' s) as [[a|e] s1]; [apply Ek | reflexivity].
Qed.

Lemma bind_assoc_run {A B C} (m : M A) (f : A -> M B) (g : B -> M C) s :
  ((m ≫= f) ≫= g) s = (m ≫= (fun a => f a ≫= g)) s.
Proof.
  unfold mbind, M_bind, bind. destruct (m s) as [[a|e] s1]; reflexivity.
Qed.

Lemma bind_ext_run_ok {A B} (m m' : M A) (k k' : A -> M B) s :
  m s = m' s ->
  (forall a s1, m' s = (Ok a, s1) -> k a s1 = k' a s1) ->
  (m ≫= k) s = (m' ≫= k') s.
Proof.
  intros Em Ek. unfold mbind, M_bind, bind. rewrite Em.
  destruct (m' s) as [[a|e] s1]; [apply Ek; reflexivity | reflexivity].
Qed.

(** *** Arrays up to equality of their values *)

Lemma array_eqb_complete u v : Spec.array_eq u v -> Spec.array_eqb u v = true.
Proof.
  induction 1 as [|x y u v Hxy _ IH]; simpl; [reflexivity |].
  rewrite IH, andb_true_r. apply Qeq_bool_iff, Hxy.
Qed.

Lemma scale_scale (a b : Q) (v : ndarray) :
  Spec.array_eq (np.scale a (np.scale b v)) (np.scale (a * b) v).
Proof.
  induction v as [|x v IH]; simpl; constructor; [ring | exact IH].
Qed.

Lemma sub_array_eq (g u v : ndarray) :
  Spec.array_eq u v -> Spec.array_eq (np.sub g u) (np.sub g v).
Proof.
  intros H. revert g. induction H as [|x y u v Hxy _ IH]; intros [|gi g]; simpl;
    try constructor.
  - rewrite Hxy. reflexivity.
  - apply IH.
Qed.

(** *** The decay of GWO_WOA_O *)

Lemma GWO_WOA_O_decay_at_end (t T : Z) :
  (0 < T)%Z -> (Spec.GWO_WOA_O_decay t T == 1 <-> t = T).
Proof.
  intros HT. unfold Spec.GWO_WOA_O_decay.
  assert (~ inject_Z T == 0) as Hne.
  { intros H. apply (inject_Z_injective T 0) in H. lia. }
  split.
  - intros H. apply inject_Z_injective.
    assert (inject_Z t == inject_Z t / (2 * inject_Z T) * (2 * inject_Z T)) as Ht.
    { field. exact Hne. }
    assert (inject_Z t / (2 * inject_Z T) == 1 # 2) as Hq by lra.
    rewrite Ht, Hq. field.
  - intros ->. field. exact Hne.
Qed.

Lemma GWO_WOA_O_decay_at_least_1 (t T : Z) :
  (0 < T)%Z -> (t <= T)%Z -> 1 <= Spec.GWO_WOA_O_decay t T.
Proof.
  intros HT Ht. unfold Spec.GWO_WOA_O_decay.
  assert (0 < inject_Z T) as HTq.
  { change 0 with (inject_Z 0). rewrite <- Zlt_Qlt. exact HT. }
  assert (inject_Z t <= inject_Z T) as Htq by (rewrite <- Zle_Qle; exact Ht).
  assert (inject_Z t / (2 * inject_Z T) <= 1 # 2) as Hq.
  { apply Qle_shift_div_r; lra. }
  lra.
Qed.

(** *** GWO_WOA_M against section 4.8 *)

(** The branch [p < 0.5] is the one of 4.8: encircle the global best when
    [|A| < 1], a freshly created solution otherwise. *)
Lemma GWO_WOA_M_whale_is_spec (self : Optimizer) (k : coefficients) (idx : nat)
    (s : State) (x : solution) :
  pop s !! idx = Some x ->
  (Qlt_bool (Qabs (c_A k)) 1 = true ->
   GWO_WOA_M.whale self k idx s
     = (Ok (Spec.encircle (ID_POS (g_best s)) (c_A k) (c_C k)
              (ID_POS (g_best s)) (ID_POS x)), s)) /\
  (Qlt_bool (Qabs (c_A k)) 1 = false ->
   let fresh := create_solution self (lb self) (ub self) (rng s) in
   GWO_WOA_M.whale self k idx s
     = (Ok (Spec.encircle (ID_POS fresh.1) (c_A k) (c_C k)
              (ID_POS fresh.1) (ID_POS x)),
        mkState (pop s) (g_best s) fresh.2)).
Proof.
  intros Hx. split; intros HA; unfold GWO_WOA_M.whale; rewrite HA.
  - unfold mbind, M_bind, bind, get_g_best, get_pop, getitem. rewrite Hx. reflexivity.
  - unfold mbind, M_bind, bind, with_rng, get_pop, getitem.
    destruct (create_solution self (lb self) (ub self) (rng s)) as [x_rand r'].
    simpl. rewrite Hx. reflexivity.
Qed.

(** The branch [p >= 0.5] as the code has it: the distance to the first
    leader is scaled by [C2] and the distance to the second by [C1]. *)
Lemma hybrid_wolves_value (L1 L2 L3 : solution) (k : coefficients) (idx : nat)
    (s : State) (x : solution) :
  pop s !! idx = Some x ->
  GWO_WOA_M.wolves [L1; L2; L3] k idx s =
  (Ok (Spec.mean3
         (Spec.encircle (ID_POS L1) (c_A1 k) (c_C2 k) (ID_POS L1) (ID_POS x))
         (Spec.encircle (ID_POS L2) (c_A2 k) (c_C1 k) (ID_POS L2) (ID_POS x))
         (Spec.encircle (ID_POS L3) (c_A3 k) (c_C3 k) (ID_POS L3) (ID_POS x))), s).
Proof.
  intros Hx. unfold GWO_WOA_M.wolves, mbind, M_bind, bind, get_pop, getitem.
  simpl. rewrite Hx. reflexivity.
Qed.

(** C6, at a concrete iteration.  With the generator of the example
    started at its second draw, the iteration for slot 0 of
    [GWO_WOA_M.evolve] at epoch 3 of 10 draws [p >= 0.5] and [C1 <> C2];
    the position the code averages is not the three-leader average of
    4.6 with every [(A_i, C_i)] paired with [L_i]: the code pairs [C2]
    with the first leader and [C1] with the second. *)
Theorem GWO_WOA_M_average_swaps_C1_C2 :
  let self := Demo.optimizer 10 false in
  let s := Demo.state_from 1 in
  let a := Spec.linear_decay 3 10 in
  let a2 := -1 + 3 * ((-1) / 10 - 1) in
  exists k s1 L1 L2 L3 x v,
    GWO_WOA_M.draw a a2 s = (Ok k, s1) /\
    Qlt_bool (c_p k) (1 # 2) = false /\
    get_special_solutions self (pop s) = [L1; L2; L3] /\
    pop s1 !! 0%nat = Some x /\
    GWO_WOA_M.wolves [L1; L2; L3] k 0 s1 = (Ok v, s1) /\
    ~ Spec.array_eq v (Spec.three_leader_average L1 L2 L3 k x).
Proof.
  cbv zeta. do 2 eexists.
  exists (Demo.wolf 0 1), (Demo.wolf (-1) (-1)), (Demo.wolf 1 2), (Demo.wolf 1 2).
  eexists.
  split; [vm_compute; reflexivity |].
  split; [vm_compute; reflexivity |].
  split; [vm_compute; reflexivity |].
  split; [reflexivity |].
  split; [apply hybrid_wolves_value; reflexivity |].
  intros H. apply array_eqb_complete in H. vm_compute in H. discriminate.
Qed.

(** *** Greedy replacement in incremental mode *)

Lemma reads_bind_inv {A B} (m : M A) (k : A -> M B) s r s' :
  maintains (pop_is (pop s)) m (fun _ => True) ->
  (m ≫= k) s = (Ok r, s') ->
  exists a s1, m s = (Ok a, s1) /\ pop s1 = pop s /\ k a s1 = (Ok r, s').
Proof.
  intros Hm H. specialize (Hm s eq_refl).
  unfold mbind, M_bind, bind in H.
  destruct (m s) as [[a|e] s1]; [| discriminate].
  exists a, s1. destruct Hm as [Hp _]. auto.
Qed.

Lemma replace_value self `{!Contract self} idx pos_new s old :
  pop s !! idx = Some old ->
  evaluate_and_replace self idx pos_new s =
  (Ok tt, mkState (<[idx := slot_after self pos_new old]> (pop s)) (g_best s) (rng s)).
Proof.
  intros Hold. unfold evaluate_and_replace, mbind, M_bind, bind, get_pop, getitem, set_pop.
  rewrite Hold. simpl.
  destruct (decide (idx < length (pop s))%nat) as [_|Hn].
  - rewrite better_spec. reflexivity.
  - exfalso. apply Hn. eapply lookup_lt_Some, Hold.
Qed.

Lemma amend_append_replace_value self `{!Contract self} idx raw pop_new s old r s' :
  pop s !! idx = Some old ->
  (pos_new ← amend self raw;
   evaluate_and_replace self idx pos_new;;
   mret (pop_new ++ [pos_new])) s = (Ok r, s') ->
  exists pos, r = pop_new ++ [pos] /\
              pop s' = <[idx := slot_after self pos old]> (pop s).
Proof.
  intros Hold H.
  unfold amend, with_rng, mbind at 1, M_bind at 1, bind at 1 in H.
  destruct (amend_position self raw (lb self) (ub self) (rng s)) as [pos r1].
  unfold mbind, M_bind, bind in H.
  rewrite (replace_value self idx pos _ old) in H by exact Hold.
  simpl in H. inversion H; subst. exists pos. auto.
Qed.

(** Peel the statements of an iteration that only read the population,
    up to the call to [amend_position]. *)
Ltac peel H :=
  repeat lazymatch type of H with
    | (mbind _ (amend _ _)) _ = _ => fail
    | (mbind _ _) ?s0 = _ =>
        apply reads_bind_inv in H; [| solve [reads (pop s0)]];
        let Hp := fresh "Hp" in
        destruct H as (? & ? & _ & Hp & H);
        rewrite <- Hp in *; clear Hp
    end.

Lemma BaseGWO_step_incremental self `{!Contract self} a list_best idx pop_new s old r s' :
  mode_in_AVAILABLE_MODES self = false ->
  pop s !! idx = Some old ->
  BaseGWO.step self a list_best idx pop_new s = (Ok r, s') ->
  exists pos, r = pop_new ++ [pos] /\
              pop s' = <[idx := slot_after self pos old]> (pop s).
Proof.
  intros Hmode Hold H. unfold BaseGWO.step, np_random_uniform in H.
  rewrite Hmode in H. peel H. eapply amend_append_replace_value; eassumption.
Qed.

Lemma RW_GWO_step_incremental self `{!Contract self} b leaders idx pop_new s old r s' :
  mode_in_AVAILABLE_MODES self = false ->
  pop s !! idx = Some old ->
  RW_GWO.step self b leaders idx pop_new s = (Ok r, s') ->
  exists pos, r = pop_new ++ [pos] /\
              pop s' = <[idx := slot_after self pos old]> (pop s).
Proof.
  intros Hmode Hold H. unfold RW_GWO.step, np_random_uniform in H.
  rewrite Hmode in H. peel H. eapply amend_append_replace_value; eassumption.
Qed.

Lemma hybrid_body_incremental self `{!Contract self}
    (whale : M ndarray) list_best k idx pop_new s old r s' :
  maintains (pop_is (pop s)) whale (fun _ => True) ->
  mode_in_AVAILABLE_MODES self = false ->
  pop s !! idx = Some old ->
  (pop_new ← (if Qlt_bool (c_p k) (1 # 2) then
                 whale;; mret pop_new
               else
                 pos_new ← GWO_WOA_M.wolves list_best k idx;
                 pos_new ← amend self pos_new;
                 let pop_new := pop_new ++ [pos_new] in
                 (if mode_in_AVAILABLE_MODES self then mret tt
                  else evaluate_and_replace self idx pos_new);;
                 mret pop_new);
   if mode_in_AVAILABLE_MODES self
   then evaluated ← evaluate_and_merge self pop_new; mret (map ID_POS evaluated)
   else mret pop_new) s = (Ok r, s') ->
  (Qlt_bool (c_p k) (1 # 2) = true /\ r = pop_new /\ pop s' = pop s) \/
  (Qlt_bool (c_p k) (1 # 2) = false /\
   exists pos, r = pop_new ++ [pos] /\
               pop s' = <[idx := slot_after self pos old]> (pop s)).
Proof.
  intros Hw Hmode Hold H.
  destruct (Qlt_bool (c_p k) (1 # 2)) eqn:Hp.
  - left. rewrite Hmode in H. rewrite bind_ret_right in H.
    destruct (dropped_position whale pop_new s Hw) as [H1 H2].
    rewrite H in H1, H2. simpl in H1, H2. auto.
  - right. split; [reflexivity |].
    rewrite Hmode in H. rewrite bind_ret_right in H.
    unfold GWO_WOA_M.wolves in H. peel H.
    eapply amend_append_replace_value; eassumption.
Qed.

Lemma GWO_WOA_M_step_incremental self `{!Contract self}
    a a2 list_best idx pop_new s old r s' :
  mode_in_AVAILABLE_MODES self = false ->
  pop s !! idx = Some old ->
  GWO_WOA_M.step self a a2 list_best idx pop_new s = (Ok r, s') ->
  (r = pop_new /\ pop s' = pop s) \/
  (exists pos, r = pop_new ++ [pos] /\
               pop s' = <[idx := slot_after self pos old]> (pop s)).
Proof.
  intros Hmode Hold H. unfold GWO_WOA_M.step in H.
  apply reads_bind_inv in H; [| apply GWO_WOA_M_draw_reads].
  destruct H as (k & s1 & _ & Hp & H). rewrite <- Hp in *.
  unfold GWO_WOA_M.body in H.
  eapply hybrid_body_incremental in H; try eassumption.
  - destruct H as [(_ & H)|(_ & H)]; [left | right]; exact H.
  - apply GWO_WOA_M_whale_reads.
Qed.

Lemma GWO_WOA_O_step_incremental self `{!Contract self}
    a list_best idx pop_new s old r s' :
  mode_in_AVAILABLE_MODES self = false ->
  pop s !! idx = Some old ->
  GWO_WOA_O.step self a list_best idx pop_new s = (Ok r, s') ->
  (r = pop_new /\ pop s' = pop s) \/
  (exists pos, r = pop_new ++ [pos] /\
               pop s' = <[idx := slot_after self pos old]> (pop s)).
Proof.
  intros Hmode Hold H. unfold GWO_WOA_O.step in H.
  apply reads_bind_inv in H; [| apply GWO_WOA_O_draw_reads].
  destruct H as (k & s1 & _ & Hp & H). rewrite <- Hp in *.
  unfold GWO_WOA_O.body in H.
  eapply hybrid_body_incremental in H; try eassumption.
  - destruct H as [(_ & H)|(_ & H)]; [left | right]; exact H.
  - apply GWO_WOA_O_whale_reads.
Qed.

(** In incremental mode, an iteration for slot [idx] that returns has
    either left the population alone (the hybrids' branch [p < 0.5]) or
    has appended one repaired position [pos] to [pop_new] and left in
    slot [idx] the result of
    [get_better_solution([pos, target], incumbent)], the candidate being
    the first argument.  Under the contract "the fitter of the two, the
    first argument on an exact tie", the slot keeps the incumbent exactly
    when the incumbent is strictly fitter. *)
Lemma incremental_iteration_slot (self : Optimizer) (idx : nat)
    (pop_new : list ndarray) (s : State) (old : solution) :
  Contract self ->
  mode_in_AVAILABLE_MODES self = false ->
  pop s !! idx = Some old ->
  (forall pos,
     (fitter self (ID_TAR old) (get_target_wrapper self pos) = true ->
      slot_after self pos old = old) /\
     (fitter self (ID_TAR old) (get_target_wrapper self pos) = false ->
      slot_after self pos old = Solution pos (get_target_wrapper self pos))) /\
  (forall a list_best r s',
     BaseGWO.step self a list_best idx pop_new s = (Ok r, s') ->
     exists pos, r = pop_new ++ [pos] /\
                 pop s' = <[idx := slot_after self pos old]> (pop s)) /\
  (forall b leaders r s',
     RW_GWO.step self b leaders idx pop_new s = (Ok r, s') ->
     exists pos, r = pop_new ++ [pos] /\
                 pop s' = <[idx := slot_after self pos old]> (pop s)) /\
  (forall a a2 list_best r s',
     GWO_WOA_M.step self a a2 list_best idx pop_new s = (Ok r, s') ->
     (r = pop_new /\ pop s' = pop s) \/
     (exists pos, r = pop_new ++ [pos] /\
                  pop s' = <[idx := slot_after self pos old]> (pop s))) /\
  (forall a list_best r s',
     GWO_WOA_O.step self a list_best idx pop_new s = (Ok r, s') ->
     (r = pop_new /\ pop s' = pop s) \/
     (exists pos, r = pop_new ++ [pos] /\
                  pop s' = <[idx := slot_after self pos old]> (pop s))).
Proof.
  intros HC Hmode Hold. split; [| split; [| split; [| split]]].
  - intros pos. unfold slot_after. simpl.
    split; intros ->; reflexivity.
  - intros. eapply BaseGWO_step_incremental; eassumption.
  - intros. eapply RW_GWO_step_incremental; eassumption.
  - intros. eapply GWO_WOA_M_step_incremental; eassumption.
  - intros. eapply GWO_WOA_O_step_incremental; eassumption.
Qed.

Lemma whale_branch_leaves_population_witness :
  mode_in_AVAILABLE_MODES (Demo.optimizer 10 false) = false /\
  pop (GWO_WOA_M.step (Demo.optimizer 10 false) (4 # 3) (-43 # 10)
         (get_special_solutions (Demo.optimizer 10 false) Demo.wolves)
         0 [] Demo.state).2 = pop Demo.state.
Proof.
  split; [reflexivity |].
  destruct (whale_branch_leaves_population (Demo.optimizer 10 false) (4 # 3) (-43 # 10)
              (get_special_solutions (Demo.optimizer 10 false) Demo.wolves)
              0 [] Demo.state eq_refl)
    as [(k & s1 & E & _ & _ & Hlow & _) _].
  apply Hlow. vm_compute in E. injection E as <- _. reflexivity.
Defined.

(** *** The batch block of the hybrids

    In [GWO_WOA_M.evolve] and [GWO_WOA_O.evolve] the batch block sits
    inside the loop.  At the end of the first iteration [pop_new] holds at
    most one candidate, so the positional merge is asked to merge it with
    the whole population; a base class that rejects such a call makes the
    epoch raise, the population being still untouched. *)

Lemma bind_raise_run {A B} (m : M A) (k : A -> M B) s e s' :
  m s = (Raise e, s') -> (m ≫= k) s = (Raise e, s').
Proof. intros E. unfold mbind, M_bind, bind. rewrite E. reflexivity. Qed.

Lemma merge_rejected self `{!Contract self} pop_new s :
  rejects_mismatch self ->
  length (pop s) <> length pop_new ->
  exists e, evaluate_and_merge self pop_new s = (Raise e, s).
Proof.
  intros Hrej Hlen. unfold evaluate_and_merge.
  rewrite bind_read_pop.
  destruct (Hrej (pop s) (update_target_wrapper_population self pop_new)) as [e E].
  { rewrite update_target_spec, length_map. exact Hlen. }
  exists e. apply bind_raise_run. unfold lift_result. rewrite E. reflexivity.
Qed.

Lemma hybrid_body_batch_rejected self `{!Contract self}
    (whale : M ndarray) list_best k idx s :
  rejects_mismatch self ->
  mode_in_AVAILABLE_MODES self = true ->
  maintains (pop_is (pop s)) whale (fun _ => True) ->
  (2 <= length (pop s))%nat ->
  exists e s',
    (pop_new ← (if Qlt_bool (c_p k) (1 # 2) then
                   whale;; mret []
                 else
                   pos_new ← GWO_WOA_M.wolves list_best k idx;
                   pos_new ← amend self pos_new;
                   let pop_new := [] ++ [pos_new] in
                   (if mode_in_AVAILABLE_MODES self then mret tt
                    else evaluate_and_replace self idx pos_new);;
                   mret pop_new);
     if mode_in_AVAILABLE_MODES self
     then evaluated ← evaluate_and_merge self pop_new; mret (map ID_POS evaluated)
     else mret pop_new) s = (Raise e, s') /\ pop s' = pop s.
Proof.
  intros Hrej Hmode Hw Hlen. rewrite Hmode.
  match goal with
  | |- context [(mbind ?k0 ?m0) s] =>
      assert (maintains (pop_is (pop s)) m0 (fun pn => (length pn <= 1)%nat)) as Hfirst;
      [| specialize (Hfirst s eq_refl);
         unfold mbind at 1, M_bind at 1, bind at 1;
         destruct (m0 s) as [[pn|e] s1] ]
  end.
  - apply maintains_if.
    + apply maintains_bind with (P := fun _ => True); [exact Hw |].
      intros _ _. apply maintains_ret. simpl. lia.
    + apply maintains_bind with (P := fun _ => True).
      { unfold GWO_WOA_M.wolves. reads (pop s). }
      intros raw _. apply maintains_bind with (P := fun _ => True).
      { unfold amend. reads (pop s). }
      intros pos _. apply maintains_bind with (P := fun _ => True).
      { apply maintains_ret. exact Logic.I. }
      intros _ _. apply maintains_ret. simpl. lia.
  - destruct Hfirst as [Hp Hpn]. unfold pop_is in Hp.
    destruct (merge_rejected self pn s1 Hrej) as [e E]; [rewrite Hp; lia |].
    exists e, s1. split; [| exact Hp].
    apply bind_raise_run, E.
  - exists e, s1. split; [reflexivity | exact Hfirst].
Qed.

Lemma GWO_WOA_M_batch_epoch_raises self `{!Contract self} t s :
  rejects_mismatch self ->
  mode_in_AVAILABLE_MODES self = true ->
  (1 < epoch self)%Z ->
  (2 <= pop_size self)%nat ->
  length (pop s) = pop_size self ->
  exists e s', GWO_WOA_M.evolve self t s = (Raise e, s') /\ pop s' = pop s.
Proof.
  intros Hrej Hmode HT Hsize Hlen. unfold GWO_WOA_M.evolve.
  rewrite (bind_run _ _ _ _ _ (linear_decay_defined self t s HT)).
  unfold py_truediv. destruct (Z.eqb_spec (epoch self) 0) as [E0|_]; [lia |].
  unfold lift_result at 1, mbind at 1, M_bind at 1, bind at 1.
  rewrite bind_read_pop.
  destruct (pop_size self) as [|n] eqn:En; [lia |].
  unfold range. cbn [seq for_range].
  set (a := Spec.linear_decay t (epoch self)).
  set (a2 := -1 + inject_Z t * (inject_Z (-1) / inject_Z (epoch self) - 1)).
  destruct (GWO_WOA_M_draw_returns a a2 s) as (k & s1 & Ed).
  pose proof (GWO_WOA_M_draw_reads a a2 (pop s) s eq_refl) as Hd.
  rewrite Ed in Hd. destruct Hd as [Hp _]. unfold pop_is in Hp.
  destruct (hybrid_body_batch_rejected self
              (GWO_WOA_M.whale self k 0) (get_special_solutions self (pop s))
              k 0%nat s1 Hrej Hmode) as (e & s' & E & Hp').
  { rewrite Hp. apply GWO_WOA_M_whale_reads. }
  { rewrite Hp. lia. }
  exists e, s'. split; [| congruence].
  apply bind_raise_run, bind_raise_run.
  unfold GWO_WOA_M.step. rewrite (bind_run _ _ _ _ _ Ed). exact E.
Qed.

Example demo_batch_hybrids_raise :
  (GWO_WOA_M.evolve (Demo.optimizer 10 true) 3 Demo.state).1 = Raise ValueError /\
  (GWO_WOA_O.evolve (Demo.optimizer 10 true) 3 Demo.state).1 = Raise ValueError.
Proof. vm_compute. split; reflexivity. Qed.

(** * Further properties of the four strategies *)

(** *** Reasoning about normal termination *)

Section Completes.
Context (I : State -> Prop).

Lemma completes_ret {A} (a : A) (Q : A -> Prop) : Q a -> completes I (mret a) Q.
Proof. intros Ha s Hs. exists a, s. auto. Qed.

Lemma completes_bind {A B} (m : M A) (k : A -> M B) (P : A -> Prop) (Q : B -> Prop) :
  completes I m P ->
  (forall a, P a -> completes I (k a) Q) ->
  completes I (m ≫= k) Q.
Proof.
  intros Hm Hk s Hs. destruct (Hm s Hs) as (a & s1 & E & H1 & Ha).
  destruct (Hk a Ha s1 H1) as (b & s2 & E2 & H2 & Hb).
  exists b, s2. split; [| auto].
  unfold mbind, M_bind, bind. rewrite E. exact E2.
Qed.

Lemma completes_weaken {A} (m : M A) (P Q : A -> Prop) :
  completes I m P -> (forall a, P a -> Q a) -> completes I m Q.
Proof.
  intros Hm HPQ s Hs. destruct (Hm s Hs) as (a & s1 & E & H1 & Ha). eauto 6.
Qed.

Lemma completes_lift_result {A} (r : result A) (a : A) (Q : A -> Prop) :
  r = Ok a -> Q a -> completes I (lift_result r) Q.
Proof. intros -> Ha s Hs. exists a, s. auto. Qed.

Lemma completes_with_rng {A} (f : RandomState -> A * RandomState) (Q : A -> Prop) :
  rng_blind I -> (forall r, Q (f r).1) -> completes I (with_rng f) Q.
Proof.
  intros Hb HQ s Hs. unfold with_rng. specialize (HQ (rng s)).
  destruct (f (rng s)) as [a r']. do 2 eexists. split; [reflexivity |].
  split; [| exact HQ]. destruct s as [p g r]. simpl. eapply Hb, Hs.
Qed.

Lemma completes_getitem {A} (l : list A) (i : nat) (x : A) (Q : A -> Prop) :
  l !! i = Some x -> Q x -> completes I (getitem l i) Q.
Proof.
  intros E Hx s Hs. unfold getitem. rewrite E. exists x, s. auto.
Qed.

Lemma completes_get_pop (idx : nat) (Q : solution -> Prop) :
  (forall s, I s -> exists x, pop s !! idx = Some x /\ Q x) ->
  completes I (get_pop idx) Q.
Proof.
  intros H s Hs. destruct (H s Hs) as (x & E & Hx).
  unfold get_pop, getitem. rewrite E. exists x, s. auto.
Qed.

Lemma completes_read_pop (Q : list solution -> Prop) :
  (forall s, I s -> Q (pop s)) -> completes I read_pop Q.
Proof. intros H s Hs. exists (pop s), s. auto. Qed.

Lemma completes_get_g_best (Q : solution -> Prop) :
  (forall s, I s -> Q (g_best s)) -> completes I get_g_best Q.
Proof. intros H s Hs. exists (g_best s), s. auto. Qed.

Lemma completes_set_pop (idx : nat) (x : solution) :
  (forall s, I s -> (idx < length (pop s))%nat /\
                    I (mkState (<[idx := x]> (pop s)) (g_best s) (rng s))) ->
  completes I (set_pop idx x) (fun _ => True).
Proof.
  intros H s Hs. destruct (H s Hs) as [Hlt Hs'].
  unfold set_pop. destruct (decide _); [| contradiction].
  do 2 eexists. eauto.
Qed.

Lemma completes_assign_pop (l : list solution) :
  (forall s, I s -> I (mkState l (g_best s) (rng s))) ->
  completes I (assign_pop l) (fun _ => True).
Proof. intros H s Hs. do 2 eexists. split; [reflexivity | auto]. Qed.

Lemma completes_if {A} (c : bool) (m1 m2 : M A) (Q : A -> Prop) :
  completes I m1 Q -> completes I m2 Q -> completes I (if c then m1 else m2) Q.
Proof. destruct c; auto. Qed.

(** A loop over [start, start + len) with an invariant indexed by the
    next index. *)
Lemma completes_seq {B} (body : nat -> B -> M B) (Qn : nat -> B -> Prop)
    (start len : nat) (acc : B) :
  (forall i b, (start <= i < start + len)%nat -> Qn i b ->
               completes I (body i b) (Qn (S i))) ->
  Qn start acc ->
  completes I (for_range (seq start len) body acc) (Qn (start + len)%nat).
Proof.
  revert start acc. induction len as [|len IH]; intros start acc Hbody Hacc; simpl.
  - rewrite Nat.add_0_r. apply completes_ret, Hacc.
  - eapply completes_bind.
    + apply Hbody; [lia | exact Hacc].
    + intros b Hb. rewrite <- Nat.add_succ_comm. apply IH; [| exact Hb].
      intros i b' Hi. apply Hbody. lia.
Qed.

End Completes.

(** Decompose a computation that cannot raise, nothing being asked of the
    intermediate values; [last] closes the postcondition of the value
    returned at the end. *)
Ltac complete_with blind extra last :=
  repeat first
    [ extra
    | match goal with
      | |- completes _ (if _ then _ else _) _ => apply completes_if
      | |- completes _ (let (_, _) := ?x in _) _ => destruct x
      | |- completes _ (mbind _ _) _ =>
          apply completes_bind with (P := fun _ => True); [| intros ? _]
      | |- completes _ (mret _) _ =>
          apply completes_ret; first [exact Logic.I | last]
      | |- completes _ (with_rng _) _ =>
          apply completes_with_rng; [apply blind | intros; exact Logic.I]
      | |- completes _ (getitem _ _) _ =>
          eapply completes_getitem; [reflexivity | exact Logic.I]
      | |- completes _ read_pop _ =>
          apply completes_read_pop; intros; exact Logic.I
      | |- completes _ get_g_best _ =>
          apply completes_get_g_best; intros; exact Logic.I
      end ].

(** *** Epochs that raise nothing *)

Lemma replace_completes self n idx pos_new :
  (idx < n)%nat ->
  completes (has_size n) (evaluate_and_replace self idx pos_new) (fun _ => True).
Proof.
  intros Hidx. unfold evaluate_and_replace.
  apply completes_bind with (P := fun _ => True).
  - apply completes_get_pop. intros s Hs. unfold has_size in Hs.
    destruct (lookup_lt_is_Some_2 (pop s) idx) as [x Hx]; [lia | eauto].
  - intros old _. apply completes_set_pop. intros s Hs. unfold has_size in *.
    simpl. rewrite length_insert. split; [lia | exact Hs].
Qed.

Lemma merge_completes self `{!Contract self} n pop_new :
  length pop_new = n ->
  completes (has_size n) (evaluate_and_merge self pop_new) (fun _ => True).
Proof.
  intros Hnew s Hs. unfold has_size in Hs.
  unfold evaluate_and_merge. rewrite bind_read_pop.
  assert (length (pop s) = length (update_target_wrapper_population self pop_new)) as Hlen.
  { rewrite update_target_spec, length_map. congruence. }
  unfold mbind, M_bind, bind, lift_result. rewrite (greedy_same_length _ _ Hlen). simpl.
  do 2 eexists. split; [reflexivity |]. split; [| exact Logic.I].
  unfold has_size. simpl. rewrite length_zip_with. lia.
Qed.

Ltac completes_size :=
  complete_with has_size_rng_blind
    ltac:(idtac; match goal with
          | |- completes _ (evaluate_and_replace _ _ _) _ =>
              apply replace_completes; assumption
          | |- completes (has_size ?n) (get_pop ?idx) _ =>
              apply completes_get_pop;
              let s := fresh "s" in let Hs := fresh "Hs" in
              intros s Hs; unfold has_size in Hs;
              destruct (lookup_lt_is_Some_2 (pop s) idx) as [? ?]; [lia | eauto]
          end)
    ltac:(rewrite length_app; simpl; lia).

Lemma BaseGWO_step_completes self a L1 L2 L3 idx pop_new :
  (idx < pop_size self)%nat ->
  completes (has_size (pop_size self))
    (BaseGWO.step self a [L1; L2; L3] idx pop_new)
    (fun r => length r = S (length pop_new)).
Proof.
  intros Hidx. unfold BaseGWO.step, np_random_uniform, amend. completes_size.
Qed.

Lemma RW_GWO_step_completes self b L1 L2 L3 idx pop_new :
  (idx < pop_size self)%nat ->
  completes (has_size (pop_size self))
    (RW_GWO.step self b [L1; L2; L3] idx pop_new)
    (fun r => length r = S (length pop_new)).
Proof.
  intros Hidx. unfold RW_GWO.step, np_random_uniform, amend. completes_size.
Qed.
Lemma completes_pure {A} (I : State -> Prop) (m : M A) (a : A) (Q : A -> Prop) :
  (forall s, m s = (Ok a, s)) -> Q a -> completes I m Q.
Proof. intros E Ha s Hs. exists a, s. auto. Qed.

Lemma batch_tail_completes self `{!Contract self} pop_new :
  length pop_new = pop_size self ->
  completes (has_size (pop_size self))
    (if mode_in_AVAILABLE_MODES self
     then evaluate_and_merge self pop_new;; mret tt
     else mret tt)
    (fun _ => True).
Proof.
  intros Hnew. apply completes_if; [| apply completes_ret; exact Logic.I].
  apply completes_bind with (P := fun _ => True).
  - apply merge_completes; assumption.
  - intros _ _. apply completes_ret. exact Logic.I.
Qed.

Lemma BaseGWO_completes self `{!Contract self} t :
  (1 < epoch self)%Z ->
  (3 <= pop_size self)%nat ->
  completes (has_size (pop_size self)) (BaseGWO.evolve self t) (fun _ => True).
Proof.
  intros HT Hsize. unfold BaseGWO.evolve.
  apply completes_bind with (P := fun _ => True).
  { eapply completes_pure; [intros s; apply linear_decay_defined, HT | exact Logic.I]. }
  intros a _.
  apply completes_bind with (P := fun p => length p = pop_size self).
  { apply completes_read_pop. auto. }
  intros p Hp.
  destruct (three_leaders self p) as (L1 & L2 & L3 & E); [lia |]. rewrite E.
  apply completes_bind with (P := fun r => length r = pop_size self).
  - apply (completes_seq _ _ (fun i r => length r = i) 0 (pop_size self) []);
      [| reflexivity].
    intros i b Hi Hb. eapply completes_weaken.
    + apply BaseGWO_step_completes. lia.
    + intros r Hr. simpl in Hr. lia.
  - intros pop_new Hnew. apply batch_tail_completes; assumption.
Qed.

(** X1. [BaseGWO.evolve] raises nothing, in either mode, when
    [self.epoch > 1] and the population holds [pop_size >= 3] wolves; the
    population it leaves has [pop_size] members. *)
Theorem BaseGWO_evolve_returns (self : Optimizer) (t : Z) (s : State) :
  Contract self ->
  (1 < epoch self)%Z ->
  (3 <= pop_size self)%nat ->
  length (pop s) = pop_size self ->
  exists s', BaseGWO.evolve self t s = (Ok tt, s') /\
             length (pop s') = pop_size self.
Proof.
  intros HC HT Hsize Hlen.
  destruct (BaseGWO_completes self t HT Hsize s Hlen) as ([] & s' & E & Hs' & _).
  exists s'. auto.
Qed.
Lemma RW_GWO_walk_completes self a i acc n :
  (i < length acc.1)%nat ->
  completes (has_size n) (RW_GWO.walk self a i acc)
    (fun acc' => length acc'.1 = length acc.1 /\ length acc'.2 = S (length acc.2)).
Proof.
  destruct acc as [leaders leaders_new]. simpl. intros Hi.
  destruct (lookup_lt_is_Some_2 leaders i Hi) as [Li E].
  unfold RW_GWO.walk, np_random_standard_cauchy, amend.
  apply completes_bind with (P := fun _ => True).
  { eapply completes_getitem; [exact E | exact Logic.I]. }
  intros Li0 _.
  apply completes_bind with (P := fun _ => True).
  { apply completes_with_rng; [apply has_size_rng_blind | intros; exact Logic.I]. }
  intros z _.
  apply completes_bind with (P := fun _ => True).
  { apply completes_with_rng; [apply has_size_rng_blind | intros; exact Logic.I]. }
  intros pos _.
  apply completes_if.
  - apply completes_ret. simpl. rewrite length_app. simpl. lia.
  - apply completes_bind with (P := fun _ => True).
    { eapply completes_getitem; [exact E | exact Logic.I]. }
    intros Li' _. apply completes_ret. simpl.
    rewrite length_insert, length_app. simpl. lia.
Qed.

Lemma sort_and_trim_completes self `{!Contract self} leaders :
  completes (has_size (pop_size self)) (RW_GWO.sort_and_trim self leaders)
    (fun _ => True).
Proof.
  unfold RW_GWO.sort_and_trim.
  apply completes_bind with (P := fun p => length p = pop_size self).
  { apply completes_read_pop. auto. }
  intros p Hp. apply completes_assign_pop. intros s _.
  unfold has_size. simpl. rewrite strim_length, length_app. lia.
Qed.

Lemma RW_GWO_completes self `{!Contract self} t :
  (1 < epoch self)%Z ->
  (3 <= pop_size self)%nat ->
  completes (has_size (pop_size self)) (RW_GWO.evolve self t) (fun _ => True).
Proof.
  intros HT Hsize. unfold RW_GWO.evolve.
  apply completes_bind with (P := fun _ => True).
  { eapply completes_pure; [intros s; apply linear_decay_defined, HT | exact Logic.I]. }
  intros b _.
  apply completes_bind with (P := fun _ => True).
  { eapply completes_pure; [intros s; apply linear_decay_defined, HT | exact Logic.I]. }
  intros a _.
  apply completes_bind with (P := fun p => length p = pop_size self).
  { apply completes_read_pop. auto. }
  intros p Hp.
  destruct (three_leaders self p) as (L1 & L2 & L3 & E); [lia |]. rewrite E.
  apply completes_bind
    with (P := fun acc => length acc.1 = 3%nat /\ length acc.2 = 3%nat).
  { apply (completes_seq _ _
             (fun i acc => length acc.1 = 3%nat /\ length acc.2 = i) 0 3
             ([L1; L2; L3], [])); [| auto].
    intros i acc Hi [H1 H2]. eapply completes_weaken.
    - apply RW_GWO_walk_completes. lia.
    - intros acc' [H1' H2']. split; congruence. }
  intros [leaders leaders_new] [Hl Hn]. simpl in Hl, Hn.
  apply completes_bind with (P := fun l => length l = 3%nat).
  { apply completes_if; [| apply completes_ret, Hl].
    eapply completes_lift_result.
    - apply greedy_same_length. rewrite update_target_spec, length_map. congruence.
    - rewrite length_zip_with, update_target_spec, length_map. lia. }
  intros leaders' Hl'.
  destruct leaders' as [|R1 [|R2 [|R3 [|R4 l]]]]; try discriminate.
  apply completes_bind with (P := fun r => length r = pop_size self).
  { apply (completes_seq _ _ (fun i r => length r = i) 0 (pop_size self) []);
      [| reflexivity].
    intros i b0 Hi Hb0. eapply completes_weaken.
    - apply RW_GWO_step_completes. lia.
    - intros r Hr. simpl in Hr. lia. }
  intros pop_new Hnew.
  apply completes_bind with (P := fun _ => True).
  { apply batch_tail_completes; assumption. }
  intros _ _. apply sort_and_trim_completes; assumption.
Qed.

(** X2. [RW_GWO.evolve] raises nothing, in either mode, when
    [self.epoch > 1] and the population holds [pop_size >= 3] wolves: the
    three leaders exist for the random walk and for the update, and the
    two merges are between lists of equal sizes. *)
Theorem RW_GWO_evolve_returns (self : Optimizer) (t : Z) (s : State) :
  Contract self ->
  (1 < epoch self)%Z ->
  (3 <= pop_size self)%nat ->
  length (pop s) = pop_size self ->
  exists s', RW_GWO.evolve self t s = (Ok tt, s') /\
             length (pop s') = pop_size self.
Proof.
  intros HC HT Hsize Hlen.
  destruct (RW_GWO_completes self t HT Hsize s Hlen) as ([] & s' & E & Hs' & _).
  exists s'. auto.
Qed.
Lemma GWO_WOA_M_step_completes self a a2 L1 L2 L3 idx pop_new :
  mode_in_AVAILABLE_MODES self = false ->
  (idx < pop_size self)%nat ->
  completes (has_size (pop_size self))
    (GWO_WOA_M.step self a a2 [L1; L2; L3] idx pop_new) (fun _ => True).
Proof.
  intros Hmode Hidx.
  unfold GWO_WOA_M.step, GWO_WOA_M.body, GWO_WOA_M.draw, GWO_WOA_M.whale,
    GWO_WOA_M.wolves, np_random_uniform, np_random_rand, amend.
  rewrite Hmode. completes_size.
Qed.

Lemma GWO_WOA_O_step_completes self a L1 L2 L3 idx pop_new :
  mode_in_AVAILABLE_MODES self = false ->
  (idx < pop_size self)%nat ->
  completes (has_size (pop_size self))
    (GWO_WOA_O.step self a [L1; L2; L3] idx pop_new) (fun _ => True).
Proof.
  intros Hmode Hidx.
  unfold GWO_WOA_O.step, GWO_WOA_O.body, GWO_WOA_O.draw, GWO_WOA_O.whale,
    GWO_WOA_M.wolves, np_random_uniform, np_random_rand, np_random_uniform_in, amend.
  rewrite Hmode. completes_size.
Qed.

Lemma completes_loop {B} (I : State -> Prop) (body : nat -> B -> M B) (n : nat) (acc : B) :
  (forall i b, (i < n)%nat -> completes I (body i b) (fun _ => True)) ->
  completes I (for_range (range n) body acc) (fun _ => True).
Proof.
  intros H. apply (completes_seq I body (fun _ _ => True) 0 n acc); [| exact Logic.I].
  intros i b Hi _. apply H. lia.
Qed.

Lemma GWO_WOA_M_completes self `{!Contract self} t :
  mode_in_AVAILABLE_MODES self = false ->
  (1 < epoch self)%Z ->
  (3 <= pop_size self)%nat ->
  completes (has_size (pop_size self)) (GWO_WOA_M.evolve self t) (fun _ => True).
Proof.
  intros Hmode HT Hsize. unfold GWO_WOA_M.evolve.
  apply completes_bind with (P := fun _ => True).
  { eapply completes_pure; [intros s; apply linear_decay_defined, HT | exact Logic.I]. }
  intros a _.
  apply completes_bind with (P := fun _ => True).
  { unfold py_truediv. destruct (Z.eqb_spec (epoch self) 0) as [E0|_]; [lia |].
    eapply completes_lift_result; [reflexivity | exact Logic.I]. }
  intros q _.
  apply completes_bind with (P := fun p => length p = pop_size self).
  { apply completes_read_pop. auto. }
  intros p Hp.
  destruct (three_leaders self p) as (L1 & L2 & L3 & E); [lia |]. rewrite E.
  apply completes_bind with (P := fun _ => True).
  - apply completes_loop. intros i b Hi. apply GWO_WOA_M_step_completes; assumption.
  - intros _ _. apply completes_ret. exact Logic.I.
Qed.

Lemma GWO_WOA_O_completes self `{!Contract self} t :
  mode_in_AVAILABLE_MODES self = false ->
  (0 < epoch self)%Z ->
  (3 <= pop_size self)%nat ->
  completes (has_size (pop_size self)) (GWO_WOA_O.evolve self t) (fun _ => True).
Proof.
  intros Hmode HT Hsize. unfold GWO_WOA_O.evolve, GWO_WOA_O.decay.
  apply completes_bind with (P := fun _ => True).
  { unfold py_truediv. destruct (Z.eqb_spec (2 * epoch self) 0) as [E0|_]; [lia |].
    apply completes_bind with (P := fun _ => True).
    - eapply completes_lift_result; [reflexivity | exact Logic.I].
    - intros q _. apply completes_ret. exact Logic.I. }
  intros a _.
  apply completes_bind with (P := fun p => length p = pop_size self).
  { apply completes_read_pop. auto. }
  intros p Hp.
  destruct (three_leaders self p) as (L1 & L2 & L3 & E); [lia |]. rewrite E.
  apply completes_bind with (P := fun _ => True).
  - apply completes_loop. intros i b Hi. apply GWO_WOA_O_step_completes; assumption.
  - intros _ _. apply completes_ret. exact Logic.I.
Qed.

(** X3. In incremental mode [GWO_WOA_M.evolve] raises nothing when
    [self.epoch > 1], the population holds [pop_size >= 3] wolves: every
    index of the loop and the three leaders exist. *)
Theorem GWO_WOA_M_incremental_evolve_returns (self : Optimizer) (t : Z) (s : State) :
  Contract self ->
  mode_in_AVAILABLE_MODES self = false ->
  (1 < epoch self)%Z ->
  (3 <= pop_size self)%nat ->
  length (pop s) = pop_size self ->
  exists s', GWO_WOA_M.evolve self t s = (Ok tt, s') /\
             length (pop s') = pop_size self.
Proof.
  intros HC Hmode HT Hsize Hlen.
  destruct (GWO_WOA_M_completes self t Hmode HT Hsize s Hlen) as ([] & s' & E & Hs' & _).
  exists s'. auto.
Qed.

(** X4. In incremental mode [GWO_WOA_O.evolve] raises nothing for every
    [self.epoch >= 1], the single epoch included: its decay divides by
    [2 * self.epoch], never by [self.epoch - 1]. *)
Theorem GWO_WOA_O_incremental_evolve_returns (self : Optimizer) (t : Z) (s : State) :
  Contract self ->
  mode_in_AVAILABLE_MODES self = false ->
  (0 < epoch self)%Z ->
  (3 <= pop_size self)%nat ->
  length (pop s) = pop_size self ->
  exists s', GWO_WOA_O.evolve self t s = (Ok tt, s') /\
             length (pop s') = pop_size self.
Proof.
  intros HC Hmode HT Hsize Hlen.
  destruct (GWO_WOA_O_completes self t Hmode HT Hsize s Hlen) as ([] & s' & E & Hs' & _).
  exists s'. auto.
Qed.

Lemma BaseGWO_evolve_returns_witness :
  exists s', BaseGWO.evolve (Demo.optimizer 10 true) 3 Demo.state = (Ok tt, s') /\
             length (pop s') = 10%nat.
Proof.
  apply (BaseGWO_evolve_returns (Demo.optimizer 10 true) 3 Demo.state).
  - apply demo_contract.
  - reflexivity.
  - simpl. lia.
  - reflexivity.
Defined.

Lemma RW_GWO_evolve_returns_witness :
  exists s', RW_GWO.evolve (Demo.optimizer 10 true) 3 Demo.state = (Ok tt, s') /\
             length (pop s') = 10%nat.
Proof.
  apply (RW_GWO_evolve_returns (Demo.optimizer 10 true) 3 Demo.state).
  - apply demo_contract.
  - reflexivity.
  - simpl. lia.
  - reflexivity.
Defined.

Lemma GWO_WOA_M_incremental_evolve_returns_witness :
  exists s', GWO_WOA_M.evolve (Demo.optimizer 10 false) 3 Demo.state = (Ok tt, s') /\
             length (pop s') = 10%nat.
Proof.
  apply (GWO_WOA_M_incremental_evolve_returns (Demo.optimizer 10 false) 3 Demo.state).
  - apply demo_contract.
  - reflexivity.
  - reflexivity.
  - simpl. lia.
  - reflexivity.
Defined.

Lemma GWO_WOA_O_incremental_evolve_returns_witness :
  exists s', GWO_WOA_O.evolve (Demo.optimizer 1 false) 0 Demo.state = (Ok tt, s') /\
             length (pop s') = 10%nat.
Proof.
  apply (GWO_WOA_O_incremental_evolve_returns (Demo.optimizer 1 false) 0 Demo.state).
  - apply demo_contract.
  - reflexivity.
  - reflexivity.
  - simpl. lia.
  - reflexivity.
Defined.

(** *** Too few wolves *)

Lemma BaseGWO_first_step_IndexError self a list_best pop_new s :
  (length list_best < 3)%nat ->
  length list_best = length (pop s) ->
  exists s', BaseGWO.step self a list_best 0 pop_new s = (Raise IndexError, s') /\
             pop s' = pop s.
Proof.
  intros Hlt Hlen.
  unfold BaseGWO.step, np_random_uniform, with_rng, get_pop, getitem,
    mbind, M_bind, bind, mret, M_ret, ret, raise.
  destruct s as [p g r]. simpl in *.
  destruct list_best as [|L1 [|L2 [|L3 l]]]; simpl in *; try lia;
    destruct p as [|x1 [|x2 p]]; simpl in *; try discriminate;
    eexists; split; reflexivity.
Qed.

(** X5. [BaseGWO.evolve] needs three wolves: with [self.epoch > 1],
    [pop_size >= 1] and a population of fewer than three wolves, the
    first iteration of the loop raises [IndexError] when it reads
    [list_best] (or [self.pop[0]] of an empty population), before any
    position is repaired or stored; the population is left as it was. *)
Theorem BaseGWO_needs_three_wolves (self : Optimizer) (t : Z) (s : State) :
  Contract self ->
  (1 < epoch self)%Z ->
  (1 <= pop_size self)%nat ->
  (length (pop s) < 3)%nat ->
  exists s', BaseGWO.evolve self t s = (Raise IndexError, s') /\ pop s' = pop s.
Proof.
  intros HC HT Hsize Hfew. unfold BaseGWO.evolve.
  rewrite (bind_run _ _ _ _ _ (linear_decay_defined self t s HT)).
  rewrite bind_read_pop.
  pose proof (special_length (pop s)) as Hl.
  destruct (pop_size self) as [|n]; [lia |].
  unfold range. cbn [seq for_range].
  destruct (BaseGWO_first_step_IndexError self (Spec.linear_decay t (epoch self))
              (get_special_solutions self (pop s)) [] s) as (s' & E & Hp); [lia | lia |].
  exists s'. split; [| exact Hp].
  apply bind_raise_run, bind_raise_run, E.
Qed.

Lemma BaseGWO_needs_three_wolves_witness :
  exists s',
    BaseGWO.evolve (Demo.optimizer 10 false) 3
      (mkState (take 2 Demo.wolves) (Demo.wolf 0 1) (Demo.generator_from 0))
    = (Raise IndexError, s') /\
    pop s' = take 2 Demo.wolves.
Proof.
  apply (BaseGWO_needs_three_wolves (Demo.optimizer 10 false) 3
           (mkState (take 2 Demo.wolves) (Demo.wolf 0 1) (Demo.generator_from 0))).
  - apply demo_contract.
  - reflexivity.
  - simpl. lia.
  - simpl. lia.
Defined.
(** *** What the members of the population are

    Any property of solutions that holds of every evaluated, repaired
    candidate and of the members before the epoch holds of the members
    after it: the four strategies only ever store such candidates. *)

Section Members.
Context (self : Optimizer) `{!Contract self} (P : solution -> Prop).
Hypothesis candidates_ok :
  forall pos, bounded self pos -> P (Solution pos (get_target_wrapper self pos)).

Lemma every_member_rng_blind : rng_blind (every_member P).
Proof. intros p g r r' H. exact H. Qed.

Ltac reads_members := frame_with every_member_rng_blind ltac:(idtac; fail).

Ltac before_amend :=
  repeat match goal with
    | |- maintains _ (mbind _ (amend _ _)) _ => fail 1
    | |- maintains _ (mbind _ _) _ =>
        apply maintains_bind with (P := fun _ => True); [reads_members | intros ? _]
    end.

Lemma amend_member x : maintains (every_member P) (amend self x) (bounded self).
Proof.
  unfold amend. apply maintains_with_rng; [apply every_member_rng_blind |].
  intros r. apply amend_in_bounds.
Qed.

Lemma better_member pos old :
  bounded self pos -> P old ->
  P (get_better_solution self (Solution pos (get_target_wrapper self pos)) old).
Proof.
  intros Hpos Hold. rewrite better_spec.
  destruct (fitter _ _ _); [exact Hold | apply candidates_ok, Hpos].
Qed.

Lemma replace_member idx pos_new :
  bounded self pos_new ->
  maintains (every_member P) (evaluate_and_replace self idx pos_new) (fun _ => True).
Proof.
  intros Hpos. unfold evaluate_and_replace.
  apply maintains_bind with (P := P).
  - apply maintains_get_pop. intros s x Hs Hx.
    exact (proj1 (Forall_lookup _ _) Hs idx x Hx).
  - intros old Hold. apply maintains_set_pop. intros s Hs _.
    unfold every_member in *. simpl. apply Forall_insert; [exact Hs |].
    apply better_member; assumption.
Qed.

Lemma greedy_members old new merged :
  Forall P old -> Forall (bounded self) new ->
  greedy_selection_population self old (update_target_wrapper_population self new)
    = Ok merged ->
  Forall P merged.
Proof.
  intros Hold Hnew E. apply Forall_forall. intros x Hx.
  destruct (greedy_member _ _ _ _ E Hx) as [H|H].
  - exact (proj1 (Forall_forall _ _) Hold x H).
  - rewrite update_target_spec in H.
    apply list_elem_of_fmap in H as (y & -> & Hy).
    apply candidates_ok. exact (proj1 (Forall_forall _ _) Hnew y Hy).
Qed.

Lemma merge_member pop_new :
  Forall (bounded self) pop_new ->
  maintains (every_member P) (evaluate_and_merge self pop_new)
    (fun evaluated => map ID_POS evaluated = pop_new).
Proof.
  intros Hnew. unfold evaluate_and_merge.
  apply maintains_bind with (P := Forall P).
  { apply maintains_read_pop. auto. }
  intros old Hold.
  apply maintains_bind with (P := Forall P).
  { apply maintains_lift_result. intros merged E.
    eapply greedy_members; eassumption. }
  intros merged Hm.
  apply maintains_bind with (P := fun _ => True).
  { apply maintains_assign_pop. intros s _. exact Hm. }
  intros _ _. apply maintains_ret.
  rewrite update_target_spec, map_map. simpl. apply map_id.
Qed.

Lemma amend_append_replace_member idx raw pop_new :
  Forall (bounded self) pop_new ->
  maintains (every_member P)
    (pos_new ← amend self raw;
     (if mode_in_AVAILABLE_MODES self then mret tt
      else evaluate_and_replace self idx pos_new);;
     mret (pop_new ++ [pos_new]))
    (Forall (bounded self)).
Proof.
  intros Hnew.
  apply maintains_bind with (P := bounded self); [apply amend_member |].
  intros pos Hpos.
  apply maintains_bind with (P := fun _ => True).
  - apply maintains_if; [apply maintains_ret; exact Logic.I | apply replace_member, Hpos].
  - intros _ _. apply maintains_ret. apply Forall_app. split; [exact Hnew |].
    constructor; [exact Hpos | constructor].
Qed.

Lemma batch_tail_member pop_new :
  Forall (bounded self) pop_new ->
  maintains (every_member P)
    (if mode_in_AVAILABLE_MODES self
     then evaluate_and_merge self pop_new;; mret tt
     else mret tt)
    (fun _ => True).
Proof.
  intros Hnew. apply maintains_if; [| apply maintains_ret; exact Logic.I].
  apply maintains_bind with (P := fun _ => True).
  - eapply maintains_weaken; [apply merge_member, Hnew | auto].
  - intros _ _. apply maintains_ret. exact Logic.I.
Qed.

Lemma BaseGWO_members t : maintains (every_member P) (BaseGWO.evolve self t) (fun _ => True).
Proof.
  unfold BaseGWO.evolve, linear_decay.
  apply maintains_bind with (P := fun _ => True); [reads_members | intros a _].
  apply maintains_bind with (P := fun _ => True); [reads_members | intros p _].
  apply maintains_bind with (P := Forall (bounded self)).
  - apply maintains_for_range; [| constructor].
    intros i b Hb. unfold BaseGWO.step, np_random_uniform.
    before_amend. apply amend_append_replace_member, Hb.
  - intros pop_new Hnew. apply batch_tail_member, Hnew.
Qed.

Lemma RW_GWO_walk_members a i acc :
  Forall P acc.1 /\ Forall (bounded self) acc.2 ->
  maintains (every_member P) (RW_GWO.walk self a i acc)
    (fun acc' => Forall P acc'.1 /\ Forall (bounded self) acc'.2).
Proof.
  destruct acc as [leaders leaders_new]. simpl. intros [Hl Hn].
  unfold RW_GWO.walk, np_random_standard_cauchy.
  apply maintains_bind with (P := fun _ => True); [reads_members | intros Li _].
  apply maintains_bind with (P := fun _ => True); [reads_members | intros z _].
  apply maintains_bind with (P := bounded self); [apply amend_member | intros pos Hpos].
  assert (Forall (bounded self) (leaders_new ++ [pos])) as Hn'.
  { apply Forall_app. split; [exact Hn | constructor; [exact Hpos | constructor]]. }
  apply maintains_if.
  - apply maintains_ret. simpl. auto.
  - apply maintains_bind with (P := P).
    + apply maintains_getitem. intros x Hx.
      exact (proj1 (Forall_lookup _ _) Hl i x Hx).
    + intros Li' HLi'. apply maintains_ret. simpl. split; [| exact Hn'].
      apply Forall_insert; [exact Hl |]. apply better_member; assumption.
Qed.

Lemma RW_GWO_members t : maintains (every_member P) (RW_GWO.evolve self t) (fun _ => True).
Proof.
  unfold RW_GWO.evolve, linear_decay.
  apply maintains_bind with (P := fun _ => True); [reads_members | intros b _].
  apply maintains_bind with (P := fun _ => True); [reads_members | intros a _].
  apply maintains_bind with (P := Forall P).
  { apply maintains_read_pop. auto. }
  intros p Hp.
  assert (Forall P (get_special_solutions self p)) as Hl.
  { apply Forall_forall. intros x Hx. apply special_member in Hx.
    exact (proj1 (Forall_forall _ _) Hp x Hx). }
  apply maintains_bind
    with (P := fun acc => Forall P acc.1 /\ Forall (bounded self) acc.2).
  { apply maintains_for_range; [| simpl; split; [exact Hl | constructor]].
    intros i acc Hacc. apply RW_GWO_walk_members, Hacc. }
  intros [leaders leaders_new] [Hl' Hn']. simpl in Hl', Hn'.
  apply maintains_bind with (P := Forall P).
  { apply maintains_if; [| apply maintains_ret, Hl'].
    apply maintains_lift_result. intros merged E.
    eapply greedy_members; eassumption. }
  intros leaders' Hl''.
  apply maintains_bind with (P := Forall (bounded self)).
  { apply maintains_for_range; [| constructor].
    intros i b0 Hb0. unfold RW_GWO.step, np_random_uniform.
    before_amend. apply amend_append_replace_member, Hb0. }
  intros pop_new Hnew.
  apply maintains_bind with (P := fun _ => True).
  { apply batch_tail_member, Hnew. }
  intros _ _. unfold RW_GWO.sort_and_trim.
  apply maintains_bind with (P := Forall P).
  { apply maintains_read_pop. auto. }
  intros p' Hp'. apply maintains_assign_pop. intros s _.
  unfold every_member. simpl. apply Forall_forall. intros x Hx.
  apply strim_member, elem_of_app in Hx as [Hx|Hx].
  - exact (proj1 (Forall_forall _ _) Hp' x Hx).
  - exact (proj1 (Forall_forall _ _) Hl'' x Hx).
Qed.

Lemma hybrid_body_members (whale : M ndarray) list_best k idx pop_new :
  maintains (every_member P) whale (fun _ => True) ->
  Forall (bounded self) pop_new ->
  maintains (every_member P)
    (pop_new ← (if Qlt_bool (c_p k) (1 # 2) then
                  whale;; mret pop_new
                else
                  pos_new ← GWO_WOA_M.wolves list_best k idx;
                  pos_new ← amend self pos_new;
                  let pop_new := pop_new ++ [pos_new] in
                  (if mode_in_AVAILABLE_MODES self then mret tt
                   else evaluate_and_replace self idx pos_new);;
                  mret pop_new);
     if mode_in_AVAILABLE_MODES self
     then evaluated ← evaluate_and_merge self pop_new; mret (map ID_POS evaluated)
     else mret pop_new)
    (Forall (bounded self)).
Proof.
  intros Hw Hnew.
  apply maintains_bind with (P := Forall (bounded self)).
  - apply maintains_if.
    + apply maintains_bind with (P := fun _ => True); [exact Hw |].
      intros _ _. apply maintains_ret, Hnew.
    + apply maintains_bind with (P := fun _ => True).
      { unfold GWO_WOA_M.wolves. reads_members. }
      intros raw _. apply amend_append_replace_member, Hnew.
  - intros pop_new' Hnew'. apply maintains_if; [| apply maintains_ret, Hnew'].
    apply maintains_bind with (P := fun ev => map ID_POS ev = pop_new').
    { apply merge_member, Hnew'. }
    intros ev ->. apply maintains_ret, Hnew'.
Qed.

Lemma GWO_WOA_M_members t :
  maintains (every_member P) (GWO_WOA_M.evolve self t) (fun _ => True).
Proof.
  unfold GWO_WOA_M.evolve, linear_decay.
  apply maintains_bind with (P := fun _ => True); [reads_members | intros a _].
  apply maintains_bind with (P := fun _ => True); [reads_members | intros q _].
  apply maintains_bind with (P := fun _ => True); [reads_members | intros p _].
  apply maintains_bind with (P := Forall (bounded self));
    [| intros ? _; apply maintains_ret; exact Logic.I].
  apply maintains_for_range; [| constructor].
  intros i b Hb. unfold GWO_WOA_M.step.
  apply maintains_bind with (P := fun _ => True).
  { unfold GWO_WOA_M.draw, np_random_rand, np_random_uniform. reads_members. }
  intros k _. apply hybrid_body_members; [| exact Hb].
  unfold GWO_WOA_M.whale. reads_members.
Qed.

Lemma GWO_WOA_O_members t :
  maintains (every_member P) (GWO_WOA_O.evolve self t) (fun _ => True).
Proof.
  unfold GWO_WOA_O.evolve, GWO_WOA_O.decay.
  apply maintains_bind with (P := fun _ => True); [reads_members | intros a _].
  apply maintains_bind with (P := fun _ => True); [reads_members | intros p _].
  apply maintains_bind with (P := Forall (bounded self));
    [| intros ? _; apply maintains_ret; exact Logic.I].
  apply maintains_for_range; [| constructor].
  intros i b Hb. unfold GWO_WOA_O.step.
  apply maintains_bind with (P := fun _ => True).
  { unfold GWO_WOA_O.draw, np_random_rand, np_random_uniform, np_random_uniform_in.
    reads_members. }
  intros k _. apply hybrid_body_members; [| exact Hb].
  unfold GWO_WOA_O.whale. reads_members.
Qed.

End Members.
(** X6. No stale fitness: if the target of every wolf is the objective at
    its position before [evolve], it is so after [evolve], for the four
    strategies, in either mode, on return and on exception. *)
Theorem targets_stay_evaluated (self : Optimizer) (t : Z) (s : State) :
  Contract self ->
  every_member (evaluated_at self) s ->
  every_member (evaluated_at self) (BaseGWO.evolve self t s).2 /\
  every_member (evaluated_at self) (RW_GWO.evolve self t s).2 /\
  every_member (evaluated_at self) (GWO_WOA_M.evolve self t s).2 /\
  every_member (evaluated_at self) (GWO_WOA_O.evolve self t s).2.
Proof.
  intros HC Hs.
  assert (forall pos, bounded self pos ->
            evaluated_at self (Solution pos (get_target_wrapper self pos))) as Hc
    by (intros; reflexivity).
  repeat split.
  - exact (maintains_final _ _ _ s (BaseGWO_members self _ Hc t) Hs).
  - exact (maintains_final _ _ _ s (RW_GWO_members self _ Hc t) Hs).
  - exact (maintains_final _ _ _ s (GWO_WOA_M_members self _ Hc t) Hs).
  - exact (maintains_final _ _ _ s (GWO_WOA_O_members self _ Hc t) Hs).
Qed.

(** X7. Provenance: after [evolve], whatever the strategy and the mode,
    every wolf is a wolf of the population before the call or a candidate
    of the epoch, i.e. a position returned by [amend_position] paired with
    the objective at that position.  In particular the positions computed
    in the hybrids' branch [p < 0.5] and the random solutions made there
    by [create_solution] are never stored. *)
Theorem members_are_old_or_candidates (self : Optimizer) (t : Z) (s : State) :
  Contract self ->
  (forall x, x ∈ pop (BaseGWO.evolve self t s).2 -> x ∈ pop s \/ candidate_of self x) /\
  (forall x, x ∈ pop (RW_GWO.evolve self t s).2 -> x ∈ pop s \/ candidate_of self x) /\
  (forall x, x ∈ pop (GWO_WOA_M.evolve self t s).2 -> x ∈ pop s \/ candidate_of self x) /\
  (forall x, x ∈ pop (GWO_WOA_O.evolve self t s).2 -> x ∈ pop s \/ candidate_of self x).
Proof.
  intros HC.
  set (P := fun x => x ∈ pop s \/ candidate_of self x).
  assert (forall pos, bounded self pos ->
            P (Solution pos (get_target_wrapper self pos))) as Hc.
  { intros pos Hpos. right. exists pos. auto. }
  assert (every_member P s) as Hs.
  { apply Forall_forall. intros x Hx. left. exact Hx. }
  repeat split; intros x Hx.
  - exact (proj1 (Forall_forall _ _)
             (maintains_final _ _ _ s (BaseGWO_members self _ Hc t) Hs) x Hx).
  - exact (proj1 (Forall_forall _ _)
             (maintains_final _ _ _ s (RW_GWO_members self _ Hc t) Hs) x Hx).
  - exact (proj1 (Forall_forall _ _)
             (maintains_final _ _ _ s (GWO_WOA_M_members self _ Hc t) Hs) x Hx).
  - exact (proj1 (Forall_forall _ _)
             (maintains_final _ _ _ s (GWO_WOA_O_members self _ Hc t) Hs) x Hx).
Qed.

Lemma demo_wolves_evaluated T batch :
  every_member (evaluated_at (Demo.optimizer T batch)) Demo.state.
Proof. unfold every_member. simpl. repeat constructor. Qed.

Lemma targets_stay_evaluated_witness :
  every_member (evaluated_at (Demo.optimizer 10 false))
    (BaseGWO.evolve (Demo.optimizer 10 false) 3 Demo.state).2 /\
  every_member (evaluated_at (Demo.optimizer 10 false))
    (RW_GWO.evolve (Demo.optimizer 10 false) 3 Demo.state).2 /\
  every_member (evaluated_at (Demo.optimizer 10 false))
    (GWO_WOA_M.evolve (Demo.optimizer 10 false) 3 Demo.state).2 /\
  every_member (evaluated_at (Demo.optimizer 10 false))
    (GWO_WOA_O.evolve (Demo.optimizer 10 false) 3 Demo.state).2.
Proof.
  apply (targets_stay_evaluated (Demo.optimizer 10 false) 3 Demo.state).
  - apply demo_contract.
  - apply demo_wolves_evaluated.
Defined.

Lemma members_are_old_or_candidates_witness :
  (forall x, x ∈ pop (BaseGWO.evolve (Demo.optimizer 10 true) 3 Demo.state).2 ->
             x ∈ pop Demo.state \/ candidate_of (Demo.optimizer 10 true) x) /\
  (forall x, x ∈ pop (RW_GWO.evolve (Demo.optimizer 10 true) 3 Demo.state).2 ->
             x ∈ pop Demo.state \/ candidate_of (Demo.optimizer 10 true) x) /\
  (forall x, x ∈ pop (GWO_WOA_M.evolve (Demo.optimizer 10 true) 3 Demo.state).2 ->
             x ∈ pop Demo.state \/ candidate_of (Demo.optimizer 10 true) x) /\
  (forall x, x ∈ pop (GWO_WOA_O.evolve (Demo.optimizer 10 true) 3 Demo.state).2 ->
             x ∈ pop Demo.state \/ candidate_of (Demo.optimizer 10 true) x).
Proof.
  apply (members_are_old_or_candidates (Demo.optimizer 10 true) 3 Demo.state).
  apply demo_contract.
Defined.
(** *** Slot-wise non-regression *)

Lemma not_worse_refl self x : not_worse self x x.
Proof.
  unfold not_worse, fitter, Qlt_bool.
  assert (Qle_bool (ID_TAR x) (ID_TAR x) = true) as ->
    by (apply Qle_bool_iff, Qle_refl).
  destruct (minimize self); reflexivity.
Qed.

Lemma Qlt_bool_false x y : Qlt_bool x y = false <-> y <= x.
Proof.
  unfold Qlt_bool. rewrite negb_false_iff. apply Qle_bool_iff.
Qed.

Lemma not_worse_trans self x y z :
  not_worse self x y -> not_worse self y z -> not_worse self x z.
Proof.
  unfold not_worse, fitter. destruct (minimize self);
    rewrite !Qlt_bool_false; intros H1 H2; eapply Qle_trans; eassumption.
Qed.

Lemma better_not_worse self `{!Contract self} cand old :
  not_worse self old (get_better_solution self cand old).
Proof.
  rewrite better_spec. destruct (fitter _ _ _) eqn:E.
  - apply not_worse_refl.
  - exact E.
Qed.

Lemma slotwise_refl self p : slotwise_not_worse self p p.
Proof.
  split; [reflexivity |]. intros idx old new H1 H2.
  rewrite H1 in H2. injection H2 as <-. apply not_worse_refl.
Qed.

Lemma slotwise_insert self p0 p idx old x :
  slotwise_not_worse self p0 p ->
  p !! idx = Some old ->
  not_worse self old x ->
  slotwise_not_worse self p0 (<[idx := x]> p).
Proof.
  intros [Hlen H] Hold Hx. split; [rewrite length_insert; exact Hlen |].
  intros j o n Ho Hn.
  destruct (decide (idx = j)) as [<-|Hne].
  - rewrite list_lookup_insert_eq in Hn by (eapply lookup_lt_Some, Hold).
    injection Hn as <-. eapply not_worse_trans; [| exact Hx]. eapply H; eassumption.
  - rewrite list_lookup_insert_ne in Hn by exact Hne. eapply H; eassumption.
Qed.

Lemma improves_on_rng_blind self p0 : rng_blind (improves_on self p0).
Proof. intros p g r r' H. exact H. Qed.

Lemma replace_improves self `{!Contract self} p0 idx pos_new :
  maintains (improves_on self p0) (evaluate_and_replace self idx pos_new) (fun _ => True).
Proof.
  intros s Hs. unfold evaluate_and_replace, mbind, M_bind, bind, get_pop, getitem, set_pop.
  destruct (pop s !! idx) as [old|] eqn:E; simpl; [| exact Hs].
  destruct (decide _); simpl; [| exact Hs]. split; [| exact Logic.I].
  unfold improves_on. simpl. eapply slotwise_insert; [exact Hs | exact E |].
  apply better_not_worse. assumption.
Qed.

Ltac improves self p0 :=
  frame_with (improves_on_rng_blind self p0)
    ltac:(idtac; match goal with
          | |- maintains _ (evaluate_and_replace _ _ _) _ => apply replace_improves; assumption
          end).

Lemma BaseGWO_incremental_improves self `{!Contract self} p0 t :
  mode_in_AVAILABLE_MODES self = false ->
  maintains (improves_on self p0) (BaseGWO.evolve self t) (fun _ => True).
Proof.
  intros Hmode.
  unfold BaseGWO.evolve, BaseGWO.step, linear_decay, amend, np_random_uniform.
  rewrite Hmode. improves self p0.
Qed.

Lemma GWO_WOA_M_incremental_improves self `{!Contract self} p0 t :
  mode_in_AVAILABLE_MODES self = false ->
  maintains (improves_on self p0) (GWO_WOA_M.evolve self t) (fun _ => True).
Proof.
  intros Hmode.
  unfold GWO_WOA_M.evolve, GWO_WOA_M.step, GWO_WOA_M.body, GWO_WOA_M.draw,
    GWO_WOA_M.whale, GWO_WOA_M.wolves, linear_decay, amend,
    np_random_uniform, np_random_rand.
  rewrite Hmode. improves self p0.
Qed.

Lemma GWO_WOA_O_incremental_improves self `{!Contract self} p0 t :
  mode_in_AVAILABLE_MODES self = false ->
  maintains (improves_on self p0) (GWO_WOA_O.evolve self t) (fun _ => True).
Proof.
  intros Hmode.
  unfold GWO_WOA_O.evolve, GWO_WOA_O.step, GWO_WOA_O.body, GWO_WOA_O.draw,
    GWO_WOA_O.whale, GWO_WOA_M.wolves, GWO_WOA_O.decay, amend,
    np_random_uniform, np_random_rand, np_random_uniform_in.
  rewrite Hmode. improves self p0.
Qed.
(** *** Batch mode of BaseGWO *)

Lemma maintains_seq {B} (I : State -> Prop) (body : nat -> B -> M B)
    (Qn : nat -> B -> Prop) (start len : nat) (acc : B) :
  (forall i b, (start <= i < start + len)%nat -> Qn i b ->
               maintains I (body i b) (Qn (S i))) ->
  Qn start acc ->
  maintains I (for_range (seq start len) body acc) (Qn (start + len)%nat).
Proof.
  revert start acc. induction len as [|len IH]; intros start acc Hbody Hacc; simpl.
  - rewrite Nat.add_0_r. apply maintains_ret, Hacc.
  - eapply maintains_bind.
    + apply Hbody; [lia | exact Hacc].
    + intros b Hb. rewrite <- Nat.add_succ_comm. apply IH; [| exact Hb].
      intros i b' Hi. apply Hbody. lia.
Qed.

(** If [m] keeps [I] and, from a state satisfying [I], what follows ends
    in a state satisfying [J], then so does the sequence. *)
Lemma maintains_then {A B} (I J : State -> Prop) (m : M A) (k : A -> M B)
    (P : A -> Prop) :
  maintains I m P ->
  (forall s, I s -> J s) ->
  (forall a s1, I s1 -> P a -> J (k a s1).2) ->
  forall s, I s -> J ((m ≫= k) s).2.
Proof.
  intros Hm HIJ Hk s Hs. specialize (Hm s Hs).
  unfold mbind, M_bind, bind. destruct (m s) as [[a|e] s1].
  - destruct Hm as [H1 Ha]. apply Hk; assumption.
  - simpl. apply HIJ, Hm.
Qed.

Lemma frozen_rng_blind p g : rng_blind (frozen p g).
Proof. intros p' g' r r' H. exact H. Qed.

Lemma BaseGWO_step_batch_appends self a list_best idx pop_new p :
  mode_in_AVAILABLE_MODES self = true ->
  maintains (pop_is p) (BaseGWO.step self a list_best idx pop_new)
    (fun r => length r = S (length pop_new)).
Proof.
  intros Hmode. unfold BaseGWO.step, np_random_uniform, amend. rewrite Hmode.
  repeat match goal with
    | |- maintains _ (mbind _ (mret tt)) _ => fail 1
    | |- maintains _ (mbind _ _) _ =>
        apply maintains_bind with (P := fun _ => True); [reads p | intros ? _]
    end.
  apply maintains_bind with (P := fun _ => True); [reads p | intros _ _].
  apply maintains_ret. rewrite length_app. simpl. lia.
Qed.

Lemma Qlt_bool_true x y : Qlt_bool x y = true <-> x < y.
Proof.
  unfold Qlt_bool. rewrite negb_true_iff. split.
  - intros E. apply Qnot_le_lt. intros H. apply Qle_bool_iff in H. congruence.
  - intros Hlt. destruct (Qle_bool y x) eqn:E; [| reflexivity].
    apply Qle_bool_iff in E. exfalso. exact (Qlt_not_le _ _ Hlt E).
Qed.

Lemma fitter_asym self x y : fitter self x y = true -> fitter self y x = false.
Proof.
  unfold fitter. destruct (minimize self);
    rewrite Qlt_bool_true, Qlt_bool_false; apply Qlt_le_weak.
Qed.

Lemma zip_with_better_slotwise self `{!Contract self} old new :
  length old = length new ->
  slotwise_not_worse self old (zip_with (get_better_solution self) old new).
Proof.
  intros Hlen. split; [rewrite length_zip_with; lia |].
  intros idx o n Ho Hn. apply lookup_zip_with_Some in Hn as (o' & c & -> & Ho' & Hc).
  rewrite Ho in Ho'. injection Ho' as <-.
  rewrite better_spec. unfold not_worse.
  destruct (fitter self (ID_TAR c) (ID_TAR o)) eqn:E.
  - apply fitter_asym, E.
  - apply not_worse_refl.
Qed.
Lemma merge_run self `{!Contract self} pop_new s :
  length (pop s) = length pop_new ->
  evaluate_and_merge self pop_new s =
  (Ok (update_target_wrapper_population self pop_new),
   mkState (zip_with (get_better_solution self) (pop s)
              (update_target_wrapper_population self pop_new))
           (g_best s) (rng s)).
Proof.
  intros Hlen. unfold evaluate_and_merge. rewrite bind_read_pop.
  unfold mbind, M_bind, bind, lift_result.
  rewrite greedy_same_length; [reflexivity |].
  rewrite update_target_spec, length_map. exact Hlen.
Qed.

Lemma BaseGWO_batch_improves self `{!Contract self} p0 t s :
  mode_in_AVAILABLE_MODES self = true ->
  length p0 = pop_size self ->
  pop_is p0 s ->
  improves_on self p0 (BaseGWO.evolve self t s).2.
Proof.
  intros Hmode Hlen. revert s. unfold BaseGWO.evolve.
  assert (forall s, pop_is p0 s -> improves_on self p0 s) as Hrefl.
  { intros s Hs. unfold improves_on. rewrite Hs. apply slotwise_refl. }
  apply maintains_then with (P := fun _ => True); [| exact Hrefl |].
  { unfold linear_decay. reads p0. }
  intros a s1 Hs1 _. revert s1 Hs1.
  apply maintains_then with (P := fun _ => True); [| exact Hrefl |].
  { reads p0. }
  intros p s2 Hs2 _. revert s2 Hs2.
  apply maintains_then with (P := fun r => length r = pop_size self); [| exact Hrefl |].
  { apply (maintains_seq _ _ (fun i r => length r = i) 0 (pop_size self) []);
      [| reflexivity].
    intros i b _ Hb. eapply maintains_weaken.
    - apply BaseGWO_step_batch_appends, Hmode.
    - intros r Hr. simpl in Hr. lia. }
  intros pop_new s3 Hs3 Hnew. rewrite Hmode.
  unfold pop_is in Hs3.
  unfold mbind, M_bind, bind. rewrite merge_run by congruence. simpl.
  unfold improves_on. simpl. rewrite Hs3.
  apply zip_with_better_slotwise; [assumption |].
  rewrite update_target_spec, length_map. congruence.
Qed.

(** X8. [BaseGWO.evolve] never worsens a slot: on a population of
    [pop_size] wolves, in either mode, on return and on exception, the
    population keeps its size and the wolf left in every slot is not
    worse than the wolf that was there before the epoch (the old one is
    not strictly fitter), in the problem's sense. *)
Theorem BaseGWO_never_worsens_a_slot (self : Optimizer) (t : Z) (s : State) :
  Contract self ->
  length (pop s) = pop_size self ->
  slotwise_not_worse self (pop s) (pop (BaseGWO.evolve self t s).2).
Proof.
  intros HC Hlen. destruct (mode_in_AVAILABLE_MODES self) eqn:Hmode.
  - apply (BaseGWO_batch_improves self (pop s) t s Hmode Hlen). reflexivity.
  - apply (maintains_final (improves_on self (pop s)) _ (fun _ => True)).
    + apply BaseGWO_incremental_improves; assumption.
    + apply slotwise_refl.
Qed.

(** X9. In incremental mode [GWO_WOA_M.evolve] and [GWO_WOA_O.evolve]
    never worsen a slot either: the only write to [self.pop] is the greedy
    replacement of the branch [p >= 0.5]. *)
Theorem hybrids_never_worsen_a_slot (self : Optimizer) (t : Z) (s : State) :
  Contract self ->
  mode_in_AVAILABLE_MODES self = false ->
  slotwise_not_worse self (pop s) (pop (GWO_WOA_M.evolve self t s).2) /\
  slotwise_not_worse self (pop s) (pop (GWO_WOA_O.evolve self t s).2).
Proof.
  intros HC Hmode. split.
  - apply (maintains_final (improves_on self (pop s)) _ (fun _ => True)).
    + apply GWO_WOA_M_incremental_improves; assumption.
    + apply slotwise_refl.
  - apply (maintains_final (improves_on self (pop s)) _ (fun _ => True)).
    + apply GWO_WOA_O_incremental_improves; assumption.
    + apply slotwise_refl.
Qed.

Lemma BaseGWO_never_worsens_a_slot_witness :
  slotwise_not_worse (Demo.optimizer 10 true) (pop Demo.state)
    (pop (BaseGWO.evolve (Demo.optimizer 10 true) 3 Demo.state).2).
Proof.
  apply (BaseGWO_never_worsens_a_slot (Demo.optimizer 10 true) 3 Demo.state).
  - apply demo_contract.
  - reflexivity.
Defined.

Lemma hybrids_never_worsen_a_slot_witness :
  slotwise_not_worse (Demo.optimizer 10 false) (pop Demo.state)
    (pop (GWO_WOA_M.evolve (Demo.optimizer 10 false) 3 Demo.state).2) /\
  slotwise_not_worse (Demo.optimizer 10 false) (pop Demo.state)
    (pop (GWO_WOA_O.evolve (Demo.optimizer 10 false) 3 Demo.state).2).
Proof.
  apply (hybrids_never_worsen_a_slot (Demo.optimizer 10 false) 3 Demo.state).
  - apply demo_contract.
  - reflexivity.
Defined.
Lemma BaseGWO_step_batch_completes self `{!Contract self} a L1 L2 L3 idx pop_new p g :
  mode_in_AVAILABLE_MODES self = true ->
  (idx < length p)%nat ->
  Forall (bounded self) pop_new ->
  completes (frozen p g) (BaseGWO.step self a [L1; L2; L3] idx pop_new)
    (fun r => length r = S (length pop_new) /\ Forall (bounded self) r).
Proof.
  intros Hmode Hidx Hnew. unfold BaseGWO.step, np_random_uniform, amend.
  rewrite Hmode.
  repeat match goal with
    | |- completes _ (mbind _ (with_rng (amend_position _ _ _ _))) _ => fail 1
    | |- completes _ (mbind _ _) _ =>
        apply completes_bind with (P := fun _ => True);
        [ complete_with (frozen_rng_blind p g)
            ltac:(idtac; match goal with
                  | |- completes _ (get_pop _) _ =>
                      apply completes_get_pop;
                      let s := fresh "s" in let Hs := fresh "Hs" in
                      intros s [Hs _]; rewrite Hs;
                      destruct (lookup_lt_is_Some_2 p idx Hidx) as [? ?]; eauto
                  end)
            ltac:(idtac)
        | intros ? _ ]
    end.
  apply completes_bind with (P := bounded self).
  { apply completes_with_rng; [apply frozen_rng_blind | intros r; apply amend_in_bounds]. }
  intros pos Hpos.
  apply completes_bind with (P := fun _ => True).
  { apply completes_ret. exact Logic.I. }
  intros _ _. apply completes_ret. split.
  - rewrite length_app. simpl. lia.
  - apply Forall_app. split; [exact Hnew | constructor; [exact Hpos | constructor]].
Qed.

(** X10. Batch mode of BaseGWO is a snapshot update.  With
    [self.epoch > 1] and [pop_size >= 3] wolves, the loop returns
    [pop_size] repaired positions without writing [self.pop] or
    [self.g_best]: every candidate is computed from the population as it
    was before the epoch.  Only then is the population replaced, by the
    result of [greedy_selection_population(self.pop, pop_new)] on the old
    population and the evaluated candidates, which does not fail. *)
Theorem BaseGWO_batch_epoch (self : Optimizer) (t : Z) (s : State) :
  Contract self ->
  mode_in_AVAILABLE_MODES self = true ->
  (1 < epoch self)%Z ->
  (3 <= pop_size self)%nat ->
  length (pop s) = pop_size self ->
  exists pop_new s1 merged,
    for_range (range (pop_size self))
      (BaseGWO.step self (Spec.linear_decay t (epoch self))
         (get_special_solutions self (pop s))) [] s = (Ok pop_new, s1) /\
    pop s1 = pop s /\ g_best s1 = g_best s /\
    length pop_new = pop_size self /\ Forall (bounded self) pop_new /\
    greedy_selection_population self (pop s)
      (update_target_wrapper_population self pop_new) = Ok merged /\
    BaseGWO.evolve self t s = (Ok tt, mkState merged (g_best s) (rng s1)).
Proof.
  intros HC Hmode HT Hsize Hlen.
  destruct (three_leaders self (pop s)) as (L1 & L2 & L3 & E); [lia |].
  assert (completes (frozen (pop s) (g_best s))
            (for_range (range (pop_size self))
               (BaseGWO.step self (Spec.linear_decay t (epoch self)) [L1; L2; L3]) [])
            (fun r => length r = pop_size self /\ Forall (bounded self) r)) as Hloop.
  { apply (completes_seq _ _
             (fun i r => length r = i /\ Forall (bounded self) r) 0 (pop_size self) []);
      [| split; [reflexivity | constructor]].
    intros i b Hi [Hb1 Hb2]. eapply completes_weaken.
    - apply BaseGWO_step_batch_completes; [exact HC | exact Hmode | lia | exact Hb2].
    - intros r [Hr1 Hr2]. split; [lia | exact Hr2]. }
  destruct (Hloop s (conj eq_refl eq_refl))
    as (pop_new & s1 & Eloop & [Hp Hg] & Hn & Hb).
  assert (length (pop s) = length (update_target_wrapper_population self pop_new)) as Hl.
  { rewrite update_target_spec, length_map. congruence. }
  exists pop_new, s1, (zip_with (get_better_solution self) (pop s)
                         (update_target_wrapper_population self pop_new)).
  rewrite E. split; [exact Eloop |].
  split; [exact Hp |]. split; [exact Hg |]. split; [exact Hn |]. split; [exact Hb |].
  split; [apply greedy_same_length, Hl |].
  unfold BaseGWO.evolve.
  rewrite (bind_run _ _ _ _ _ (linear_decay_defined self t s HT)).
  rewrite bind_read_pop, E.
  rewrite (bind_run _ _ _ _ _ Eloop). rewrite Hmode.
  unfold mbind, M_bind, bind. rewrite merge_run by congruence.
  simpl. rewrite Hp, Hg. reflexivity.
Qed.

Lemma BaseGWO_batch_epoch_witness :
  exists pop_new s1 merged,
    for_range (range 10)
      (BaseGWO.step (Demo.optimizer 10 true) (Spec.linear_decay 3 10)
         (get_special_solutions (Demo.optimizer 10 true) (pop Demo.state))) []
      Demo.state = (Ok pop_new, s1) /\
    pop s1 = pop Demo.state /\ g_best s1 = g_best Demo.state /\
    length pop_new = 10%nat /\ Forall (bounded (Demo.optimizer 10 true)) pop_new /\
    greedy_selection_population (Demo.optimizer 10 true) (pop Demo.state)
      (update_target_wrapper_population (Demo.optimizer 10 true) pop_new) = Ok merged /\
    BaseGWO.evolve (Demo.optimizer 10 true) 3 Demo.state
      = (Ok tt, mkState merged (g_best Demo.state) (rng s1)).
Proof.
  apply (BaseGWO_batch_epoch (Demo.optimizer 10 true) 3 Demo.state).
  - apply demo_contract.
  - reflexivity.
  - reflexivity.
  - simpl. lia.
  - reflexivity.
Defined.
(** *** The linear decay *)

Lemma Qdiv_le_mono (x y d : Q) : 0 < d -> x <= y -> x / d <= y / d.
Proof.
  intros Hd Hxy. apply Qle_shift_div_l; [exact Hd |].
  assert (x / d * d == x) as -> by (field; lra). exact Hxy.
Qed.

(** X11. The coefficient [2 - 2 * epoch / (self.epoch - 1)] of BaseGWO,
    RW_GWO and GWO_WOA_M is "linearly decreased from 2 to 0", as the
    comments of the source say: for [self.epoch > 1] it is computed without
    error, it is 2 at epoch 0 and 0 at epoch [self.epoch - 1], it never
    increases with the epoch, and it stays within [0, 2] in between. *)
Theorem linear_decay_schedule (self : Optimizer) (s : State) :
  (1 < epoch self)%Z ->
  (forall t, linear_decay self t s = (Ok (Spec.linear_decay t (epoch self)), s)) /\
  Spec.linear_decay 0 (epoch self) == 2 /\
  Spec.linear_decay (epoch self - 1) (epoch self) == 0 /\
  (forall t t', (t <= t')%Z ->
     Spec.linear_decay t' (epoch self) <= Spec.linear_decay t (epoch self)) /\
  (forall t, (0 <= t <= epoch self - 1)%Z ->
     0 <= Spec.linear_decay t (epoch self) /\ Spec.linear_decay t (epoch self) <= 2).
Proof.
  intros HT.
  assert (0 < inject_Z (epoch self - 1)) as Hd.
  { change 0 with (inject_Z 0). rewrite <- Zlt_Qlt. lia. }
  assert (forall t t', (t <= t')%Z ->
            2 * inject_Z t / inject_Z (epoch self - 1)
            <= 2 * inject_Z t' / inject_Z (epoch self - 1)) as Hmono.
  { intros t t' Htt. apply Qdiv_le_mono; [exact Hd |].
    assert (inject_Z t <= inject_Z t') by (rewrite <- Zle_Qle; exact Htt). lra. }
  assert (2 * inject_Z 0 / inject_Z (epoch self - 1) == 0) as H0.
  { unfold Qdiv. change (inject_Z 0) with 0. ring. }
  assert (2 * inject_Z (epoch self - 1) / inject_Z (epoch self - 1) == 2) as H1.
  { field. lra. }
  unfold Spec.linear_decay.
  split; [intros t; apply linear_decay_defined, HT |].
  split; [rewrite H0; ring |].
  split; [rewrite H1; ring |].
  split.
  - intros t t' Htt. specialize (Hmono t t' Htt). lra.
  - intros t [Ht0 Ht1].
    pose proof (Hmono 0%Z t Ht0) as Hlo. pose proof (Hmono t (epoch self - 1)%Z Ht1) as Hhi.
    rewrite H0 in Hlo. rewrite H1 in Hhi. split; lra.
Qed.

Lemma linear_decay_schedule_witness :
  Spec.linear_decay 0 10 == 2 /\ Spec.linear_decay (10 - 1) 10 == 0.
Proof.
  pose proof (linear_decay_schedule (Demo.optimizer 10 false) Demo.state eq_refl)
    as (_ & H0 & H1 & _).
  exact (conj H0 H1).
Defined.
(** *** The coefficients of the hybrids *)

Lemma random_sample_lt_1 r : (random_sample r).1 < 1.
Proof.
  unfold random_sample; simpl.
  pose proof (Z.mod_pos_bound (bits r (cursor r)) two53 eq_refl) as [H0 H1].
  set (z := (bits r (cursor r) mod two53)%Z) in *.
  unfold Qlt, Qdiv, Qmult, Qinv, inject_Z, two53 in *; simpl. lia.
Qed.

Lemma GWO_WOA_M_draw_A a a2 s k s1 :
  GWO_WOA_M.draw a a2 s = (Ok k, s1) ->
  c_A k = 2 * a * (random_sample (rng s)).1 - a /\ pop s1 = pop s /\ g_best s1 = g_best s.
Proof.
  unfold GWO_WOA_M.draw, np_random_rand, np_random_uniform, with_rng,
    mbind, M_bind, bind, mret, M_ret, ret.
  simpl. intros [= <- <-]. auto.
Qed.

Lemma small_a_small_A (a u : Q) :
  0 <= a -> a < 1 -> 0 <= u -> u < 1 -> Qlt_bool (Qabs (2 * a * u - a)) 1 = true.
Proof.
  intros Ha0 Ha1 Hu0 Hu1. apply Qlt_bool_true.
  apply Qabs_Qlt_condition. split; nra.
Qed.

Lemma late_decay_below_1 (t T : Z) :
  (1 < T)%Z -> (T - 1 < 2 * t)%Z -> (t <= T - 1)%Z ->
  0 <= Spec.linear_decay t T /\ Spec.linear_decay t T < 1.
Proof.
  intros HT Hhalf Hlast. unfold Spec.linear_decay.
  assert (0 < inject_Z (T - 1)) as Hd.
  { change 0 with (inject_Z 0). rewrite <- Zlt_Qlt. lia. }
  assert (inject_Z (T - 1) < 2 * inject_Z t) as H1.
  { change 2 with (inject_Z 2). rewrite <- inject_Z_mult, <- Zlt_Qlt. exact Hhalf. }
  assert (inject_Z t <= inject_Z (T - 1)) as H2 by (rewrite <- Zle_Qle; exact Hlast).
  assert (1 < 2 * inject_Z t / inject_Z (T - 1)) as Hlo.
  { apply Qlt_shift_div_l; [exact Hd | lra]. }
  assert (2 * inject_Z t / inject_Z (T - 1) <= 2) as Hhi.
  { apply Qle_shift_div_r; [exact Hd | lra]. }
  split; lra.
Qed.

(** X12. In the second half of a run GWO_WOA_M only encircles: for
    [self.epoch > 1] and an epoch [t] with [(self.epoch - 1)/2 < t <=
    self.epoch - 1] the decay [a] lies in [0, 1), so every drawn
    [A = 2*a*r1 - a] has [|A| < 1]; the branch [p < 0.5] then computes
    [g_best - A * |C * g_best - pop[idx]|] and never calls
    [create_solution]. *)
Theorem GWO_WOA_M_late_epochs_only_encircle
    (self : Optimizer) (t : Z) (a2 : Q) (idx : nat) (s s1 : State)
    (k : coefficients) (x : solution) :
  (1 < epoch self)%Z ->
  (epoch self - 1 < 2 * t)%Z ->
  (t <= epoch self - 1)%Z ->
  GWO_WOA_M.draw (Spec.linear_decay t (epoch self)) a2 s = (Ok k, s1) ->
  pop s !! idx = Some x ->
  Qlt_bool (Qabs (c_A k)) 1 = true /\
  GWO_WOA_M.whale self k idx s1
    = (Ok (Spec.encircle (ID_POS (g_best s)) (c_A k) (c_C k)
             (ID_POS (g_best s)) (ID_POS x)), s1).
Proof.
  intros HT Hhalf Hlast Hdraw Hx.
  destruct (GWO_WOA_M_draw_A _ _ _ _ _ Hdraw) as (HA & Hp & Hg).
  destruct (late_decay_below_1 t (epoch self) HT Hhalf Hlast) as [Ha0 Ha1].
  destruct (random_sample_unit_interval (rng s)) as [Hu0 _].
  pose proof (random_sample_lt_1 (rng s)) as Hu1.
  assert (Qlt_bool (Qabs (c_A k)) 1 = true) as Hsmall.
  { rewrite HA. apply small_a_small_A; assumption. }
  split; [exact Hsmall |].
  rewrite <- Hg. rewrite <- Hp in Hx.
  apply (proj1 (GWO_WOA_M_whale_is_spec self k idx s1 x Hx)), Hsmall.
Qed.

Lemma GWO_WOA_M_late_epochs_only_encircle_witness :
  exists k s1,
    GWO_WOA_M.draw (Spec.linear_decay 8 10) 0 Demo.state = (Ok k, s1) /\
    Qlt_bool (Qabs (c_A k)) 1 = true.
Proof.
  destruct (GWO_WOA_M_draw_returns (Spec.linear_decay 8 10) 0 Demo.state)
    as (k & s1 & E).
  exists k, s1. split; [exact E |].
  refine (proj1 (GWO_WOA_M_late_epochs_only_encircle (Demo.optimizer 10 false) 8 0 0
                   Demo.state s1 k (Demo.wolf 1 2) eq_refl eq_refl _ E eq_refl)).
  simpl. lia.
Defined.
(** *** Dead parameters of GWO_WOA_M *)

Lemma GWO_WOA_M_step_ignores_a2 self a a2 a2' list_best idx pop_new s :
  GWO_WOA_M.step self a a2 list_best idx pop_new s
  = GWO_WOA_M.step self a a2' list_best idx pop_new s.
Proof.
  unfold GWO_WOA_M.step, GWO_WOA_M.draw, np_random_rand, np_random_uniform, with_rng,
    mbind at 1 2 3 4 5 6 7 8 9 10 11, M_bind, bind, mret, M_ret, ret.
  simpl. reflexivity.
Qed.

(** X13. The auxiliary coefficient [a2] of [GWO_WOA_M.evolve], and the
    spiral parameter [l] computed from it in every iteration, are dead:
    the loop yields the same candidates, the same population and the same
    generator state whatever the value of [a2]. *)
Theorem GWO_WOA_M_a2_and_l_are_dead (self : Optimizer) (a a2 a2' : Q)
    (list_best : list solution) (n : nat) (s : State) :
  for_range (range n) (GWO_WOA_M.step self a a2 list_best) [] s
  = for_range (range n) (GWO_WOA_M.step self a a2' list_best) [] s.
Proof.
  apply for_range_ext. intros i b s'. apply GWO_WOA_M_step_ignores_a2.
Qed.
(** *** Construction and the epochs it allows *)

Lemma reference_check_int_validates : validates reference_check_int.
Proof.
  intros name v lo hi. unfold reference_check_int. split.
  - intros [H1 H2].
    rewrite (proj2 (Z.leb_le lo v) H1), (proj2 (Z.leb_le v hi) H2). reflexivity.
  - intros H. destruct (Z.leb_spec lo v), (Z.leb_spec v hi); simpl; eauto; lia.
Qed.

Lemma validated_in_range (check_int : validator) name v lo hi v' :
  validates check_int ->
  check_int name v lo hi = Ok v' -> v' = v /\ (lo <= v <= hi)%Z.
Proof.
  intros Hv E. destruct (Hv name v lo hi) as [Hin Hout].
  destruct (decide (lo <= v <= hi)%Z) as [Hr|Hr].
  - rewrite (Hin Hr) in E. injection E as <-. auto.
  - destruct (Hout Hr) as [e He]. congruence.
Qed.

Lemma construct_inv check_int extra e p at_ :
  validates check_int ->
  Init.construct check_int extra e p = Ok at_ ->
  attr_epoch at_ = default 10000%Z e /\ (1 <= attr_epoch at_ <= 100000)%Z /\
  attr_pop_size at_ = default 100%Z p /\ (10 <= attr_pop_size at_ <= 10000)%Z /\
  nfe_per_epoch at_ = (attr_pop_size at_ + extra)%Z /\ sort_flag at_ = false.
Proof.
  intros Hv. unfold Init.construct.
  destruct (check_int "epoch" _ _ _) as [e'|] eqn:Ee; [| discriminate].
  destruct (check_int "pop_size" _ _ _) as [p'|] eqn:Ep; [| discriminate].
  intros [= <-]. simpl.
  destruct (validated_in_range _ _ _ _ _ _ Hv Ee) as [-> He].
  destruct (validated_in_range _ _ _ _ _ _ Hv Ep) as [-> Hp].
  auto 10.
Qed.

(** X14. Construction composes with the epoch: for an optimizer carrying
    the attributes an accepted [__init__] has set (any of the four, the
    checks being the same), on a population of [pop_size] wolves,
    [BaseGWO.evolve] and [RW_GWO.evolve] raise nothing in either mode
    provided the accepted [epoch] is not 1; the lower bound 10 on
    [pop_size] guarantees the three leaders. *)
Theorem constructed_optimizer_runs (check_int : validator) (extra : Z)
    (e p : option Z) (at_ : attributes) (self : Optimizer) (t : Z) (s : State) :
  validates check_int ->
  Contract self ->
  Init.construct check_int extra e p = Ok at_ ->
  built_with at_ self ->
  length (pop s) = pop_size self ->
  attr_epoch at_ <> 1%Z ->
  (exists s', BaseGWO.evolve self t s = (Ok tt, s') /\
              length (pop s') = pop_size self) /\
  (exists s', RW_GWO.evolve self t s = (Ok tt, s') /\
              length (pop s') = pop_size self).
Proof.
  intros Hv HC Hinit [He Hp] Hlen Hne.
  destruct (construct_inv _ _ _ _ _ Hv Hinit) as (_ & Hre & _ & Hrp & _).
  assert (1 < epoch self)%Z as HT by lia.
  assert (3 <= pop_size self)%nat as Hsize by lia.
  split.
  - destruct (BaseGWO_completes self t HT Hsize s Hlen) as ([] & s' & E & Hs' & _).
    exists s'. auto.
  - destruct (RW_GWO_completes self t HT Hsize s Hlen) as ([] & s' & E & Hs' & _).
    exists s'. auto.
Qed.

Lemma constructed_optimizer_runs_witness :
  (exists s', BaseGWO.evolve (Demo.optimizer 10 true) 3 Demo.state = (Ok tt, s') /\
              length (pop s') = 10%nat) /\
  (exists s', RW_GWO.evolve (Demo.optimizer 10 true) 3 Demo.state = (Ok tt, s') /\
              length (pop s') = 10%nat).
Proof.
  apply (constructed_optimizer_runs reference_check_int 0 (Some 10%Z) (Some 10%Z)
           (mkAttributes 10 10 10 false) (Demo.optimizer 10 true) 3 Demo.state).
  - apply reference_check_int_validates.
  - apply demo_contract.
  - reflexivity.
  - split; reflexivity.
  - reflexivity.
  - discriminate.
Defined.

(** X15. The four constructors accept exactly the arguments with
    [epoch] in [1, 100000] and [pop_size] in [10, 10000] (defaults 10000
    and 100, hence always accepted), store them unchanged, set
    [sort_flag] to [False], and announce [pop_size] evaluations per epoch,
    [pop_size + 3] for RW_GWO. *)
Theorem constructor_accepts (check_int : validator) (e p : option Z) :
  validates check_int ->
  let epoch := default 10000%Z e in
  let pop_size := default 100%Z p in
  ((1 <= epoch <= 100000)%Z /\ (10 <= pop_size <= 10000)%Z ->
   Init.BaseGWO check_int e p = Ok (mkAttributes epoch pop_size pop_size false) /\
   Init.RW_GWO check_int e p = Ok (mkAttributes epoch pop_size (pop_size + 3) false) /\
   Init.GWO_WOA_M check_int e p = Ok (mkAttributes epoch pop_size pop_size false) /\
   Init.GWO_WOA_O check_int e p = Ok (mkAttributes epoch pop_size pop_size false)) /\
  (~ ((1 <= epoch <= 100000)%Z /\ (10 <= pop_size <= 10000)%Z) ->
   forall extra, exists err, Init.construct check_int extra e p = Raise err) /\
  Init.BaseGWO check_int None None = Ok (mkAttributes 10000 100 100 false) /\
  Init.RW_GWO check_int None None = Ok (mkAttributes 10000 100 103 false).
Proof.
  intros Hv epoch pop_size.
  assert (forall extra e0 p0,
            (1 <= default 10000 e0 <= 100000)%Z ->
            (10 <= default 100 p0 <= 10000)%Z ->
            Init.construct check_int extra e0 p0
            = Ok (mkAttributes (default 10000%Z e0) (default 100%Z p0)
                    (default 100%Z p0 + extra) false)) as Hok.
  { intros extra e0 p0 He Hp. unfold Init.construct.
    rewrite (proj1 (Hv "epoch" _ _ _) He), (proj1 (Hv "pop_size" _ _ _) Hp).
    reflexivity. }
  split; [| split; [| split]].
  - intros [He Hp].
    unfold Init.BaseGWO, Init.RW_GWO, Init.GWO_WOA_M, Init.GWO_WOA_O.
    rewrite !Hok by assumption. subst epoch pop_size.
    rewrite Z.add_0_r. auto.
  - intros Hout extra. unfold Init.construct. fold epoch. fold pop_size.
    destruct (decide (1 <= epoch <= 100000)%Z) as [He|He].
    + rewrite (proj1 (Hv "epoch" _ _ _) He).
      destruct (decide (10 <= pop_size <= 10000)%Z) as [Hp|Hp]; [tauto |].
      destruct (proj2 (Hv "pop_size" pop_size 10 10000)%Z Hp) as [err ->]. eauto.
    + destruct (proj2 (Hv "epoch" epoch 1 100000)%Z He) as [err ->]. eauto.
  - unfold Init.BaseGWO. rewrite Hok by (simpl; lia). reflexivity.
  - unfold Init.RW_GWO. rewrite Hok by (simpl; lia). reflexivity.
Qed.

Lemma constructor_accepts_witness :
  Init.BaseGWO reference_check_int None None = Ok (mkAttributes 10000 100 100 false) /\
  Init.RW_GWO reference_check_int None None = Ok (mkAttributes 10000 100 103 false).
Proof.
  exact (proj2 (proj2 (constructor_accepts reference_check_int None None
                         reference_check_int_validates))).
Defined.
(** X16. The announced [nfe_per_epoch] of RW_GWO is the number of
    candidates an epoch generates: on a population of [pop_size] wolves
    the random walk over the three leaders appends three positions to
    [leaders_new] and the update loop appends [pop_size] positions to
    [pop_new], none of the two loops raising; every appended position is
    evaluated once, at once or with its batch. *)
Theorem RW_GWO_candidates_match_nfe (check_int : validator) (e p : option Z)
    (at_ : attributes) (self : Optimizer) (a b : Q) (L1 L2 L3 R1 R2 R3 : solution) :
  validates check_int ->
  Init.RW_GWO check_int e p = Ok at_ ->
  built_with at_ self ->
  completes (has_size (pop_size self))
    (for_range (range (length [L1; L2; L3])) (RW_GWO.walk self a) ([L1; L2; L3], []))
    (fun acc => length acc.2 = 3%nat) /\
  completes (has_size (pop_size self))
    (for_range (range (pop_size self)) (RW_GWO.step self b [R1; R2; R3]) [])
    (fun pop_new => Z.of_nat (3 + length pop_new) = nfe_per_epoch at_).
Proof.
  intros Hv Hinit [He Hp].
  destruct (construct_inv _ _ _ _ _ Hv Hinit) as (_ & _ & _ & _ & Hnfe & _).
  split.
  - eapply completes_weaken.
    + apply (completes_seq _ _
               (fun i acc => length acc.1 = 3%nat /\ length acc.2 = i) 0 3
               ([L1; L2; L3], [])); [| auto].
      intros i acc Hi [H1 H2]. eapply completes_weaken.
      * apply RW_GWO_walk_completes. lia.
      * intros acc' [H1' H2']. split; congruence.
    + intros acc [_ H]. exact H.
  - eapply completes_weaken.
    + apply (completes_seq _ _ (fun i r => length r = i) 0 (pop_size self) []);
        [| reflexivity].
      intros i b0 Hi Hb0. eapply completes_weaken.
      * apply RW_GWO_step_completes. lia.
      * intros r Hr. simpl in Hr. lia.
    + intros r Hr. simpl in Hr. rewrite Hnfe. lia.
Qed.

Lemma RW_GWO_candidates_match_nfe_witness :
  completes (has_size 10)
    (for_range (range 3) (RW_GWO.walk (Demo.optimizer 10 true) 1)
       ([Demo.wolf 0 1; Demo.wolf (-1) (-1); Demo.wolf 1 2], []))
    (fun acc => length acc.2 = 3%nat) /\
  completes (has_size 10)
    (for_range (range 10)
       (RW_GWO.step (Demo.optimizer 10 true) 1
          [Demo.wolf 0 1; Demo.wolf (-1) (-1); Demo.wolf 1 2]) [])
    (fun pop_new => Z.of_nat (3 + length pop_new) = 13%Z).
Proof.
  apply (RW_GWO_candidates_match_nfe reference_check_int (Some 10%Z) (Some 10%Z)
           (mkAttributes 10 10 13 false) (Demo.optimizer 10 true) 1 1
           (Demo.wolf 0 1) (Demo.wolf (-1) (-1)) (Demo.wolf 1 2)
           (Demo.wolf 0 1) (Demo.wolf (-1) (-1)) (Demo.wolf 1 2)).
  - apply reference_check_int_validates.
  - reflexivity.
  - split; reflexivity.
Defined.
(** *** Batch mode of the hybrids *)

Lemma reference_rejects_mismatch T size lo hi batch minimize fit_func :
  rejects_mismatch (Reference.make T size lo hi batch minimize fit_func).
Proof.
  intros old new Hne. exists ValueError. simpl.
  unfold Reference.greedy_selection_population.
  destruct (decide _); [contradiction | reflexivity].
Qed.

Lemma GWO_WOA_O_decay_defined self t s :
  (0 < epoch self)%Z ->
  GWO_WOA_O.decay self t s = (Ok (Spec.GWO_WOA_O_decay t (epoch self)), s).
Proof.
  intros HT. unfold GWO_WOA_O.decay, py_truediv, Spec.GWO_WOA_O_decay.
  destruct (Z.eqb_spec (2 * epoch self) 0) as [E|_]; [lia |]. reflexivity.
Qed.

Lemma GWO_WOA_O_batch_epoch_raises self `{!Contract self} t s :
  rejects_mismatch self ->
  mode_in_AVAILABLE_MODES self = true ->
  (0 < epoch self)%Z ->
  (2 <= pop_size self)%nat ->
  length (pop s) = pop_size self ->
  exists e s', GWO_WOA_O.evolve self t s = (Raise e, s') /\ pop s' = pop s.
Proof.
  intros Hrej Hmode HT Hsize Hlen. unfold GWO_WOA_O.evolve.
  rewrite (bind_run _ _ _ _ _ (GWO_WOA_O_decay_defined self t s HT)).
  rewrite bind_read_pop.
  destruct (pop_size self) as [|n] eqn:En; [lia |].
  unfold range. cbn [seq for_range].
  set (a := Spec.GWO_WOA_O_decay t (epoch self)).
  destruct (GWO_WOA_O_draw_returns a s) as (k & s1 & Ed).
  pose proof (GWO_WOA_O_draw_reads a (pop s) s eq_refl) as Hd.
  rewrite Ed in Hd. destruct Hd as [Hp _]. unfold pop_is in Hp.
  destruct (hybrid_body_batch_rejected self
              (GWO_WOA_O.whale self (get_special_solutions self (pop s)) k 0)
              (get_special_solutions self (pop s))
              k 0%nat s1 Hrej Hmode) as (e & s' & E & Hp').
  { rewrite Hp. apply GWO_WOA_O_whale_reads. }
  { rewrite Hp. lia. }
  exists e, s'. split; [| congruence].
  apply bind_raise_run, bind_raise_run.
  unfold GWO_WOA_O.step. rewrite (bind_run _ _ _ _ _ Ed). exact E.
Qed.

(** X17. Batch mode of the hybrids cannot complete an epoch.  In
    [GWO_WOA_M.evolve] and [GWO_WOA_O.evolve] the block
    [if self.mode in self.AVAILABLE_MODES:] is inside the loop, so at the
    end of the first iteration [greedy_selection_population] is called on
    the whole population and a [pop_new] of at most one candidate.  When
    the positional merge rejects lists of different sizes, every batch
    epoch on [pop_size >= 2] wolves raises in its first iteration and
    leaves the population untouched. *)
Theorem hybrids_batch_epoch_raises (self : Optimizer) (t : Z) (s : State) :
  Contract self ->
  rejects_mismatch self ->
  mode_in_AVAILABLE_MODES self = true ->
  (1 < epoch self)%Z ->
  (2 <= pop_size self)%nat ->
  length (pop s) = pop_size self ->
  (exists e s', GWO_WOA_M.evolve self t s = (Raise e, s') /\ pop s' = pop s) /\
  (exists e s', GWO_WOA_O.evolve self t s = (Raise e, s') /\ pop s' = pop s).
Proof.
  intros HC Hrej Hmode HT Hsize Hlen. split.
  - apply GWO_WOA_M_batch_epoch_raises; assumption.
  - apply GWO_WOA_O_batch_epoch_raises; try assumption. lia.
Qed.

Lemma hybrids_batch_epoch_raises_witness :
  (exists e s', GWO_WOA_M.evolve (Demo.optimizer 10 true) 3 Demo.state = (Raise e, s') /\
                pop s' = pop Demo.state) /\
  (exists e s', GWO_WOA_O.evolve (Demo.optimizer 10 true) 3 Demo.state = (Raise e, s') /\
                pop s' = pop Demo.state).
Proof.
  apply (hybrids_batch_epoch_raises (Demo.optimizer 10 true) 3 Demo.state).
  - apply demo_contract.
  - apply reference_rejects_mismatch.
  - reflexivity.
  - reflexivity.
  - simpl. lia.
  - reflexivity.
Defined.

(** * The strategies against the specification's own words *)

(** ** Ranking (4.1, 4.5) *)

Lemma insert_ranked_perm self x l : Spec.insert_ranked self x l ≡ₚ x :: l.
Proof.
  induction l as [|y l IH]; simpl; [reflexivity |].
  destruct (fitter self (ID_TAR x) (ID_TAR y)); [reflexivity |].
  rewrite IH. apply Permutation_swap.
Qed.

Lemma foldl_insert_ranked_perm self l acc :
  foldl (fun acc x => Spec.insert_ranked self x acc) acc l ≡ₚ acc ++ l.
Proof.
  revert acc. induction l as [|x l IH]; intros acc; simpl.
  - rewrite app_nil_r. reflexivity.
  - rewrite IH, insert_ranked_perm. rewrite (Permutation_middle acc l x). reflexivity.
Qed.

(** The ranking reorders the members: none is lost, none is added. *)
Lemma ranked_perm self l : Spec.ranked self l ≡ₚ l.
Proof. unfold Spec.ranked. rewrite foldl_insert_ranked_perm. reflexivity. Qed.

Lemma ranked_length self l : length (Spec.ranked self l) = length l.
Proof. apply Permutation_length, ranked_perm. Qed.

Lemma fitter_irrefl self x : fitter self x x = false.
Proof.
  unfold fitter. destruct (minimize self); apply Qlt_bool_false, Qle_refl.
Qed.

Lemma fitter_before self x y z :
  fitter self x y = true -> fitter self z y = false -> fitter self z x = false.
Proof.
  unfold fitter. destruct (minimize self);
    rewrite Qlt_bool_true, !Qlt_bool_false; intros H1 H2; lra.
Qed.

Lemma insert_ranked_best_first self x l :
  best_first self l -> best_first self (Spec.insert_ranked self x l).
Proof.
  unfold best_first. induction 1 as [|y l Hl IH Hy]; simpl.
  - repeat constructor.
  - destruct (fitter self (ID_TAR x) (ID_TAR y)) eqn:E.
    + constructor; [constructor; assumption |].
      constructor; [apply fitter_asym, E |].
      eapply Forall_impl; [exact Hy |]. intros z Hz. cbv beta in *.
      eapply fitter_before; eassumption.
    + constructor; [exact IH |].
      rewrite insert_ranked_perm. constructor; assumption.
Qed.

(** The ranking is sorted, best first. *)
Lemma ranked_best_first self l : best_first self (Spec.ranked self l).
Proof.
  unfold Spec.ranked.
  assert (forall acc, best_first self acc ->
            best_first self (foldl (fun acc x => Spec.insert_ranked self x acc) acc l)) as H.
  { induction l as [|x l IH]; intros acc Hacc; simpl; [exact Hacc |].
    apply IH, insert_ranked_best_first, Hacc. }
  apply H. constructor.
Qed.

(** The [k] best members are members, and no member left out is strictly
    fitter than one of them. *)
Lemma best_is_best self k l :
  exists rest,
    Spec.best self k l ++ rest ≡ₚ l /\
    length (Spec.best self k l) = Nat.min k (length l) /\
    best_first self (Spec.best self k l) /\
    forall x y, x ∈ Spec.best self k l -> y ∈ rest ->
      fitter self (ID_TAR y) (ID_TAR x) = false.
Proof.
  exists (drop k (Spec.ranked self l)). unfold Spec.best.
  pose proof (ranked_best_first self l) as Hs. unfold best_first in *.
  split; [rewrite take_drop; apply ranked_perm |].
  split; [rewrite length_take, ranked_length; reflexivity |].
  rewrite <- (take_drop k (Spec.ranked self l)) in Hs.
  split; [eapply StronglySorted_app_1_l, Hs |].
  intros x y Hx Hy.
  exact (StronglySorted_app_1_elem_of _ _ _ x y Hs Hx Hy).
Qed.

(** The first of the best members: a member than which no member is
    strictly fitter. *)
Lemma best_head self k l L :
  Spec.best self k l !! 0%nat = Some L ->
  L ∈ l /\ forall y, y ∈ l -> fitter self (ID_TAR y) (ID_TAR L) = false.
Proof.
  unfold Spec.best. intros H.
  pose proof (ranked_best_first self l) as Hs. unfold best_first in Hs.
  pose proof (ranked_perm self l) as Hp.
  destruct (Spec.ranked self l) as [|L' r] eqn:E.
  - rewrite take_nil in H. discriminate.
  - destruct k as [|k]; [discriminate |]. simpl in H. injection H as ->.
    split; [rewrite <- Hp; left |].
    intros y Hy. rewrite <- Hp in Hy.
    apply elem_of_cons in Hy as [->|Hy]; [apply fitter_irrefl |].
    apply StronglySorted_inv in Hs as [_ Hall].
    rewrite Forall_forall in Hall. apply Hall, Hy.
Qed.

(** The reference implementation ranks as the specification says. *)
Lemma reference_insert_is_ranked T size lo hi batch minimize fit_func x l :
  Reference.insert_sorted minimize x l =
  Spec.insert_ranked (Reference.make T size lo hi batch minimize fit_func) x l.
Proof.
  induction l as [|y l IH]; simpl; [reflexivity |].
  unfold fitter; simpl. rewrite IH. reflexivity.
Qed.

Lemma foldr_reverse_foldl {A B} (f : A -> B -> B) (l : list A) (b : B) :
  foldr f b (reverse l) = foldl (fun acc x => f x acc) b l.
Proof.
  revert b. induction l as [|x l IH]; intros b; simpl; [reflexivity |].
  rewrite reverse_cons, foldr_app. simpl. apply IH.
Qed.

Lemma reference_sorted_is_ranked T size lo hi batch minimize fit_func l :
  Reference.sorted minimize l =
  Spec.ranked (Reference.make T size lo hi batch minimize fit_func) l.
Proof.
  unfold Reference.sorted, Spec.ranked. rewrite foldr_reverse_foldl.
  generalize (@nil solution) as acc.
  induction l as [|x l IH]; intros acc; simpl; [reflexivity |].
  rewrite IH. f_equal. apply reference_insert_is_ranked.
Qed.

Lemma reference_ranks_leaders T size lo hi batch minimize fit_func :
  ranks_leaders (Reference.make T size lo hi batch minimize fit_func).
Proof.
  intros p. simpl. unfold Reference.get_special_solutions, Spec.best.
  f_equal. apply reference_sorted_is_ranked.
Qed.

Lemma reference_truncates_to_best T size lo hi batch minimize fit_func :
  truncates_to_best (Reference.make T size lo hi batch minimize fit_func).
Proof.
  intros l n. simpl. unfold Reference.get_sorted_strim_population, Spec.best.
  f_equal. apply reference_sorted_is_ranked.
Qed.

(** ** The two evaluation modes (4.3) *)

Lemma set_pop_run idx x s :
  (idx < length (pop s))%nat ->
  set_pop idx x s = (Ok tt, mkState (<[idx := x]> (pop s)) (g_best s) (rng s)).
Proof.
  intros H. unfold set_pop. destruct (decide (idx < length (pop s))%nat); [reflexivity | contradiction].
Qed.

(** What follows the computation of the raw position in an iteration of
    a population loop: repair, append, and, in incremental mode, evaluate
    and replace. *)
Lemma amend_and_dispatch_run self idx raw pop_new s x :
  pop s !! idx = Some x ->
  (pos_new ← amend self raw;
   (if mode_in_AVAILABLE_MODES self then mret tt
    else evaluate_and_replace self idx pos_new);;
   mret (pop_new ++ [pos_new])) s =
  (Ok (pop_new ++ [(Spec.repair self raw (rng s)).1]),
   mkState (if mode_in_AVAILABLE_MODES self then pop s
            else <[idx := candidate_first self x
                            (Spec.evaluate self (Spec.repair self raw (rng s)).1)]> (pop s))
           (g_best s) (Spec.repair self raw (rng s)).2).
Proof.
  intros Hx. unfold amend, with_rng, Spec.repair.
  unfold mbind at 1, M_bind at 1, bind at 1.
  destruct (amend_position self raw (lb self) (ub self) (rng s)) as [pos r1]. simpl.
  destruct (mode_in_AVAILABLE_MODES self); [reflexivity |].
  unfold evaluate_and_replace, mbind, M_bind, bind, get_pop, getitem. simpl.
  rewrite Hx. simpl. rewrite set_pop_run by (simpl; eapply lookup_lt_Some, Hx).
  reflexivity.
Qed.

Lemma BaseGWO_step_implements self a L1 L2 L3 g :
  implements self g (BaseGWO.step self a [L1; L2; L3]) (Spec.BaseGWO_candidate self a L1 L2 L3).
Proof.
  intros idx pop_new s x Hg Hx. subst g.
  unfold BaseGWO.step, np_random_uniform, with_rng.
  unfold mbind, M_bind, bind, get_pop, getitem. simpl. rewrite Hx. simpl.
  unfold Spec.BaseGWO_candidate, Spec.uniform3. simpl.
  exact (amend_and_dispatch_run self idx _ pop_new
           (mkState (pop s) (g_best s) _) x Hx).
Qed.

Lemma for_range_cons_run {B} i rest (body : nat -> B -> M B) acc s b s1 :
  body i acc s = (Ok b, s1) ->
  for_range (i :: rest) body acc s = for_range rest body b s1.
Proof. intros E. simpl. apply bind_run, E. Qed.

Lemma incremental_slot_run self choose cand l r i x :
  l !! i = Some x ->
  Spec.incremental_slot self choose cand (l, r) i =
  (<[i := choose x (Spec.evaluate self (cand x r).1)]> l, (cand x r).2).
Proof.
  intros Hx. unfold Spec.incremental_slot. simpl. rewrite Hx.
  destruct (cand x r) as [pos r']. reflexivity.
Qed.

(** Incremental mode: the loop over the slots is the slot-by-slot update
    of 4.3, the slot receiving what the call site selects. *)
Lemma loop_incremental self g step cand :
  implements self g step cand ->
  mode_in_AVAILABLE_MODES self = false ->
  forall idxs pop_new s,
    g_best s = g ->
    Forall (fun i => i < length (pop s))%nat idxs ->
    exists acc,
      for_range idxs step pop_new s =
      (Ok acc,
       let st := foldl (Spec.incremental_slot self (candidate_first self) cand)
                   (pop s, rng s) idxs in
       mkState st.1 g st.2).
Proof.
  intros Himp Hmode idxs.
  induction idxs as [|i rest IH]; intros pop_new s Hg Hall.
  - exists pop_new. simpl. destruct s; simpl in *; subst; reflexivity.
  - apply Forall_cons in Hall as [Hi Hrest].
    destruct (lookup_lt_is_Some_2 (pop s) i Hi) as [x Hx].
    pose proof (Himp i pop_new s x Hg Hx) as Hstep. rewrite Hmode in Hstep.
    rewrite (for_range_cons_run _ _ _ _ _ _ _ Hstep).
    edestruct (IH (pop_new ++ [(cand x (rng s)).1])) as [acc Hacc];
      [| | exists acc; rewrite Hacc].
    + reflexivity.
    + simpl. eapply Forall_impl; [exact Hrest |]. intros j Hj. cbv beta in *.
      rewrite length_insert. exact Hj.
    + cbn [foldl pop rng]. rewrite (incremental_slot_run _ _ _ _ _ _ _ Hx). reflexivity.
Qed.

Lemma generate_length cand l r : length (Spec.generate cand l r).1 = length l.
Proof.
  revert r. induction l as [|x l IH]; intros r; simpl; [reflexivity |].
  destruct (cand x r) as [pos r1]. specialize (IH r1).
  destruct (Spec.generate cand l r1) as [rest r2]. simpl in *. congruence.
Qed.

(** Batch mode: the loop generates the candidates from the population as
    it is, which it leaves alone. *)
Lemma loop_batch self g step cand :
  implements self g step cand ->
  mode_in_AVAILABLE_MODES self = true ->
  forall n i pop_new s,
    g_best s = g ->
    (i + n <= length (pop s))%nat ->
    for_range (seq i n) step pop_new s =
    (Ok (pop_new ++ (Spec.generate cand (take n (drop i (pop s))) (rng s)).1),
     mkState (pop s) g (Spec.generate cand (take n (drop i (pop s))) (rng s)).2).
Proof.
  intros Himp Hmode n.
  induction n as [|n IH]; intros i pop_new s Hg Hlen.
  - simpl. rewrite app_nil_r. destruct s; simpl in *; subst; reflexivity.
  - assert (i < length (pop s))%nat as Hi by lia.
    destruct (lookup_lt_is_Some_2 (pop s) i Hi) as [x Hx].
    pose proof (Himp i pop_new s x Hg Hx) as Hstep. rewrite Hmode in Hstep.
    cbn [seq]. rewrite (for_range_cons_run _ _ _ _ _ _ _ Hstep).
    rewrite IH by (simpl; [reflexivity || lia ..]).
    simpl. rewrite (drop_S _ _ _ Hx). simpl.
    destruct (cand x (rng s)) as [pos r1]. simpl.
    destruct (Spec.generate cand (take n (drop (S i) (pop s))) r1) as [rest r2]. simpl.
    rewrite <- app_assoc. reflexivity.
Qed.

(** The batch block after the loop: evaluation of the candidates and
    positional merge, a tie keeping the incumbent. *)
Lemma evaluate_and_merge_run self `{!Contract self} cands s :
  length cands = length (pop s) ->
  evaluate_and_merge self cands s =
  (Ok (map (Spec.evaluate self) cands),
   mkState (zip_with (Spec.select self) (pop s) (map (Spec.evaluate self) cands))
           (g_best s) (rng s)).
Proof.
  intros Hlen. unfold evaluate_and_merge, mbind, M_bind, bind, read_pop, lift_result,
    assign_pop.
  rewrite update_target_spec, greedy_same_length by (rewrite length_map; auto).
  simpl. do 2 f_equal.
  apply zip_with_ext; [| reflexivity | reflexivity].
  intros old new. rewrite better_spec. reflexivity.
Qed.

(** ** BaseGWO against section 4.6 *)

Lemma seq_in_range n : Forall (fun i => i < n)%nat (seq 0 n).
Proof. apply Forall_forall. intros i Hi. apply elem_of_seq in Hi. lia. Qed.

(** [BaseGWO.evolve] is the epoch of 4.6, with the leaders ranked as 4.1
    says, under the rule the mode's code applies: the merge of 4.4 in
    batch mode, [get_better_solution] with the candidate first in
    incremental mode. *)
Lemma BaseGWO_evolve_refines self `{!Contract self} t s :
  ranks_leaders self ->
  (1 < epoch self)%Z ->
  (3 <= pop_size self)%nat ->
  length (pop s) = pop_size self ->
  BaseGWO.evolve self t s =
  (Ok tt,
   Spec.BaseGWO_epoch_under
     (if mode_in_AVAILABLE_MODES self then Spec.select self else candidate_first self)
     self t s).
Proof.
  intros Hrank HT H3 Hlen.
  destruct (three_leaders self (pop s)) as (L1 & L2 & L3 & E); [lia |].
  unfold BaseGWO.evolve, Spec.BaseGWO_epoch_under.
  rewrite (bind_run _ _ _ _ _ (linear_decay_defined self t s HT)).
  rewrite bind_read_pop. rewrite <- Hrank, E.
  set (a := Spec.linear_decay t (epoch self)).
  pose proof (BaseGWO_step_implements self a L1 L2 L3 (g_best s)) as Himp.
  unfold Spec.per_mode.
  destruct (mode_in_AVAILABLE_MODES self) eqn:Hmode.
  - pose proof (loop_batch self _ _ _ Himp Hmode (pop_size self) 0 [] s eq_refl) as Hloop.
    rewrite drop_0, <- Hlen, firstn_all in Hloop. rewrite <- Hlen.
    unfold range. rewrite (bind_run _ _ _ _ _ (Hloop (Nat.le_refl _))).
    unfold Spec.batch.
    pose proof (generate_length (Spec.BaseGWO_candidate self a L1 L2 L3) (pop s) (rng s)) as Hg.
    destruct (Spec.generate _ (pop s) (rng s)) as [cands r']. simpl in *.
    unfold mbind, M_bind, bind.
    rewrite (evaluate_and_merge_run self cands (mkState (pop s) (g_best s) r') Hg).
    reflexivity.
  - destruct (loop_incremental self _ _ _ Himp Hmode (seq 0 (pop_size self)) [] s eq_refl)
      as [acc Hacc].
    { rewrite Hlen. apply seq_in_range. }
    unfold range. rewrite (bind_run _ _ _ _ _ Hacc).
    unfold Spec.incremental. rewrite Hlen.
    destruct (foldl _ (pop s, rng s) (seq 0 (pop_size self))) as [p r]. reflexivity.
Qed.

(** The two rules give the same member unless the fitnesses tie; on a
    tie the rule of 4.4 keeps the incumbent and the call site takes the
    candidate. *)
Lemma candidate_first_spec self `{!Contract self} old cand :
  (fitter self (ID_TAR cand) (ID_TAR old) = true ->
   candidate_first self old cand = cand /\ Spec.select self old cand = cand) /\
  (fitter self (ID_TAR old) (ID_TAR cand) = true ->
   candidate_first self old cand = old /\ Spec.select self old cand = old) /\
  (fitter self (ID_TAR cand) (ID_TAR old) = false ->
   fitter self (ID_TAR old) (ID_TAR cand) = false ->
   candidate_first self old cand = cand /\ Spec.select self old cand = old).
Proof.
  unfold candidate_first, Spec.select. rewrite better_spec.
  split; [| split].
  - intros H. rewrite H, (fitter_asym _ _ _ H). auto.
  - intros H. rewrite H, (fitter_asym _ _ _ H). auto.
  - intros -> ->. auto.
Qed.

(** ** RW_GWO against section 4.7 *)

Lemma RW_GWO_step_implements self b R1 R2 R3 g :
  implements self g (RW_GWO.step self b [R1; R2; R3])
    (Spec.RW_GWO_candidate self b R1 R2 R3 g).
Proof.
  intros idx pop_new s x Hg Hx. subst g.
  unfold RW_GWO.step, np_random_uniform, with_rng.
  unfold mbind, M_bind, bind, get_pop, get_g_best, getitem. simpl. rewrite Hx. simpl.
  unfold Spec.RW_GWO_candidate, Spec.uniform3. simpl.
  exact (amend_and_dispatch_run self idx _ pop_new
           (mkState (pop s) (g_best s) _) x Hx).
Qed.

(** One iteration of the random walk of the leaders. *)
Lemma RW_GWO_walk_run self a i leaders leaders_new s L :
  leaders !! i = Some L ->
  RW_GWO.walk self a i (leaders, leaders_new) s =
  (Ok (if mode_in_AVAILABLE_MODES self then leaders
       else <[i := candidate_first self L
                     (Spec.evaluate self (Spec.RW_GWO_walk self a L (rng s)).1)]> leaders,
       leaders_new ++ [(Spec.RW_GWO_walk self a L (rng s)).1]),
   mkState (pop s) (g_best s) (Spec.RW_GWO_walk self a L (rng s)).2).
Proof.
  intros HL.
  unfold RW_GWO.walk, np_random_standard_cauchy, amend, with_rng,
    mbind, M_bind, bind, getitem, Spec.RW_GWO_walk, Spec.repair.
  rewrite HL. simpl.
  destruct (cauchy_samples (n_dims self) (rng s)) as [z r1]. simpl.
  destruct (amend_position self _ (lb self) (ub self) r1) as [pos r2]. simpl.
  destruct (mode_in_AVAILABLE_MODES self); reflexivity.
Qed.

Lemma walk_incremental self a :
  mode_in_AVAILABLE_MODES self = false ->
  forall idxs leaders leaders_new s,
    Forall (fun i => i < length leaders)%nat idxs ->
    exists acc,
      for_range idxs (RW_GWO.walk self a) (leaders, leaders_new) s =
      (let st := foldl (Spec.incremental_slot self (candidate_first self)
                          (Spec.RW_GWO_walk self a)) (leaders, rng s) idxs in
       (Ok (st.1, acc), mkState (pop s) (g_best s) st.2)).
Proof.
  intros Hmode idxs.
  induction idxs as [|i rest IH]; intros leaders leaders_new s Hall.
  - exists leaders_new. simpl. destruct s; reflexivity.
  - apply Forall_cons in Hall as [Hi Hrest].
    destruct (lookup_lt_is_Some_2 leaders i Hi) as [L HL].
    pose proof (RW_GWO_walk_run self a i leaders leaders_new s L HL) as Hstep.
    rewrite Hmode in Hstep.
    rewrite (for_range_cons_run _ _ _ _ _ _ _ Hstep).
    edestruct (IH (<[i := candidate_first self L
                     (Spec.evaluate self (Spec.RW_GWO_walk self a L (rng s)).1)]> leaders))
      as [acc Hacc]; [| exists acc; rewrite Hacc].
    + eapply Forall_impl; [exact Hrest |]. intros j Hj. cbv beta in *.
      rewrite length_insert. exact Hj.
    + cbn [foldl pop rng g_best].
      rewrite (incremental_slot_run _ _ _ _ _ _ _ HL). reflexivity.
Qed.

Lemma walk_batch self a :
  mode_in_AVAILABLE_MODES self = true ->
  forall n i leaders leaders_new s,
    (i + n <= length leaders)%nat ->
    for_range (seq i n) (RW_GWO.walk self a) (leaders, leaders_new) s =
    (Ok (leaders,
         leaders_new ++
         (Spec.generate (Spec.RW_GWO_walk self a) (take n (drop i leaders)) (rng s)).1),
     mkState (pop s) (g_best s)
       (Spec.generate (Spec.RW_GWO_walk self a) (take n (drop i leaders)) (rng s)).2).
Proof.
  intros Hmode n.
  induction n as [|n IH]; intros i leaders leaders_new s Hlen.
  - simpl. rewrite app_nil_r. destruct s; reflexivity.
  - assert (i < length leaders)%nat as Hi by lia.
    destruct (lookup_lt_is_Some_2 leaders i Hi) as [L HL].
    pose proof (RW_GWO_walk_run self a i leaders leaders_new s L HL) as Hstep.
    rewrite Hmode in Hstep.
    cbn [seq]. rewrite (for_range_cons_run _ _ _ _ _ _ _ Hstep).
    rewrite IH by lia.
    simpl. rewrite (drop_S _ _ _ HL). simpl.
    destruct (Spec.RW_GWO_walk self a L (rng s)) as [pos r1]. simpl.
    destruct (Spec.generate _ (take n (drop (S i) leaders)) r1) as [rest r2]. simpl.
    rewrite <- app_assoc. reflexivity.
Qed.

(** The positional merge of evaluated candidates is the rule of 4.4,
    slot by slot. *)
Lemma merge_is_select self `{!Contract self} old cands :
  length cands = length old ->
  greedy_selection_population self old (update_target_wrapper_population self cands) =
  Ok (zip_with (Spec.select self) old (map (Spec.evaluate self) cands)).
Proof.
  intros Hlen.
  rewrite update_target_spec, greedy_same_length by (rewrite length_map; auto).
  f_equal. apply zip_with_ext; [| reflexivity | reflexivity].
  intros x y. rewrite better_spec. reflexivity.
Qed.

Lemma incremental_slot_length self choose cand acc idx :
  length (Spec.incremental_slot self choose cand acc idx).1 = length acc.1.
Proof.
  unfold Spec.incremental_slot. destruct (acc.1 !! idx) as [x|]; [| reflexivity].
  destruct (cand x acc.2) as [pos r']. simpl. apply length_insert.
Qed.

Lemma per_mode_length self choose cand l r :
  length (Spec.per_mode self choose cand l r).1 = length l.
Proof.
  unfold Spec.per_mode. destruct (mode_in_AVAILABLE_MODES self).
  - unfold Spec.batch. pose proof (generate_length cand l r) as Hg.
    destruct (Spec.generate cand l r) as [cands r']. simpl in *.
    rewrite length_zip_with, length_map. lia.
  - unfold Spec.incremental. generalize (seq 0 (length l)) as idxs.
    assert (forall idxs acc,
              length (foldl (Spec.incremental_slot self choose cand) acc idxs).1
              = length acc.1) as H.
    { induction idxs as [|i idxs IH]; intros acc; simpl; [reflexivity |].
      rewrite IH. apply incremental_slot_length. }
    intros idxs. apply (H idxs (l, r)).
Qed.

(** [RW_GWO.evolve] is the epoch of 4.7, with the leaders ranked and the
    population truncated as 4.1 and 4.5 say, under the rule the mode's
    code applies. *)
Lemma RW_GWO_evolve_refines self `{!Contract self} t s :
  ranks_leaders self ->
  truncates_to_best self ->
  (1 < epoch self)%Z ->
  (3 <= pop_size self)%nat ->
  length (pop s) = pop_size self ->
  RW_GWO.evolve self t s =
  (Ok tt,
   Spec.RW_GWO_epoch_under
     (if mode_in_AVAILABLE_MODES self then Spec.select self else candidate_first self)
     self t s).
Proof.
  intros Hrank Htrim HT H3 Hlen.
  destruct (three_leaders self (pop s)) as (L1 & L2 & L3 & E); [lia |].
  unfold RW_GWO.evolve, Spec.RW_GWO_epoch_under.
  rewrite (bind_run _ _ _ _ _ (linear_decay_defined self t s HT)).
  rewrite (bind_run _ _ _ _ _ (linear_decay_defined self t s HT)).
  rewrite bind_read_pop. rewrite <- Hrank, E.
  set (a := Spec.linear_decay t (epoch self)).
  pose proof (per_mode_length self
                (if mode_in_AVAILABLE_MODES self then Spec.select self
                 else candidate_first self)
                (Spec.RW_GWO_walk self a) [L1; L2; L3] (rng s)) as Hl3.
  unfold Spec.per_mode in *.
  destruct (mode_in_AVAILABLE_MODES self) eqn:Hmode.
  - pose proof (walk_batch self a Hmode 3 0 [L1; L2; L3] [] s (Nat.le_refl _)) as Hwalk.
    change (take 3 (drop 0 [L1; L2; L3])) with [L1; L2; L3] in Hwalk.
    unfold range. change (length [L1; L2; L3]) with 3%nat.
    rewrite (bind_run _ _ _ _ _ Hwalk).
    unfold Spec.batch in *.
    pose proof (generate_length (Spec.RW_GWO_walk self a) [L1; L2; L3] (rng s)) as Hg.
    destruct (Spec.generate (Spec.RW_GWO_walk self a) [L1; L2; L3] (rng s)) as [walked r1].
    cbn [fst snd app] in *.
    unfold lift_result at 1.
    rewrite (merge_is_select self [L1; L2; L3] walked Hg).
    set (refreshed := zip_with (Spec.select self) [L1; L2; L3]
                        (map (Spec.evaluate self) walked)) in *.
    destruct refreshed as [|R1 [|R2 [|R3 [|R4 rest]]]]; try discriminate Hl3.
    unfold mbind at 1, M_bind at 1, bind at 1.
    pose proof (RW_GWO_step_implements self a R1 R2 R3 (g_best s)) as Himp.
    pose proof (loop_batch self _ _ _ Himp Hmode (pop_size self) 0 []
                  (mkState (pop s) (g_best s) r1) eq_refl) as Hloop.
    cbn [pop rng g_best] in Hloop.
    rewrite drop_0, take_ge in Hloop by lia.
    rewrite (bind_run _ _ _ _ _ (Hloop ltac:(lia))).
    pose proof (generate_length (Spec.RW_GWO_candidate self a R1 R2 R3 (g_best s))
                  (pop s) r1) as Hg2.
    destruct (Spec.generate _ (pop s) r1) as [cands r2]. cbn [fst snd app] in *.
    unfold mbind, M_bind, bind.
    rewrite (evaluate_and_merge_run self cands (mkState (pop s) (g_best s) r2) Hg2).
    unfold RW_GWO.sort_and_trim, mbind, M_bind, bind, read_pop, assign_pop,
      mret, M_ret, ret.
    cbn [pop rng g_best]. rewrite Htrim. reflexivity.
  - destruct (walk_incremental self a Hmode (seq 0 3) [L1; L2; L3] [] s)
      as [acc Hwalk]; [apply (seq_in_range 3) |].
    unfold range. change (length [L1; L2; L3]) with 3%nat.
    rewrite (bind_run _ _ _ _ _ Hwalk).
    unfold Spec.incremental in *. change (length [L1; L2; L3]) with 3%nat in *.
    destruct (foldl _ ([L1; L2; L3], rng s) (seq 0 3)) as [refreshed r1].
    cbn [fst snd] in *.
    destruct refreshed as [|R1 [|R2 [|R3 [|R4 rest]]]]; try discriminate Hl3.
    unfold mbind at 1, M_bind at 1, bind at 1, mret at 1, M_ret at 1, ret at 1.
    pose proof (RW_GWO_step_implements self a R1 R2 R3 (g_best s)) as Himp.
    destruct (loop_incremental self _ _ _ Himp Hmode (seq 0 (pop_size self)) []
                (mkState (pop s) (g_best s) r1) eq_refl) as [acc2 Hloop].
    { cbn [pop]. rewrite Hlen. apply seq_in_range. }
    cbn [pop rng g_best] in Hloop.
    rewrite (bind_run _ _ _ _ _ Hloop). rewrite Hlen.
    destruct (foldl _ (pop s, r1) (seq 0 (pop_size self))) as [updated r2].
    unfold RW_GWO.sort_and_trim, mbind, M_bind, bind, read_pop, assign_pop,
      mret, M_ret, ret.
    cbn [pop rng g_best fst snd]. rewrite Htrim. reflexivity.
Qed.

(** ** GWO_WOA_O against section 4.9 *)

Lemma uniform_at_unit_interval r i : 0 <= uniform_at r i /\ uniform_at r i < 1.
Proof.
  unfold uniform_at. split.
  - apply random_sample_unit_interval.
  - apply random_sample_lt_1.
Qed.

(** The draws of one iteration are twelve successive uniform samples. *)
Lemma GWO_WOA_O_draw_run a s :
  GWO_WOA_O.draw a s =
  (Ok (Spec.GWO_WOA_O_coefficients a (uniform_at (rng s))),
   mkState (pop s) (g_best s) (Nat.iter 12 advance (rng s))).
Proof. reflexivity. Qed.

(** The two positions of the branch [p < 0.5]. *)
Lemma GWO_WOA_O_whale_is_spec (self : Optimizer) (list_best : list solution)
    (k : coefficients) (idx : nat) (s : State) (x L1 : solution) :
  pop s !! idx = Some x ->
  list_best !! 0%nat = Some L1 ->
  (Qlt_bool (Qabs (c_A k)) 1 = true ->
   exists v,
     GWO_WOA_O.whale self list_best k idx s = (Ok v, s) /\
     Spec.array_eq v
       (Spec.GWO_WOA_O_encircle (ID_POS (g_best s)) (c_A k) (c_r3 k) (c_C k) (ID_POS x))) /\
  (Qlt_bool (Qabs (c_A k)) 1 = false ->
   exists v,
     let fresh := create_solution self (lb self) (ub self) (rng s) in
     GWO_WOA_O.whale self list_best k idx s
       = (Ok v, mkState (pop s) (g_best s) fresh.2) /\
     Spec.array_eq v
       (Spec.GWO_WOA_O_spiral self (ID_POS fresh.1) (c_A k) (c_w k) 1 (c_l k) (c_C1 k)
          (ID_POS L1) (ID_POS x))).
Proof.
  intros Hx HL. split.
  - intros HA. unfold GWO_WOA_O.whale. rewrite HA.
    unfold mbind, M_bind, bind, get_g_best, get_pop, getitem. rewrite Hx. simpl.
    eexists. split; [reflexivity |].
    unfold Spec.GWO_WOA_O_encircle. apply sub_array_eq, scale_scale.
  - intros HA. unfold GWO_WOA_O.whale. rewrite HA.
    unfold mbind, M_bind, bind, with_rng, get_pop, getitem.
    destruct (create_solution self (lb self) (ub self) (rng s)) as [x_rand r'].
    rewrite HL. simpl. rewrite Hx. simpl.
    eexists. split; [reflexivity |].
    unfold Spec.GWO_WOA_O_spiral. apply sub_array_eq, scale_scale.
Qed.

(** C7. [GWO_WOA_O.evolve] at epoch [t] of [T > 0] runs the loop over
    the slots with [a = 2*(1 - t/(2T))], which is 1 exactly when [t = T]
    and at least 1, so never 0, for [t <= T], and with the leaders of the
    population as it is before the epoch, of which the first, [L_1], is a
    member than which no member is strictly fitter.  Every iteration
    draws its coefficients as twelve successive uniform samples of
    [[0, 1)], [A = 2*a*r1 - a] and [C = 2*r2] among them, and hands them
    to the branches.  When [p < 0.5] the branch computes, for [|A| < 1],
    [g_best - A * r3 * |C * g_best - pop[idx]|], and for [|A| >= 1],
    [x_rand - A * (w * exp(b*l) * cos(2*pi*l)) * |C1 * L_1 - pop[idx]|]
    with [b = 1] and [x_rand] a solution freshly made by
    [create_solution]; the iteration goes on from the state the branch
    leaves. *)
Theorem GWO_WOA_O_evolve_is_spec (self : Optimizer) (t : Z) (s : State) :
  ranks_leaders self ->
  (0 < epoch self)%Z ->
  let a := Spec.GWO_WOA_O_decay t (epoch self) in
  let list_best := get_special_solutions self (pop s) in
  ((a == 1 <-> t = epoch self) /\ ((t <= epoch self)%Z -> 1 <= a)) /\
  GWO_WOA_O.evolve self t s =
    (for_range (range (pop_size self)) (GWO_WOA_O.step self a list_best) [];; mret tt) s /\
  ((pop s <> [] -> exists L1, list_best !! 0%nat = Some L1) /\
   forall L1, list_best !! 0%nat = Some L1 ->
     L1 ∈ pop s /\ forall y, y ∈ pop s -> fitter self (ID_TAR y) (ID_TAR L1) = false) /\
  forall (idx : nat) (pop_new : list ndarray) (s0 : State),
    let U := uniform_at (rng s0) in
    let k := Spec.GWO_WOA_O_coefficients a U in
    let s1 := mkState (pop s0) (g_best s0) (Nat.iter 12 advance (rng s0)) in
    (forall i, 0 <= U i /\ U i < 1) /\
    GWO_WOA_O.draw a s0 = (Ok k, s1) /\
    GWO_WOA_O.step self a list_best idx pop_new s0 =
      GWO_WOA_O.body self list_best k idx pop_new s1 /\
    forall x L1,
      pop s0 !! idx = Some x ->
      list_best !! 0%nat = Some L1 ->
      Qlt_bool (c_p k) (1 # 2) = true ->
      exists v s2,
        GWO_WOA_O.whale self list_best k idx s1 = (Ok v, s2) /\
        GWO_WOA_O.body self list_best k idx pop_new s1 =
          (if mode_in_AVAILABLE_MODES self
           then evaluated ← evaluate_and_merge self pop_new; mret (map ID_POS evaluated)
           else mret pop_new) s2 /\
        (Qlt_bool (Qabs (c_A k)) 1 = true ->
         s2 = s1 /\
         Spec.array_eq v
           (Spec.GWO_WOA_O_encircle (ID_POS (g_best s0)) (c_A k) (c_r3 k) (c_C k)
              (ID_POS x))) /\
        (Qlt_bool (Qabs (c_A k)) 1 = false ->
         let fresh := create_solution self (lb self) (ub self) (rng s1) in
         s2 = mkState (pop s0) (g_best s0) fresh.2 /\
         Spec.array_eq v
           (Spec.GWO_WOA_O_spiral self (ID_POS fresh.1) (c_A k) (c_w k) 1 (c_l k)
              (c_C1 k) (ID_POS L1) (ID_POS x))).
Proof.
  intros Hrank HT a list_best.
  split; [split |].
  { apply GWO_WOA_O_decay_at_end, HT. }
  { intros Ht. apply GWO_WOA_O_decay_at_least_1; assumption. }
  split.
  { unfold GWO_WOA_O.evolve.
    rewrite (bind_run _ _ _ _ _ (GWO_WOA_O_decay_defined self t s HT)).
    apply bind_read_pop. }
  split.
  { subst list_best. rewrite Hrank. split.
    - intros Hne. destruct (best_is_best self 3 (pop s)) as (_ & _ & Hlen & _).
      destruct (Spec.best self 3 (pop s)) as [|L1 l]; [| exists L1; reflexivity].
      destruct (pop s); [contradiction | discriminate Hlen].
    - intros L1 HL. eapply best_head, HL. }
  intros idx pop_new s0 U k s1.
  split; [apply uniform_at_unit_interval |].
  split; [apply GWO_WOA_O_draw_run |].
  split.
  { exact (bind_run (GWO_WOA_O.draw a)
             (fun k => GWO_WOA_O.body self list_best k idx pop_new) s0 k s1
             (GWO_WOA_O_draw_run a s0)). }
  intros x L1 Hx HL Hp.
  destruct (GWO_WOA_O_whale_is_spec self list_best k idx s1 x L1 Hx HL) as [Hlow Hhigh].
  assert (forall v s2,
            GWO_WOA_O.whale self list_best k idx s1 = (Ok v, s2) ->
            GWO_WOA_O.body self list_best k idx pop_new s1 =
            (if mode_in_AVAILABLE_MODES self
             then evaluated ← evaluate_and_merge self pop_new; mret (map ID_POS evaluated)
             else mret pop_new) s2) as Hbody.
  { intros v s2 Hw. unfold GWO_WOA_O.body. rewrite Hp.
    unfold mbind at 1, M_bind at 1, bind at 1.
    unfold mbind at 1, M_bind at 1, bind at 1.
    rewrite Hw. reflexivity. }
  destruct (Qlt_bool (Qabs (c_A k)) 1) eqn:HA.
  - destruct (Hlow eq_refl) as (v & Hw & Hv).
    exists v, s1. split; [exact Hw |]. split; [apply (Hbody v s1 Hw) |].
    split; [intros _; split; [reflexivity | exact Hv] | discriminate].
  - destruct (Hhigh eq_refl) as (v & Hw & Hv).
    eexists v, _. split; [exact Hw |]. split; [apply (Hbody v _ Hw) |].
    split; [discriminate | intros _; split; [reflexivity | exact Hv]].
Qed.

Lemma GWO_WOA_O_evolve_is_spec_witness :
  (ranks_leaders (Demo.optimizer 10 false) /\
   (0 < epoch (Demo.optimizer 10 false))%Z) /\
  GWO_WOA_O.evolve (Demo.optimizer 10 false) 3 Demo.state =
    (for_range (range 10)
       (GWO_WOA_O.step (Demo.optimizer 10 false) (Spec.GWO_WOA_O_decay 3 10)
          (get_special_solutions (Demo.optimizer 10 false) Demo.wolves)) [];;
     mret tt) Demo.state /\
  exists v s2,
    GWO_WOA_O.whale (Demo.optimizer 10 false)
      (get_special_solutions (Demo.optimizer 10 false) Demo.wolves)
      (Spec.GWO_WOA_O_coefficients (Spec.GWO_WOA_O_decay 3 10) (uniform_at (rng Demo.state)))
      0 (mkState Demo.wolves (Demo.wolf 0 1) (Nat.iter 12 advance (rng Demo.state)))
    = (Ok v, s2) /\
    Spec.array_eq v
      (Spec.GWO_WOA_O_spiral (Demo.optimizer 10 false)
         (ID_POS (create_solution (Demo.optimizer 10 false) Demo.lo Demo.hi
                    (Nat.iter 12 advance (rng Demo.state))).1)
         (c_A (Spec.GWO_WOA_O_coefficients (Spec.GWO_WOA_O_decay 3 10)
                 (uniform_at (rng Demo.state))))
         (uniform_at (rng Demo.state) 3) 1
         (-1 + (1 - -1) * uniform_at (rng Demo.state) 4)
         (2 * uniform_at (rng Demo.state) 7)
         (ID_POS (Demo.wolf 0 1)) (ID_POS (Demo.wolf 1 2))).
Proof.
  pose proof (GWO_WOA_O_evolve_is_spec (Demo.optimizer 10 false) 3 Demo.state
                (reference_ranks_leaders _ _ _ _ _ _ _) eq_refl) as H.
  cbv zeta in H. destruct H as (_ & Hevolve & _ & Hiter).
  split; [split; [apply reference_ranks_leaders | reflexivity] |].
  split; [exact Hevolve |].
  destruct (Hiter 0%nat [] Demo.state) as (_ & _ & _ & Hwhale).
  destruct (Hwhale (Demo.wolf 1 2) (Demo.wolf 0 1) eq_refl eq_refl eq_refl)
    as (v & s2 & Hw & _ & _ & Hhigh).
  exists v, s2. split; [exact Hw |]. exact (proj2 (Hhigh eq_refl)).
Defined.

(** ** A tie in incremental mode

    The incremental call sites pass the candidate first.  A constant
    objective to be maximised makes every comparison an exact tie; the
    contracts of the inherited methods hold, and
    [get_better_solution] returns its first argument. *)

Lemma flat_max_contract batch : Contract (Demo.flat_max_optimizer batch).
Proof. apply reference_contract, demo_bounds_ordered. Qed.

Lemma flat_max_first_on_tie batch x y :
  ID_TAR x == ID_TAR y ->
  get_better_solution (Demo.flat_max_optimizer batch) x y = x.
Proof.
  intros Hxy. simpl. unfold Reference.get_better_solution.
  assert (Qlt_bool (ID_TAR x) (ID_TAR y) = false) as ->; [| reflexivity].
  apply Qlt_bool_false. rewrite Hxy. apply Qle_refl.
Qed.

(** C8.  For every strategy and every optimizer that meets the
    contracts, in incremental mode, an iteration for slot [idx] that
    returns has either left the population alone (the hybrids' branch
    [p < 0.5]) or has left in the slot the result of
    [get_better_solution([pos, target], incumbent)], the candidate first:
    the incumbent when it is strictly fitter, the candidate otherwise.
    The claim keeps the incumbent on a tie.  Maximising a constant
    objective over the ten wolves of the example, at epoch 3 of 10 of
    [BaseGWO.evolve] in incremental mode, the contracts hold and
    [get_better_solution] returns its first argument on a tie; the
    candidate of slot 0 is [(5/6, -1/3)]; its fitness 0 ties with that of
    the incumbent [(1, 2)], and it replaces the incumbent: the slot is
    replaced by a candidate that is not strictly fitter.  The same epoch
    in batch mode keeps every incumbent. *)
Theorem tied_candidate_takes_the_slot :
  (forall (self : Optimizer) (idx : nat) (pop_new : list ndarray) (s : State)
          (old : solution),
     Contract self ->
     mode_in_AVAILABLE_MODES self = false ->
     pop s !! idx = Some old ->
     (forall pos,
        (fitter self (ID_TAR old) (get_target_wrapper self pos) = true ->
         slot_after self pos old = old) /\
        (fitter self (ID_TAR old) (get_target_wrapper self pos) = false ->
         slot_after self pos old = Solution pos (get_target_wrapper self pos))) /\
     (forall a list_best r s',
        BaseGWO.step self a list_best idx pop_new s = (Ok r, s') ->
        exists pos, r = pop_new ++ [pos] /\
                    pop s' = <[idx := slot_after self pos old]> (pop s)) /\
     (forall b leaders r s',
        RW_GWO.step self b leaders idx pop_new s = (Ok r, s') ->
        exists pos, r = pop_new ++ [pos] /\
                    pop s' = <[idx := slot_after self pos old]> (pop s)) /\
     (forall a a2 list_best r s',
        GWO_WOA_M.step self a a2 list_best idx pop_new s = (Ok r, s') ->
        (r = pop_new /\ pop s' = pop s) \/
        (exists pos, r = pop_new ++ [pos] /\
                     pop s' = <[idx := slot_after self pos old]> (pop s))) /\
     (forall a list_best r s',
        GWO_WOA_O.step self a list_best idx pop_new s = (Ok r, s') ->
        (r = pop_new /\ pop s' = pop s) \/
        (exists pos, r = pop_new ++ [pos] /\
                     pop s' = <[idx := slot_after self pos old]> (pop s)))) /\
  let self := Demo.flat_max_optimizer false in
  let s := Demo.flat_state in
  Contract self /\
  mode_in_AVAILABLE_MODES self = false /\
  (forall x y, ID_TAR x == ID_TAR y -> get_better_solution self x y = x) /\
  (exists new,
     pop s !! 0%nat = Some (Solution [1; 2] 0) /\
     pop (BaseGWO.evolve self 3 s).2 !! 0%nat = Some new /\
     Spec.array_eq (ID_POS new) [5 # 6; -1 # 3] /\
     ID_TAR new == 0 /\
     fitter self (ID_TAR new) 0 = false) /\
  ~ Spec.replaced_only_if_strictly_better self (pop s) (pop (BaseGWO.evolve self 3 s).2) /\
  pop (BaseGWO.evolve (Demo.flat_max_optimizer true) 3 s).2 = pop s.
Proof.
  split.
  { intros self idx pop_new s old HC Hmode Hold.
    apply incremental_iteration_slot; assumption. }
  cbv zeta.
  split; [apply flat_max_contract |].
  split; [reflexivity |].
  split; [apply flat_max_first_on_tie |].
  split.
  { eexists. split; [reflexivity |]. split; [vm_compute; reflexivity |].
    split; [repeat constructor; vm_compute; reflexivity |].
    split; vm_compute; reflexivity. }
  split; [| vm_compute; reflexivity].
  intros H.
  set (after := pop (BaseGWO.evolve (Demo.flat_max_optimizer false) 3 Demo.flat_state).2) in H.
  assert (after !! 0%nat = Some (default (Solution [] 0) (after !! 0%nat))) as Hafter
    by (vm_compute; reflexivity).
  specialize (H 0%nat (Solution [1; 2] 0) _ eq_refl Hafter).
  assert (fitter (Demo.flat_max_optimizer false)
            (ID_TAR (default (Solution [] 0) (after !! 0%nat)))
            (ID_TAR (Solution [1; 2] 0)) = false) as Hfit
    by (vm_compute; reflexivity).
  rewrite Hfit in H. discriminate H.
  intros Heq. vm_compute in Heq. discriminate Heq.
Qed.

Lemma tied_candidate_takes_the_slot_witness :
  (Contract (Demo.optimizer 10 false) /\
   mode_in_AVAILABLE_MODES (Demo.optimizer 10 false) = false /\
   pop Demo.state !! 0%nat = Some (Demo.wolf 1 2)) /\
  slot_after (Demo.optimizer 10 false) [2; 1] (Demo.wolf 1 2)
  = Solution [2; 1] (get_target_wrapper (Demo.optimizer 10 false) [2; 1]).
Proof.
  split; [split; [apply demo_contract | split; reflexivity] |].
  exact (proj2 (proj1 (proj1 tied_candidate_takes_the_slot (Demo.optimizer 10 false)
                         0%nat [] Demo.state (Demo.wolf 1 2)
                         (demo_contract 10 false) eq_refl eq_refl) [2; 1])
               eq_refl).
Defined.

(** C3.  For every optimizer that meets the contracts and ranks its
    leaders as 4.1 says, with [T > 1] and a population of
    [pop_size >= 3] wolves, [BaseGWO.evolve] is the epoch of 4.6:
    [a = 2 - 2*t/(T-1)], the three best members of the population as it
    is before the epoch, for every slot the mean of the three
    [X_i = L_i - A_i * |C_i * L_i - pop[idx]|], repaired, and evaluated
    per mode; the replacement rule is the one of 4.4 in batch mode and
    the one of the call site, the candidate first, in incremental mode.
    The two rules differ on ties.  Maximising a constant objective over
    the ten wolves of the example, at epoch 3 of 10 in incremental mode,
    the epoch of 4.6 under the rule of 4.4 keeps every incumbent, all
    fitnesses being equal; the code leaves the candidate [(5/6, -1/3)]
    in slot 0, in place of [(1, 2)]. *)
Theorem BaseGWO_incremental_departs_on_ties :
  (forall (self : Optimizer) (t : Z) (s : State),
     Contract self ->
     ranks_leaders self ->
     (1 < epoch self)%Z ->
     (3 <= pop_size self)%nat ->
     length (pop s) = pop_size self ->
     BaseGWO.evolve self t s =
     (Ok tt,
      Spec.BaseGWO_epoch_under
        (if mode_in_AVAILABLE_MODES self then Spec.select self else candidate_first self)
        self t s)) /\
  let self := Demo.flat_max_optimizer false in
  let s := Demo.flat_state in
  (Contract self /\ ranks_leaders self) /\
  pop (Spec.BaseGWO_epoch self 3 s) = pop s /\
  (exists new,
     pop s !! 0%nat = Some (Solution [1; 2] 0) /\
     pop (BaseGWO.evolve self 3 s).2 !! 0%nat = Some new /\
     Spec.array_eq (ID_POS new) [5 # 6; -1 # 3] /\
     ID_TAR new == 0) /\
  BaseGWO.evolve self 3 s <> (Ok tt, Spec.BaseGWO_epoch self 3 s).
Proof.
  split.
  { intros self t s HC Hrank HT H3 Hlen. apply BaseGWO_evolve_refines; assumption. }
  cbv zeta.
  split; [split; [apply flat_max_contract | apply reference_ranks_leaders] |].
  split; [vm_compute; reflexivity |].
  split.
  { eexists. split; [reflexivity |]. split; [vm_compute; reflexivity |].
    split; [repeat constructor; vm_compute; reflexivity | vm_compute; reflexivity]. }
  intros H. apply (f_equal (fun r => option_map ID_POS (pop r.2 !! 0%nat))) in H.
  vm_compute in H. discriminate H.
Qed.

Lemma BaseGWO_incremental_departs_on_ties_witness :
  (Contract (Demo.optimizer 10 true) /\
   ranks_leaders (Demo.optimizer 10 true) /\
   (1 < epoch (Demo.optimizer 10 true))%Z /\
   (3 <= pop_size (Demo.optimizer 10 true))%nat /\
   length (pop Demo.state) = pop_size (Demo.optimizer 10 true)) /\
  BaseGWO.evolve (Demo.optimizer 10 true) 3 Demo.state =
  (Ok tt, Spec.BaseGWO_epoch (Demo.optimizer 10 true) 3 Demo.state).
Proof.
  assert (3 <= pop_size (Demo.optimizer 10 true))%nat as H3 by (simpl; lia).
  split.
  { split; [apply demo_contract |]. split; [apply reference_ranks_leaders |].
    split; [reflexivity |]. split; [exact H3 | reflexivity]. }
  exact (proj1 BaseGWO_incremental_departs_on_ties (Demo.optimizer 10 true) 3%Z Demo.state
           (demo_contract 10 true) (reference_ranks_leaders _ _ _ _ _ _ _)
           eq_refl H3 eq_refl).
Defined.

(** C5.  For every optimizer that meets the contracts, ranks its leaders
    as 4.1 says and truncates as 4.5 says, with [T > 1] and a population
    of [pop_size >= 3] wolves, [RW_GWO.evolve] is the epoch of 4.7, in
    order: (1) each of the three best members takes the step [a * z],
    [z] a vector of [n_dims] standard Cauchy draws, which is repaired and
    greedily merged into the leader set; (2) every member is updated
    through the repaired mean of
    [X_i = leaders[i] - mu_i * |c_i * g_best - pop[idx]|] over the
    refreshed leaders, evaluated per mode; (3) the population becomes the
    best [pop_size] members of the updated population followed by the
    refreshed leaders.  The replacement rule is the one of 4.4 in batch
    mode and the one of the call sites, the candidate first, in
    incremental mode.  The two rules differ on ties.  Maximising a
    constant objective over the ten wolves of the example, at epoch 3 of
    10 in incremental mode, the epoch of 4.7 under the rule of 4.4 keeps
    the leaders and every incumbent, all fitnesses being equal, and the
    truncation returns the population as it was; the code replaces the
    three leaders by their steps, the first being [(-5/3, 2/3)], and
    leaves the candidate [(11/9, 17/9)] in slot 0, in place of
    [(1, 2)]. *)
Theorem RW_GWO_incremental_departs_on_ties :
  (forall (self : Optimizer) (t : Z) (s : State),
     Contract self ->
     ranks_leaders self ->
     truncates_to_best self ->
     (1 < epoch self)%Z ->
     (3 <= pop_size self)%nat ->
     length (pop s) = pop_size self ->
     RW_GWO.evolve self t s =
     (Ok tt,
      Spec.RW_GWO_epoch_under
        (if mode_in_AVAILABLE_MODES self then Spec.select self else candidate_first self)
        self t s)) /\
  let self := Demo.flat_max_optimizer false in
  let s := Demo.flat_state in
  (Contract self /\ ranks_leaders self /\ truncates_to_best self) /\
  pop (Spec.RW_GWO_epoch self 3 s) = pop s /\
  (exists walked,
     (Spec.per_mode self (candidate_first self) (Spec.RW_GWO_walk self (4 # 3))
        (Spec.best self 3 (pop s)) (rng s)).1 !! 0%nat = Some walked /\
     Spec.array_eq (ID_POS walked) [-5 # 3; 2 # 3]) /\
  (exists new,
     pop s !! 0%nat = Some (Solution [1; 2] 0) /\
     pop (RW_GWO.evolve self 3 s).2 !! 0%nat = Some new /\
     Spec.array_eq (ID_POS new) [11 # 9; 17 # 9] /\
     ID_TAR new == 0) /\
  RW_GWO.evolve self 3 s <> (Ok tt, Spec.RW_GWO_epoch self 3 s).
Proof.
  split.
  { intros self t s HC Hrank Htrim HT H3 Hlen. apply RW_GWO_evolve_refines; assumption. }
  cbv zeta.
  split.
  { split; [apply flat_max_contract |].
    split; [apply reference_ranks_leaders | apply reference_truncates_to_best]. }
  split; [vm_compute; reflexivity |].
  split.
  { eexists. split; [vm_compute; reflexivity |].
    repeat constructor; vm_compute; reflexivity. }
  split.
  { eexists. split; [reflexivity |]. split; [vm_compute; reflexivity |].
    split; [repeat constructor; vm_compute; reflexivity | vm_compute; reflexivity]. }
  intros H. apply (f_equal (fun r => option_map ID_POS (pop r.2 !! 0%nat))) in H.
  vm_compute in H. discriminate H.
Qed.

Lemma RW_GWO_incremental_departs_on_ties_witness :
  (Contract (Demo.optimizer 10 true) /\
   ranks_leaders (Demo.optimizer 10 true) /\
   truncates_to_best (Demo.optimizer 10 true) /\
   (1 < epoch (Demo.optimizer 10 true))%Z /\
   (3 <= pop_size (Demo.optimizer 10 true))%nat /\
   length (pop Demo.state) = pop_size (Demo.optimizer 10 true)) /\
  RW_GWO.evolve (Demo.optimizer 10 true) 3 Demo.state =
  (Ok tt, Spec.RW_GWO_epoch (Demo.optimizer 10 true) 3 Demo.state).
Proof.
  assert (3 <= pop_size (Demo.optimizer 10 true))%nat as H3 by (simpl; lia).
  split.
  { split; [apply demo_contract |]. split; [apply reference_ranks_leaders |].
    split; [apply reference_truncates_to_best |].
    split; [reflexivity |]. split; [exact H3 | reflexivity]. }
  exact (proj1 RW_GWO_incremental_departs_on_ties (Demo.optimizer 10 true) 3%Z Demo.state
           (demo_contract 10 true) (reference_ranks_leaders _ _ _ _ _ _ _)
           (reference_truncates_to_best _ _ _ _ _ _ _)
           eq_refl H3 eq_refl).
Defined.
